(** * mpi_array: indexing extents, halo clamping and the halo-update planner

    A shallow embedding of the extent algebra of [mpi_array/indexing.py],
    the locale extents and the [Distribution] factory of
    [mpi_array/distribution.py], and the [HalosUpdate] planner of
    [mpi_array/decomposition.py], followed by the properties established
    about them.

    Conventions of the embedding:
    - a Python call that may raise is a computation in the [result] monad;
    - a one-dimensional [numpy] array of dtype [int64] is a [list Z] whose
      arithmetic wraps around ([wrap64]); binary ufuncs follow the numpy
      broadcasting rule for one-dimensional operands ([broadcast2]);
    - an [(ndim, 2)] halo matrix is a list of rows [(lo, hi)];
    - a Python [dict] keyed by coordinate tuples is a [gmap (list Z) _];
      a [dict] whose iteration order matters is an association list;
    - Python lists that are shared between several references live in an
      explicit store ([Updates]). *)

From stdpp Require Import base numbers option list gmap.
From Stdlib Require Import ZArith Lia Sorted.

Local Open Scope Z_scope.

(** ** Python exceptions and fallible computations *)

Inductive exn : Type :=
| ValueError
| IndexError
| KeyError
| TypeError
| AttributeError
| OverflowError.

Inductive result (A : Type) : Type :=
| Ok (a : A)
| Raise (e : exn).

Arguments Ok {A} a.
Arguments Raise {A} e.

#[global] Instance result_ret : MRet result := fun A x => Ok x.

#[global] Instance result_bind : MBind result :=
  fun A B f m => match m with Ok a => f a | Raise e => Raise e end.

(** [l[i]] for a non-negative index: [IndexError] when out of range. *)
Definition getitem {A : Type} (l : list A) (i : nat) : result A :=
  match l !! i with
  | Some x => Ok x
  | None => Raise IndexError
  end.

(** [l[i] = x] for a non-negative index: [IndexError] when out of range. *)
Definition setitem {A : Type} (l : list A) (i : nat) (x : A) : result (list A) :=
  if decide (i < length l)%nat then Ok (<[i:=x]> l) else Raise IndexError.

(** ** numpy int64 vectors *)

Definition int64_min : Z := - 2 ^ 63.
Definition int64_max : Z := 2 ^ 63 - 1.

Definition in_int64 (z : Z) : bool := (int64_min <=? z) && (z <=? int64_max).

(** Two's-complement wrap-around of int64 arithmetic. *)
Definition wrap64 (z : Z) : Z := (z + 2 ^ 63) `mod` 2 ^ 64 - 2 ^ 63.

(** [numpy.array(l, dtype="int64")] on a sequence of Python integers. *)
Definition np_array_int64 (l : list Z) : result (list Z) :=
  if forallb in_int64 l then Ok l else Raise OverflowError.

Definition in_uint64 (z : Z) : bool := (0 <=? z) && (z <? 2 ^ 64).

(** An array as [numpy.array] makes it when no [dtype] is given.  The
    element type is found from the Python integers: int64 when all of them
    fit, uint64 when none is negative and all fit in 64 bits, float64 when
    int64 and uint64 values are mixed, and an array of Python objects when
    some integer fits neither. *)
Inductive ndarray : Type :=
| Int64Array (l : list Z)
| UInt64Array (l : list Z)
| Float64Array (l : list Z)
| ObjectArray (l : list Z).

(** The double nearest to the integer [z], ties to the even mantissa.  A
    double has 53 bits of mantissa, so an integer below [2 ^ 53] in
    magnitude is kept. *)
Definition to_float64 (z : Z) : Z :=
  let a := Z.abs z in
  if a <? 2 ^ 53 then z
  else
    let e := Z.log2 a - 52 in
    let q := a / 2 ^ e in
    let r := a `mod` 2 ^ e in
    let q' :=
      if 2 * r <? 2 ^ e then q
      else if 2 ^ e <? 2 * r then q + 1
      else if Z.even q then q else q + 1 in
    Z.sgn z * (q' * 2 ^ e).

(** [numpy.array(l)] on a sequence of Python integers.  A float64 array
    holds the integers rounded to doubles. *)
Definition np_array (l : list Z) : ndarray :=
  if forallb in_int64 l then Int64Array l
  else if forallb in_uint64 l then UInt64Array l
  else if forallb (fun z : Z => in_int64 z || in_uint64 z) l
       then Float64Array (to_float64 <$> l)
  else ObjectArray l.

(** [numpy.array(a, dtype="int64")] on an array.  A uint64 array is cast
    with wrap-around and raises nothing.  A float64 array is cast by the C
    conversion, which gives [- 2 ^ 63] for a double outside int64 on x86-64.
    The objects of an object array are converted one by one, as a sequence
    of Python integers is. *)
Definition ndarray_int64 (a : ndarray) : result (list Z) :=
  match a with
  | Int64Array l => Ok l
  | UInt64Array l => Ok (wrap64 <$> l)
  | Float64Array l =>
      Ok ((fun x : Z => if in_int64 x then x else int64_min) <$> l)
  | ObjectArray l => np_array_int64 l
  end.

(** Broadcasting of a binary ufunc over two one-dimensional operands:
    equal lengths combine elementwise, a length-one operand is stretched,
    anything else is a [ValueError]. *)
Definition broadcast2 {A B C : Type} (f : A -> B -> C)
    (xs : list A) (ys : list B) : result (list C) :=
  if decide (length xs = length ys) then Ok (zip_with f xs ys)
  else match xs, ys with
       | [x], _ => Ok (f x <$> ys)
       | _, [y] => Ok ((fun x => f x y) <$> xs)
       | _, _ => Raise ValueError
       end.

Definition np_maximum : list Z -> list Z -> result (list Z) := broadcast2 Z.max.
Definition np_minimum : list Z -> list Z -> result (list Z) := broadcast2 Z.min.
Definition np_add : list Z -> list Z -> result (list Z) :=
  broadcast2 (fun x y => wrap64 (x + y)).
Definition np_sub : list Z -> list Z -> result (list Z) :=
  broadcast2 (fun x y => wrap64 (x - y)).
Definition np_ge : list Z -> list Z -> result (list bool) := broadcast2 Z.geb.
Definition np_eq : list Z -> list Z -> result (list bool) := broadcast2 Z.eqb.

Definition np_any (bs : list bool) : bool := existsb id bs.
Definition np_all (bs : list bool) : bool := forallb id bs.

(** [range(start, stop, step)] for a non-zero step. *)
Definition py_range (start stop step : Z) : list Z :=
  let n := if 0 <? step then (stop - start + step - 1) `div` step
           else (start - stop - step - 1) `div` (- step) in
  (fun k : nat => start + Z.of_nat k * step) <$> seq 0 (Z.to_nat n).

(** A halo matrix: one [(lo, hi)] row per axis. *)
Abbreviation halo_matrix := (list (Z * Z)).

Inductive Side : Type := LO | HI.

Definition side_index (d : Side) : nat :=
  match d with LO => 0%nat | HI => 1%nat end.

(** [halo[:, dir]] *)
Definition halo_col (h : halo_matrix) (d : Side) : list Z :=
  match d with LO => fst <$> h | HI => snd <$> h end.

(** [halo[axis, dir]] *)
Definition halo_at (h : halo_matrix) (axis : nat) (d : Side) : result Z :=
  row ← getitem h axis;
  mret (match d with LO => fst row | HI => snd row end).

(** [numpy.array((lo, hi)).T]: the two columns must have one length. *)
Definition halo_of_cols (lo hi : list Z) : result halo_matrix :=
  if decide (length lo = length hi) then Ok (zip lo hi) else Raise ValueError.

(** The accepted forms of a halo argument. *)
Inductive HaloSpec : Type :=
| HaloInt (h : Z)
| HaloSeq (hs : list Z)
| HaloMat (m : halo_matrix).

(** Modelled from the spec: [array_split.split.convert_halo_to_array_form],
    a function of the external [array_split] package.  An integer gives the
    same width on every axis and side, a per-axis sequence gives symmetric
    sides, an [ndim x 2] matrix is taken as it is; a sequence or matrix of
    the wrong length is rejected. *)
Definition convert_halo_to_array_form (halo : HaloSpec) (ndim : nat)
    : result halo_matrix :=
  match halo with
  | HaloInt h =>
      if in_int64 h then Ok (replicate ndim (h, h)) else Raise OverflowError
  | HaloSeq hs =>
      if decide (length hs = ndim) then
        hs' ← np_array_int64 hs; mret ((fun h : Z => (h, h)) <$> (hs' : list Z))
      else Raise ValueError
  | HaloMat m =>
      if decide (length m = ndim) then
        _ ← np_array_int64 (fst <$> m);
        _ ← np_array_int64 (snd <$> m);
        mret m
      else Raise ValueError
  end.

(** A [for] loop whose body may raise, threading the loop state. *)
Fixpoint for_each {S X : Type} (body : X -> S -> result S)
    (xs : list X) (st : S) : result S :=
  match xs with
  | [] => Ok st
  | x :: xs' => st' ← body x st; for_each body xs' st'
  end.

(** ** [mpi_array/indexing.py] *)

Module Indexing.

(** [IndexingExtent]: the half-open box [[_beg, _end)]. *)
Record IndexingExtent : Type := mkIndexingExtent {
  _beg : list Z;
  _end : list Z
}.

(** [IndexingExtent.__init__(slice, start, stop)].  A slice is a pair
    [(start, stop)].  When neither [slice] nor [stop] is given the object
    is left without bounds and its first use raises [AttributeError]; the
    model raises at once. *)
Definition IndexingExtent_init (slice : option (list (Z * Z)))
    (start stop : option (list Z)) : result IndexingExtent :=
  match slice, start, stop with
  | Some sl, _, _ =>
      b ← np_array_int64 (fst <$> sl);
      e ← np_array_int64 (snd <$> sl);
      mret (mkIndexingExtent b e)
  | None, None, Some sp =>
      e ← np_array_int64 sp;
      mret (mkIndexingExtent ((fun _ : Z => 0) <$> (e : list Z)) e)
  | None, Some st, Some sp =>
      b ← np_array_int64 st;
      e ← np_array_int64 sp;
      mret (mkIndexingExtent b e)
  | None, _, None => Raise AttributeError
  end.

(** [IndexingExtent.ndim] *)
Definition ndim (self : IndexingExtent) : nat := length (_beg self).

(** [IndexingExtent.__eq__]: identical [start] and [stop].  Python's [and]
    does not evaluate its right operand when the left one is false. *)
Definition IndexingExtent_eq (self other : IndexingExtent) : result bool :=
  eb ← np_eq (_beg self) (_beg other);
  if np_all eb then
    ee ← np_eq (_end self) (_end other); mret (np_all ee)
  else mret false.

(** [IndexingExtent.calc_intersection]: [None] when the extents do not
    intersect. *)
Definition calc_intersection (self other : IndexingExtent)
    : result (option IndexingExtent) :=
  b ← np_maximum (_beg self) (_beg other);
  e ← np_minimum (_end self) (_end other);
  ge ← np_ge b e;
  if np_any ge then mret None else mret (Some (mkIndexingExtent b e)).

(** [IndexingExtent.split(a, index)]: the [(lo, hi)] pair of the cut along
    axis [a] at [index].  Each piece is built from a fresh copy of the
    bounds. *)
Definition split (self : IndexingExtent) (a : nat) (index : Z)
    : result (option IndexingExtent * option IndexingExtent) :=
  ba ← getitem (_beg self) a;
  if index <=? ba then mret (None, Some self)
  else
    ea ← getitem (_end self) a;
    if index >=? ea then mret (Some self, None)
    else
      e ← setitem (_end self) a index;
      let lo := mkIndexingExtent (_beg self) e in
      b ← setitem (_beg self) a index;
      let hi := mkIndexingExtent b (_end self) in
      mret (Some lo, Some hi).

(** [collections.deque] used as a stack: the head of the list is the right
    end, [append] pushes and [pop] removes there. *)
Definition deque_append {A : Type} (q : list A) (x : A) : list A := x :: q.

Definition deque_pop {A : Type} (q : list A) : result (A * list A) :=
  match q with
  | x :: q' => Ok (x, q')
  | [] => Raise IndexError
  end.

(** Python's [if x is not None: l.append(x)]. *)
Definition append_some {A : Type} (l : list A) (x : option A) : list A :=
  match x with Some v => l ++ [v] | None => l end.

(** One iteration of the [for a in range(self.ndim)] loop of
    [calc_intersection_split]; the state is [(q, leftovers)]. *)
Definition intersection_split_body (intersection : IndexingExtent) (a : nat)
    (st : list IndexingExtent * list IndexingExtent)
    : result (list IndexingExtent * list IndexingExtent) :=
  let '(q, leftovers) := st in
  '(o, q) ← deque_pop q;
  ia ← getitem (_beg intersection) a;
  '(lo, hi) ← split o a ia;
  let leftovers := append_some leftovers lo in
  match hi with
  | Some hi1 =>
      ie ← getitem (_end intersection) a;
      '(lo2, hi2) ← split hi1 a ie;
      let q := match lo2 with Some l => deque_append q l | None => q end in
      let leftovers := append_some leftovers hi2 in
      mret (q, leftovers)
  | None => mret (q, leftovers)
  end.

(** [IndexingExtent.calc_intersection_split]: the [(leftovers, intersection)]
    pair. *)
Definition calc_intersection_split (self other : IndexingExtent)
    : result (list IndexingExtent * option IndexingExtent) :=
  intersection ← calc_intersection self other;
  match intersection with
  | Some i =>
      '(_, leftovers) ←
        for_each (intersection_split_body i) (seq 0 (ndim self)) ([self], []);
      mret (leftovers, Some i)
  | None => mret ([other], None)
  end.

(** [HaloIndexingExtent]: an extent with an [(ndim, 2)] halo matrix. *)
Record HaloIndexingExtent : Type := mkHaloIndexingExtent {
  extent : IndexingExtent;
  _halo : halo_matrix
}.

(** [HaloIndexingExtent.__init__(slice, start, stop, halo)]; [halo=None]
    gives zeros. *)
Definition HaloIndexingExtent_init (slice : option (list (Z * Z)))
    (start stop : option (list Z)) (halo : option HaloSpec)
    : result HaloIndexingExtent :=
  e ← IndexingExtent_init slice start stop;
  h ← match halo with
      | None => mret (replicate (ndim e) (0, 0))
      | Some hs => convert_halo_to_array_form hs (ndim e)
      end;
  mret (mkHaloIndexingExtent e h).

Definition start_n (self : HaloIndexingExtent) : list Z := _beg (extent self).
Definition stop_n (self : HaloIndexingExtent) : list Z := _end (extent self).

(** [start_h = _beg - _halo[:, LO]] *)
Definition start_h (self : HaloIndexingExtent) : result (list Z) :=
  np_sub (_beg (extent self)) (halo_col (_halo self) LO).

(** [stop_h = _end + _halo[:, HI]] *)
Definition stop_h (self : HaloIndexingExtent) : result (list Z) :=
  np_add (_end (extent self)) (halo_col (_halo self) HI).

(** The [halo] setter: [convert_halo_to_array_form(halo, self.ndim)]. *)
Definition set_halo (self : HaloIndexingExtent) (halo : HaloSpec)
    : result HaloIndexingExtent :=
  h ← convert_halo_to_array_form halo (ndim (extent self));
  mret (mkHaloIndexingExtent (extent self) h).

(** *** Index sets (specification vocabulary) *)

(** Membership of the index [p] in the box [[b, e)]. *)
Fixpoint in_box (b e p : list Z) : bool :=
  match b, e, p with
  | [], [], [] => true
  | bi :: b', ei :: e', pi :: p' =>
      (bi <=? pi) && (pi <? ei) && in_box b' e' p'
  | _, _, _ => false
  end.

Definition contains (x : IndexingExtent) (p : list Z) : bool :=
  in_box (_beg x) (_end x) p.

Definition disjoint (x y : IndexingExtent) : Prop :=
  forall p, ~ (contains x p = true /\ contains y p = true).

(** The bounds have one length. *)
Definition well_formed (x : IndexingExtent) : Prop :=
  length (_beg x) = length (_end x).

(** No axis is empty: [beg[i] < end[i]] everywhere. *)
Definition nonemptyb (x : IndexingExtent) : bool :=
  forallb (fun be : Z * Z => fst be <? snd be) (zip (_beg x) (_end x)).

(** The bounds [calc_intersection] computes, before its emptiness test. *)
Definition meet (self other : IndexingExtent) : IndexingExtent :=
  mkIndexingExtent (zip_with Z.max (_beg self) (_beg other))
                   (zip_with Z.min (_end self) (_end other)).

(** The box [x] with its bounds on axis [a] replaced by [[lo, hi)]. *)
Definition with_axis (x : IndexingExtent) (a : nat) (lo hi : Z)
    : IndexingExtent :=
  mkIndexingExtent (<[a:=lo]> (_beg x)) (<[a:=hi]> (_end x)).

(** Membership in [[b, e)] on every axis but [a]. *)
Definition off_axis (b e : list Z) (a : nat) (p : list Z) : Prop :=
  length b = length e /\ length p = length b /\
  forall i, (i < length b)%nat -> i <> a -> b !!! i <= p !!! i < e !!! i.

(** The pieces [calc_intersection_split] emits at axis [a] when its current
    box is [c]: the part below the intersection [i], then the part above. *)
Definition axis_leftovers (c i : IndexingExtent) (a : nat)
    : list IndexingExtent :=
  (if _beg c !!! a <? _beg i !!! a
   then [with_axis c a (_beg c !!! a) (_beg i !!! a)] else []) ++
  (if _end i !!! a <? _end c !!! a
   then [with_axis c a (_end i !!! a) (_end c !!! a)] else []).

End Indexing.

(** A loop body either continues with a new state or executes [break]. *)
Inductive flow (S : Type) : Type :=
| Continue (st : S)
| Break (st : S).

Arguments Continue {S} st.
Arguments Break {S} st.

(** A [for] loop with [break]. *)
Fixpoint for_each_break {S X : Type} (body : X -> S -> result (flow S))
    (xs : list X) (st : S) : result S :=
  match xs with
  | [] => Ok st
  | x :: xs' =>
      r ← body x st;
      match r with
      | Continue st' => for_each_break body xs' st'
      | Break st' => Ok st'
      end
  end.

(** ** [mpi_array/decomposition.py] *)

Module Decomposition.

Import Indexing.

(** The module's own [IndexingExtent] and [HaloIndexingExtent] classes carry
    the same fields, [calc_intersection], [start_h] and [stop_h] as those of
    [indexing.py]; the records and functions of [Indexing] stand for them. *)

(** [array_split.ARRAY_BOUNDS] against any other tile-bounds policy. *)
Inductive BoundsPolicy : Type := ARRAY_BOUNDS | NO_BOUNDS.

(** [DecompExtent]: a tile of a cartesian decomposition. *)
Record DecompExtent : Type := mkDecompExtent {
  halo_extent : HaloIndexingExtent;
  _cart_rank : Z;
  _cart_coord : list Z;
  _cart_shape : list Z;
  _array_shape : list Z
}.

Definition dbeg (x : DecompExtent) : list Z := _beg (extent (halo_extent x)).
Definition dend (x : DecompExtent) : list Z := _end (extent (halo_extent x)).
Definition dhalo (x : DecompExtent) : halo_matrix := _halo (halo_extent x).

(** [DecompExtent.__init__]: with [ARRAY_BOUNDS] the halo is cut down to the
    distance to the array bounds. *)
Definition DecompExtent_init (cart_rank : Z) (cart_coord cart_shape
    array_shape : list Z) (slice : list (Z * Z)) (halo : HaloSpec)
    (bounds_policy : BoundsPolicy) : result DecompExtent :=
  cc ← np_array_int64 cart_coord;
  cs ← np_array_int64 cart_shape;
  ash ← np_array_int64 array_shape;
  e ← IndexingExtent_init (Some slice) None None;
  h ← convert_halo_to_array_form halo (length cc);
  h ← match bounds_policy with
      | ARRAY_BOUNDS =>
          lo ← np_minimum (_beg e) (halo_col h LO);
          room ← np_sub ash (_end e);
          hi ← np_minimum room (halo_col h HI);
          halo_of_cols lo hi
      | NO_BOUNDS => mret h
      end;
  mret (mkDecompExtent (mkHaloIndexingExtent e h) cart_rank cc cs ash).

(** [DecompExtent.halo_slab_extent(axis, dir)] *)
Definition halo_slab_extent (self : DecompExtent) (axis : nat) (dir : Side)
    : result IndexingExtent :=
  start ← start_h (halo_extent self);
  stop ← stop_h (halo_extent self);
  match dir with
  | LO =>
      s ← getitem start axis;
      h ← halo_at (dhalo self) axis LO;
      stop ← setitem stop axis (wrap64 (s + h));
      mret (mkIndexingExtent start stop)
  | HI =>
      s ← getitem stop axis;
      h ← halo_at (dhalo self) axis HI;
      start ← setitem start axis (wrap64 (s - h));
      mret (mkIndexingExtent start stop)
  end.

(** [DecompExtent.no_halo_extent(axis)]: the halo is trimmed on [axis] only;
    [axis=None] trims nothing. *)
Definition no_halo_extent (self : DecompExtent) (axis : option nat)
    : result IndexingExtent :=
  start ← start_h (halo_extent self);
  stop ← stop_h (halo_extent self);
  match axis with
  | Some a =>
      s ← getitem start a;
      hl ← halo_at (dhalo self) a LO;
      start ← setitem start a (wrap64 (s + hl));
      t ← getitem stop a;
      hh ← halo_at (dhalo self) a HI;
      stop ← setitem stop a (wrap64 (t - hh));
      mret (mkIndexingExtent start stop)
  | None => mret (mkIndexingExtent start stop)
  end.

(** [SingleExtentUpdate] *)
Record SingleExtentUpdate : Type := mkSingleExtentUpdate {
  _dst_extent : DecompExtent;
  _src_extent : DecompExtent;
  _update_extent : IndexingExtent
}.

(** [HalosUpdate.calc_halo_intersection] *)
Definition calc_halo_intersection (dst_extent src_extent : DecompExtent)
    (axis : nat) (dir : Side) : result (option IndexingExtent) :=
  slab ← halo_slab_extent dst_extent axis dir;
  src ← no_halo_extent src_extent (Some axis);
  calc_intersection slab src.

(** [HalosUpdate.split_extent_for_max_elements] *)
Definition split_extent_for_max_elements (x : SingleExtentUpdate)
    : list SingleExtentUpdate := [x].

(** The list objects behind [self._updates].  [outer] is the list
    [self._updates] itself: one reference per axis to a row object; a row
    object holds two references, one per side, to bucket objects.  A
    reference is the position of the object in [rows] resp. [buckets]. *)
Record Updates : Type := mkUpdates {
  outer : list nat;
  rows : list (list nat);
  buckets : list (list SingleExtentUpdate)
}.

(** [[[[], []]] * ndim]: list repetition copies the reference to the one row
    object [[[], []]], it does not copy the row. *)
Definition new_updates (ndim : nat) : Updates :=
  mkUpdates (replicate ndim 0%nat) [[0%nat; 1%nat]] [[]; []].

(** [self._updates[a][dir]] *)
Definition updates_get (u : Updates) (a : nat) (dir : Side)
    : result (list SingleExtentUpdate) :=
  r ← getitem (outer u) a;
  row ← getitem (rows u) r;
  b ← getitem row (side_index dir);
  getitem (buckets u) b.

(** [self._updates[a][dir] += xs]: the bucket object is extended in place
    and its reference is stored back into the row. *)
Definition updates_iadd (u : Updates) (a : nat) (dir : Side)
    (xs : list SingleExtentUpdate) : result Updates :=
  r ← getitem (outer u) a;
  row ← getitem (rows u) r;
  b ← getitem row (side_index dir);
  old ← getitem (buckets u) b;
  let buckets' := <[b := old ++ xs]> (buckets u) in
  row' ← setitem row (side_index dir) b;
  mret (mkUpdates (outer u) (<[r := row']> (rows u)) buckets').

(** [rank_to_extents_dict[r]] on a dict held in insertion order (its keys
    are distinct). *)
Fixpoint dict_get (d : list (Z * DecompExtent)) (r : Z) : result DecompExtent :=
  match d with
  | [] => Raise KeyError
  | (k, v) :: d' => if decide (k = r) then Ok v else dict_get d' r
  end.

(** The comprehension [{tuple(d[r].cart_coord): d[r] for r in d.keys()}]:
    a later rank with the same coordinate replaces an earlier one. *)
Definition cart_coord_to_extents (d : list (Z * DecompExtent))
    : gmap (list Z) DecompExtent :=
  foldl (fun m kv => <[_cart_coord (snd kv) := snd kv]> m) ∅ d.

(** The [i_range] of [initialise] for one axis and side. *)
Definition i_range (dst : DecompExtent) (a : nat) (dir : Side)
    : result (list Z) :=
  match dir with
  | LO =>
      c ← getitem (_cart_coord dst) a;
      mret (py_range (-1) (wrap64 (wrap64 (- c) - 1)) (-1))
  | HI =>
      n ← getitem (_cart_shape dst) a;
      c ← getitem (_cart_coord dst) a;
      mret (py_range 1 (wrap64 (n - c)) 1)
  end.

(** The body of [for i in i_range] in [initialise]. *)
Definition walk_body (dst : DecompExtent) (cd : gmap (list Z) DecompExtent)
    (a : nat) (dir : Side) (i : Z) (u : Updates) : result (flow Updates) :=
  c ← getitem (_cart_coord dst) a;
  src_cart_coord ← setitem (_cart_coord dst) a (wrap64 (c + i));
  src_extent ← match cd !! src_cart_coord with
               | Some s => Ok s
               | None => Raise KeyError
               end;
  halo_extent ← calc_halo_intersection dst src_extent a dir;
  match halo_extent with
  | Some h =>
      u' ← updates_iadd u a dir
             (split_extent_for_max_elements
                (mkSingleExtentUpdate dst src_extent h));
      mret (Continue u')
  | None => mret (Break u)
  end.

(** The body of [for a in range(ndim)] in [initialise]. *)
Definition axis_body (dst : DecompExtent) (cd : gmap (list Z) DecompExtent)
    (dir : Side) (a : nat) (u : Updates) : result Updates :=
  steps ← i_range dst a dir;
  for_each_break (walk_body dst cd a dir) steps u.

(** [HalosUpdate] *)
Record HalosUpdate : Type := mkHalosUpdate {
  _dst_rank : Z;
  _dst : DecompExtent;
  _updates : Updates
}.

(** [HalosUpdate.initialise(dst_rank, rank_to_extents_dict)] *)
Definition initialise (dst_rank : Z) (rank_to_extents_dict : list (Z * DecompExtent))
    : result HalosUpdate :=
  dst ← dict_get rank_to_extents_dict dst_rank;
  let n := ndim (extent (halo_extent dst)) in
  let u := new_updates n in
  let cd := cart_coord_to_extents rank_to_extents_dict in
  u ← for_each
        (fun dir u => for_each (axis_body dst cd dir) (seq 0 n) u)
        [LO; HI] u;
  mret (mkHalosUpdate dst_rank dst u).

(** *** Specification vocabulary for the planner *)

(** The update records appended while walking [steps] along axis [a] on side
    [dir]: the walk stops at the first neighbour without overlap. *)
Fixpoint walk_records (dst : DecompExtent) (cd : gmap (list Z) DecompExtent)
    (a : nat) (dir : Side) (steps : list Z) : result (list SingleExtentUpdate) :=
  match steps with
  | [] => Ok []
  | i :: steps' =>
      c ← getitem (_cart_coord dst) a;
      src_cart_coord ← setitem (_cart_coord dst) a (wrap64 (c + i));
      src_extent ← match cd !! src_cart_coord with
                   | Some s => Ok s
                   | None => Raise KeyError
                   end;
      halo_extent ← calc_halo_intersection dst src_extent a dir;
      match halo_extent with
      | Some h =>
          rest ← walk_records dst cd a dir steps';
          mret (mkSingleExtentUpdate dst src_extent h :: rest)
      | None => mret []
      end
  end.

(** The records of one axis and side. *)
Definition axis_records (dst : DecompExtent) (cd : gmap (list Z) DecompExtent)
    (dir : Side) (a : nat) : result (list SingleExtentUpdate) :=
  steps ← i_range dst a dir;
  walk_records dst cd a dir steps.

(** The neighbour of [dst] at offset [i] along axis [a]. *)
Definition neighbour (dst : DecompExtent) (cd : gmap (list Z) DecompExtent)
    (a : nat) (i : Z) : option DecompExtent :=
  match _cart_coord dst !! a with
  | Some c => cd !! (<[a := wrap64 (c + i)]> (_cart_coord dst))
  | None => None
  end.

(** Offsets on side [dir]: negative on [LO], positive on [HI]. *)
Definition side_sign (dir : Side) : Z :=
  match dir with LO => -1 | HI => 1 end.

(** The bounds of a tile have one length, its halo has one row per axis,
    and its bounds are int64 values. *)
Definition tile_ok (x : DecompExtent) : Prop :=
  length (dend x) = length (dbeg x) /\
  length (dhalo x) = length (dbeg x) /\
  forallb in_int64 (dbeg x) = true /\
  forallb in_int64 (dend x) = true.

(** [start_h[i]] and [stop_h[i]] of a tile. *)
Definition start_h_at (x : DecompExtent) (i : nat) : Z :=
  wrap64 (dbeg x !!! i - fst (dhalo x !!! i)).

Definition stop_h_at (x : DecompExtent) (i : nat) : Z :=
  wrap64 (dend x !!! i + snd (dhalo x !!! i)).

(** On axis [a] the interior of a tile lies inside its with-halo box. *)
Definition halo_around (x : DecompExtent) (a : nat) : Prop :=
  start_h_at x a <= dbeg x !!! a /\ dbeg x !!! a <= dend x !!! a /\
  dend x !!! a <= stop_h_at x a.

(** The store [[[[], []]] * ndim] after its two buckets received [lo] and
    [hi]. *)
Definition shared_updates (ndim : nat) (lo hi : list SingleExtentUpdate)
    : Updates :=
  mkUpdates (replicate ndim 0%nat) [[0%nat; 1%nat]] [lo; hi].

(** The records of side [dir] over the axes [axes], in the order the loop
    [for a in range(ndim)] produces them. *)
Fixpoint side_records (dst : DecompExtent) (cd : gmap (list Z) DecompExtent)
    (dir : Side) (axes : list nat) : result (list SingleExtentUpdate) :=
  match axes with
  | [] => Ok []
  | a :: axes' =>
      rs ← axis_records dst cd dir a;
      rest ← side_records dst cd dir axes';
      mret (rs ++ rest)
  end.

(** The tile at coordinate [x] on the line through [dst] parallel to axis
    [a]. *)
Definition tile_at (dst : DecompExtent) (cd : gmap (list Z) DecompExtent)
    (a : nat) (x : Z) : option DecompExtent :=
  cd !! (<[a := x]> (_cart_coord dst)).

(** The coordinate of [dst] on axis [a] and the grid shape there are int64
    values, and the shape is not negative. *)
Definition grid_axis_ok (dst : DecompExtent) (a : nat) : Prop :=
  exists c n : Z,
    _cart_coord dst !! a = Some c /\ _cart_shape dst !! a = Some n /\
    - 2 ^ 63 <= c < 2 ^ 63 /\ 0 <= n < 2 ^ 63.

(** Block geometry along the line through [dst] parallel to axis [a]: the
    interiors of the tiles are ordered along [a] as their coordinates are. *)
Definition line_ordered (dst : DecompExtent) (cd : gmap (list Z) DecompExtent)
    (a : nat) : Prop :=
  forall (x y : Z) (sx sy : DecompExtent),
    x < y -> tile_at dst cd a x = Some sx -> tile_at dst cd a y = Some sy ->
    dend sx !!! a <= dbeg sy !!! a.

(** Block geometry along the line through [dst] parallel to axis [a]: on
    every other axis the tiles have the with-halo bounds of [dst]. *)
Definition line_aligned (dst : DecompExtent) (cd : gmap (list Z) DecompExtent)
    (a : nat) : Prop :=
  forall (x : Z) (sx : DecompExtent) (ax : nat),
    tile_at dst cd a x = Some sx -> ax <> a ->
    (ax < length (dbeg dst))%nat ->
    start_h_at sx ax = start_h_at dst ax /\ stop_h_at sx ax = stop_h_at dst ax.

(** The walk of [walk_records] without the [break]: every neighbour is
    examined and each one with an overlap contributes its record. *)
Fixpoint all_records (dst : DecompExtent) (cd : gmap (list Z) DecompExtent)
    (a : nat) (dir : Side) (steps : list Z) : result (list SingleExtentUpdate) :=
  match steps with
  | [] => Ok []
  | i :: steps' =>
      c ← getitem (_cart_coord dst) a;
      src_cart_coord ← setitem (_cart_coord dst) a (wrap64 (c + i));
      src_extent ← match cd !! src_cart_coord with
                   | Some s => Ok s
                   | None => Raise KeyError
                   end;
      halo_extent ← calc_halo_intersection dst src_extent a dir;
      rest ← all_records dst cd a dir steps';
      match halo_extent with
      | Some h => mret (mkSingleExtentUpdate dst src_extent h :: rest)
      | None => mret rest
      end
  end.

(** On side [dir] of [dst] the offset [y] is farther away than [x]. *)
Definition farther (dir : Side) (x y : Z) : Prop :=
  match dir with
  | LO => y < x /\ x < 0
  | HI => 0 < x /\ x < y
  end.

(** Modelled from the spec: [ShapeSplitter.calculate_split] of the external
    [array_split] package, along one axis.  An axis of [n] elements cut into
    [d] balanced pieces: the sizes differ by at most one and the larger
    pieces come first; this gives the bounds of piece [k]. *)
Definition block_bounds (n d k : Z) : Z * Z :=
  (k * (n `div` d) + Z.min k (n `mod` d),
   (k + 1) * (n `div` d) + Z.min (k + 1) (n `mod` d)).

End Decomposition.

(** ** [mpi_array/distribution.py] *)

Module Distribution.

Import Indexing.

(** [GlobaleExtent] adds nothing to [HaloIndexingExtent]. *)
Definition GlobaleExtent : Type := HaloIndexingExtent.

(** [numpy.maximum(numpy.array((0,)), m)] on an [(ndim, 2)] matrix. *)
Definition clamp_at_zero (m : halo_matrix) : halo_matrix :=
  (fun row : Z * Z => (Z.max 0 (fst row), Z.max 0 (snd row))) <$> m.

(** [HaloSubExtent.__init__]: the requested halo is truncated so that the
    extent does not stray outside the halo region of [globale_extent]. *)
Definition HaloSubExtent_init (globale_extent : GlobaleExtent)
    (slice : option (list (Z * Z))) (halo : HaloSpec)
    (start stop : option (list Z)) : result HaloIndexingExtent :=
  self ← HaloIndexingExtent_init slice start stop None;
  h ← convert_halo_to_array_form halo (ndim (extent self));
  g_start_h ← start_h globale_extent;
  room_lo ← np_sub (start_n self) g_start_h;
  lo ← np_minimum room_lo (halo_col h LO);
  g_stop_h ← stop_h globale_extent;
  room_hi ← np_sub g_stop_h (stop_n self);
  hi ← np_minimum room_hi (halo_col h HI);
  m ← halo_of_cols lo hi;
  mret (mkHaloIndexingExtent (extent self) (clamp_at_zero m)).

(** [LocaleExtent]: a halo sub-extent with its two ranks. *)
Record LocaleExtent : Type := mkLocaleExtent {
  sub_extent : HaloIndexingExtent;
  _rank : Z;
  _inter_locale_rank : Z
}.

(** [LocaleExtent.__init__] *)
Definition LocaleExtent_init (rank inter_locale_rank : Z)
    (globale_extent : GlobaleExtent) (slice : option (list (Z * Z)))
    (halo : HaloSpec) (start stop : option (list Z)) : result LocaleExtent :=
  s ← HaloSubExtent_init globale_extent slice halo start stop;
  mret (mkLocaleExtent s rank inter_locale_rank).

(** [LocaleExtent.__eq__]: [HaloSubExtent.__eq__] is the inherited
    [IndexingExtent.__eq__]. *)
Definition LocaleExtent_eq (self other : LocaleExtent) : result bool :=
  b ← IndexingExtent_eq (extent (sub_extent self)) (extent (sub_extent other));
  if (b : bool) then
    if bool_decide (_rank self = _rank other) then
      mret (bool_decide (_inter_locale_rank self = _inter_locale_rank other))
    else mret false
  else mret false.

(** [CartLocaleExtent] *)
Record CartLocaleExtent : Type := mkCartLocaleExtent {
  locale : LocaleExtent;
  _cart_coord : list Z;
  _cart_shape : list Z
}.

(** [CartLocaleExtent.__init__] *)
Definition CartLocaleExtent_init (rank inter_locale_rank : Z)
    (cart_coord cart_shape : list Z) (globale_extent : GlobaleExtent)
    (slice : option (list (Z * Z))) (halo : HaloSpec)
    (start stop : option (list Z)) : result CartLocaleExtent :=
  l ← LocaleExtent_init rank inter_locale_rank globale_extent slice halo
        start stop;
  cc ← np_array_int64 cart_coord;
  cs ← np_array_int64 cart_shape;
  mret (mkCartLocaleExtent l cc cs).

(** The classes that can be given as [locale_extent_type]. *)
Inductive ExtentType : Type :=
| GlobaleExtentT
| LocaleExtentT
| CartLocaleExtentT.

(** What [create_locale_extent] returns. *)
Inductive CreatedExtent : Type :=
| IsLocale (l : LocaleExtent)
| IsCart (c : CartLocaleExtent).

Definition created_locale (x : CreatedExtent) : LocaleExtent :=
  match x with IsLocale l => l | IsCart c => locale c end.

(** The shapes of a [locale_extent] argument that [create_locale_extent]
    tells apart: an object with [start] and [stop], a sequence of slices,
    anything else. *)
Inductive LocaleArg : Type :=
| ArgStartStop (start stop : list Z)
| ArgSlices (sl : list (Z * Z))
| ArgOther.

(** The shapes of a [globale_extent] argument that [create_globale_extent]
    tells apart. *)
Inductive GlobaleArg : Type :=
| GArgGlobale (g : GlobaleExtent)
| GArgSlices (sl : list (Z * Z))
| GArgShape (shape : list Z)
| GArgStartStop (start stop : list Z)
| GArgOther.

(** The class of the distribution decides which [create_locale_extent]
    runs: [BlockPartition] overrides it to pass [cart_coord] and
    [cart_shape]. *)
Inductive DistributionClass : Type :=
| PlainDistribution
| BlockPartitionClass (cart_rank_to_cart_coord_map : list (nat * list Z))
    (dims : list Z).

(** [Distribution]: the attributes [get_rank] and [create_locale_extent]
    read, then those [__init__] sets last. *)
Record DistributionConfig : Type := mkDistributionConfig {
  _class : DistributionClass;
  _locale_extent_type : ExtentType;
  _inter_locale_rank_to_rank : option (list Z)
}.

Record Distribution : Type := mkDistribution {
  config : DistributionConfig;
  _globale_extent : GlobaleExtent;
  _halo : halo_matrix;
  _locale_extents : list CreatedExtent
}.

Section WithMpi.

(** [mpi4py.MPI.UNDEFINED], a constant of the MPI implementation. *)
Variable UNDEFINED : Z.

(** [Distribution.get_rank] *)
Definition get_rank (self : DistributionConfig) (inter_locale_rank : nat)
    : result Z :=
  match _inter_locale_rank_to_rank self with
  | Some m => getitem m inter_locale_rank
  | None => mret UNDEFINED
  end.

(** The call [self._locale_extent_type(rank=..., inter_locale_rank=...,
    globale_extent=..., ..., **kwargs)]: a constructor given a keyword it
    does not have, or not given one it requires, raises [TypeError]. *)
Definition construct (ty : ExtentType) (rank inter_locale_rank : Z)
    (globale_extent : GlobaleExtent) (slice : option (list (Z * Z)))
    (halo : HaloSpec) (start stop : option (list Z))
    (kwargs : option (list Z * list Z)) : result CreatedExtent :=
  match ty, kwargs with
  | GlobaleExtentT, _ => Raise TypeError
  | LocaleExtentT, None =>
      l ← LocaleExtent_init rank inter_locale_rank globale_extent slice halo
            start stop;
      mret (IsLocale l)
  | LocaleExtentT, Some _ => Raise TypeError
  | CartLocaleExtentT, Some (cart_coord, cart_shape) =>
      c ← CartLocaleExtent_init rank inter_locale_rank cart_coord cart_shape
            globale_extent slice halo start stop;
      mret (IsCart c)
  | CartLocaleExtentT, None => Raise TypeError
  end.

(** [Distribution.create_locale_extent] *)
Definition Distribution_create_locale_extent (self : DistributionConfig)
    (inter_locale_rank : nat) (locale_extent : LocaleArg)
    (globale_extent : GlobaleExtent) (halo : HaloSpec)
    (kwargs : option (list Z * list Z)) : result CreatedExtent :=
  rank ← get_rank self inter_locale_rank;
  match locale_extent with
  | ArgStartStop start stop =>
      construct (_locale_extent_type self) rank (Z.of_nat inter_locale_rank)
        globale_extent None halo (Some start) (Some stop) kwargs
  | ArgSlices sl =>
      construct (_locale_extent_type self) rank (Z.of_nat inter_locale_rank)
        globale_extent (Some sl) halo None None kwargs
  | ArgOther => Raise ValueError
  end.

(** [d[k]] on the [cart_rank -> cart_coord] dict. *)
Fixpoint coord_of_rank (d : list (nat * list Z)) (k : nat) : result (list Z) :=
  match d with
  | [] => Raise KeyError
  | (k', v) :: d' => if decide (k' = k) then Ok v else coord_of_rank d' k
  end.

(** [self.create_locale_extent], dispatched on the class. *)
Definition create_locale_extent (self : DistributionConfig)
    (inter_locale_rank : nat) (locale_extent : LocaleArg)
    (globale_extent : GlobaleExtent) (halo : HaloSpec) : result CreatedExtent :=
  match _class self with
  | PlainDistribution =>
      Distribution_create_locale_extent self inter_locale_rank locale_extent
        globale_extent halo None
  | BlockPartitionClass m dims =>
      cart_coord ← coord_of_rank m inter_locale_rank;
      Distribution_create_locale_extent self inter_locale_rank locale_extent
        globale_extent halo (Some (cart_coord, dims))
  end.

(** [Distribution.create_globale_extent]: the globale halo is always zero.
    For a shape, [stop = numpy.array(globale_extent)] takes its element type
    from the values, and the constructor casts the arrays [stop] and
    [zeros_like(stop)] to int64: the cast is [ndarray_int64], after which
    the conversion inside the constructor changes nothing.  The last branch
    formats its message from [self._globale_extent], which [__init__] has
    not set yet. *)
Definition create_globale_extent (globale_extent : GlobaleArg)
    : result GlobaleExtent :=
  match globale_extent with
  | GArgGlobale g => set_halo g (HaloInt 0)
  | GArgSlices sl => HaloIndexingExtent_init (Some sl) None None (Some (HaloInt 0))
  | GArgShape shape =>
      stop ← ndarray_int64 (np_array shape);
      HaloIndexingExtent_init None (Some ((fun _ : Z => 0) <$> (stop : list Z)))
        (Some stop)
        (Some (HaloInt 0))
  | GArgStartStop start stop =>
      HaloIndexingExtent_init None (Some start) (Some stop) (Some (HaloInt 0))
  | GArgOther => Raise AttributeError
  end.

(** The loop [for i in range(len(locale_extents))] of [__init__]. *)
Fixpoint create_all (self : DistributionConfig) (i : nat)
    (locale_extents : list LocaleArg) (globale_extent : GlobaleExtent)
    (halo : HaloSpec) : result (list CreatedExtent) :=
  match locale_extents with
  | [] => Ok []
  | x :: rest =>
      e ← create_locale_extent self i x globale_extent halo;
      es ← create_all self (S i) rest globale_extent halo;
      mret (e :: es)
  end.

(** [Distribution.__init__] *)
Definition Distribution_init (cls : DistributionClass)
    (globale_extent : GlobaleArg) (locale_extents : list LocaleArg)
    (halo : HaloSpec) (locale_extent_type : ExtentType)
    (inter_locale_rank_to_rank : option (list Z)) : result Distribution :=
  let self := mkDistributionConfig cls locale_extent_type
                inter_locale_rank_to_rank in
  g ← create_globale_extent globale_extent;
  h ← convert_halo_to_array_form halo (ndim (extent g));
  es ← create_all self 0 locale_extents g halo;
  mret (mkDistribution self g h es).

End WithMpi.

End Distribution.

(** A loop that builds a list with one element per iteration, or a list
    comprehension, whose element computation may raise. *)
Fixpoint collect {X A : Type} (f : X -> result A) (xs : list X)
    : result (list A) :=
  match xs with
  | [] => Ok []
  | x :: xs' => y ← f x; ys ← collect f xs'; mret (y :: ys)
  end.

(** The unary minus of an int64 array. *)
Definition np_negative (xs : list Z) : list Z :=
  (fun x : Z => wrap64 (- x)) <$> xs.

(** [numpy.product] of an int64 array. *)
Definition np_product (xs : list Z) : Z :=
  foldl (fun acc x : Z => wrap64 (acc * x)) 1 xs.

(** ** [mpi_array/indexing.py]: shapes, slices and index frames *)

Module Frames.

Import Indexing.

(** [IndexingExtent.shape] *)
Definition shape (self : IndexingExtent) : result (list Z) :=
  np_sub (_end self) (_beg self).

(** [IndexingExtent.to_slice]: one [slice(beg[i], end[i])] per axis of
    [_beg]. *)
Definition to_slice (self : IndexingExtent) : result (list (Z * Z)) :=
  collect (fun i : nat =>
             b ← getitem (_beg self) i;
             e ← getitem (_end self) i;
             mret (b, e))
          (seq 0 (length (_beg self))).

(** [HaloIndexingExtent.shape_n] *)
Definition shape_n (self : HaloIndexingExtent) : result (list Z) :=
  np_sub (_end (extent self)) (_beg (extent self)).

(** [HaloIndexingExtent.shape_h]:
    [_end + _halo[:, HI] - _beg + _halo[:, LO]], evaluated left to right. *)
Definition shape_h (self : HaloIndexingExtent) : result (list Z) :=
  t ← np_add (_end (extent self)) (halo_col (_halo self) HI);
  u ← np_sub t (_beg (extent self));
  np_add u (halo_col (_halo self) LO).

(** [HaloIndexingExtent.size_n] and [size_h] *)
Definition size_n (self : HaloIndexingExtent) : result Z :=
  s ← shape_n self; mret (np_product s).

Definition size_h (self : HaloIndexingExtent) : result Z :=
  s ← shape_h self; mret (np_product s).

(** [HaloIndexingExtent.to_slice_n] *)
Definition to_slice_n (self : HaloIndexingExtent) : result (list (Z * Z)) :=
  to_slice (extent self).

(** [HaloIndexingExtent.to_slice_h] *)
Definition to_slice_h (self : HaloIndexingExtent) : result (list (Z * Z)) :=
  collect (fun i : nat =>
             b ← getitem (_beg (extent self)) i;
             hl ← halo_at (_halo self) i LO;
             e ← getitem (_end (extent self)) i;
             hh ← halo_at (_halo self) i HI;
             mret (wrap64 (b - hl), wrap64 (e + hh)))
          (seq 0 (length (_beg (extent self)))).

(** [HaloIndexingExtent.globale_to_locale_h]: [-self.start_h + gidx].  The
    index is an int64 vector. *)
Definition globale_to_locale_h (self : HaloIndexingExtent) (gidx : list Z)
    : result (list Z) :=
  s ← start_h self; np_add (np_negative s) gidx.

(** [HaloIndexingExtent.locale_to_globale_h]: [self.start_h + lidx] *)
Definition locale_to_globale_h (self : HaloIndexingExtent) (lidx : list Z)
    : result (list Z) :=
  s ← start_h self; np_add s lidx.

(** [HaloIndexingExtent.globale_to_locale_n]: [-self.start_n + gidx] *)
Definition globale_to_locale_n (self : HaloIndexingExtent) (gidx : list Z)
    : result (list Z) :=
  np_add (np_negative (start_n self)) gidx.

(** [HaloIndexingExtent.locale_to_globale_n]: [self.start_n + lidx] *)
Definition locale_to_globale_n (self : HaloIndexingExtent) (lidx : list Z)
    : result (list Z) :=
  np_add (start_n self) lidx.

(** [HaloIndexingExtent.globale_to_locale_extent_h] on a
    [HaloIndexingExtent] argument: the copy keeps the halo of [gext] and
    receives the converted bounds through the [start_n] and [stop_n]
    setters. *)
Definition globale_to_locale_extent_h (self gext : HaloIndexingExtent)
    : result HaloIndexingExtent :=
  b ← globale_to_locale_h self (start_n gext);
  b ← np_array_int64 b;
  e ← globale_to_locale_h self (stop_n gext);
  e ← np_array_int64 e;
  mret (mkHaloIndexingExtent (mkIndexingExtent b e) (_halo gext)).

(** [HaloIndexingExtent.globale_to_locale_slice_h]; a slice is a pair
    [(start, stop)] of int64 values. *)
Definition globale_to_locale_slice_h (self : HaloIndexingExtent)
    (gslice : list (Z * Z)) : result (list (Z * Z)) :=
  collect (fun i : nat =>
             s ← getitem gslice i;
             b ← getitem (_beg (extent self)) i;
             h ← halo_at (_halo self) i LO;
             mret (wrap64 (wrap64 (fst s - b) + h),
                   wrap64 (wrap64 (snd s - b) + h)))
          (seq 0 (length gslice)).

(** [HaloIndexingExtent.locale_to_globale_slice_h] *)
Definition locale_to_globale_slice_h (self : HaloIndexingExtent)
    (lslice : list (Z * Z)) : result (list (Z * Z)) :=
  collect (fun i : nat =>
             s ← getitem lslice i;
             b ← getitem (_beg (extent self)) i;
             h ← halo_at (_halo self) i LO;
             mret (wrap64 (wrap64 (fst s + b) - h),
                   wrap64 (wrap64 (snd s + b) - h)))
          (seq 0 (length lslice)).

(** [HaloIndexingExtent.globale_to_locale_slice_n] *)
Definition globale_to_locale_slice_n (self : HaloIndexingExtent)
    (gslice : list (Z * Z)) : result (list (Z * Z)) :=
  collect (fun i : nat =>
             s ← getitem gslice i;
             b ← getitem (_beg (extent self)) i;
             mret (wrap64 (fst s - b), wrap64 (snd s - b)))
          (seq 0 (length gslice)).

(** [HaloIndexingExtent.locale_to_globale_slice_n] *)
Definition locale_to_globale_slice_n (self : HaloIndexingExtent)
    (lslice : list (Z * Z)) : result (list (Z * Z)) :=
  collect (fun i : nat =>
             s ← getitem lslice i;
             b ← getitem (_beg (extent self)) i;
             mret (wrap64 (fst s + b), wrap64 (snd s + b)))
          (seq 0 (length lslice)).

(** *** Specification vocabulary *)

(** The bounds and the halo of an extent have one length and hold int64
    values. *)
Definition halo_extent_ok (x : HaloIndexingExtent) : Prop :=
  length (_end (extent x)) = length (_beg (extent x)) /\
  length (_halo x) = length (_beg (extent x)) /\
  forallb in_int64 (_beg (extent x)) = true /\
  forallb in_int64 (_end (extent x)) = true /\
  forallb in_int64 (halo_col (_halo x) LO) = true /\
  forallb in_int64 (halo_col (_halo x) HI) = true.

(** Every bound of every slice is an int64 value. *)
Definition slices_int64 (sl : list (Z * Z)) : bool :=
  forallb (fun s : Z * Z => in_int64 (fst s) && in_int64 (snd s)) sl.

End Frames.

(** ** [mpi_array/indexing.py]: the module-level [calc_intersection_split] *)

Module ExtentSplit.

Import Indexing.

(** The body of [for ie_leftover in ie_leftovers]: a deep copy of
    [dst_extent] that receives the bounds of the leftover through the
    [start_n] and [stop_n] setters and then the halo through the [halo]
    setter. *)
Definition leftover_extent (dst_extent : HaloIndexingExtent) (halo : HaloSpec)
    (ie_leftover : IndexingExtent) : result HaloIndexingExtent :=
  b ← np_array_int64 (_beg ie_leftover);
  e ← np_array_int64 (_end ie_leftover);
  set_halo (mkHaloIndexingExtent (mkIndexingExtent b e) (_halo dst_extent))
    halo.

(** [calc_intersection_split(dst_extent, src_extent, update_factory,
    update_dst_halo)]: the [(leftovers, updates)] pair.  [update_factory] is
    the caller's function; it returns the list of update elements. *)
Definition calc_intersection_split {U : Type}
    (dst_extent src_extent : HaloIndexingExtent)
    (update_factory : HaloIndexingExtent -> HaloIndexingExtent ->
                      IndexingExtent -> result (list U))
    (update_dst_halo : bool)
    : result (list HaloIndexingExtent * list U) :=
  '(dst_ie, halo) ←
    (if update_dst_halo then
       s ← start_h dst_extent;
       t ← stop_h dst_extent;
       ie ← IndexingExtent_init None (Some s) (Some t);
       mret (ie, HaloInt 0)
     else
       ie ← IndexingExtent_init None (Some (start_n dst_extent))
              (Some (stop_n dst_extent));
       mret (ie, HaloMat (_halo dst_extent)));
  src_ie ← IndexingExtent_init None (Some (start_n src_extent))
             (Some (stop_n src_extent));
  '(ie_leftovers, intersection) ← Indexing.calc_intersection_split dst_ie src_ie;
  leftovers ← collect (leftover_extent dst_extent halo) ie_leftovers;
  match intersection with
  | Some i =>
      us ← update_factory dst_extent src_extent i;
      mret (leftovers, us)
  | None => mret ([dst_extent], [])
  end.

(** The box that [calc_intersection_split] cuts: the with-halo box of
    [dst_extent] when [update_dst_halo] holds, its interior otherwise. *)
Definition dst_box (dst_extent : HaloIndexingExtent) (update_dst_halo : bool)
    : result IndexingExtent :=
  if update_dst_halo then
    s ← start_h dst_extent;
    t ← stop_h dst_extent;
    mret (mkIndexingExtent s t)
  else mret (extent dst_extent).

End ExtentSplit.

(** ** [mpi_array/distribution.py]: slabs, equality and the partitions *)

Module Partitions.

Import Indexing Distribution.

(** [LocaleExtent.halo_slab_extent(axis, dir)] *)
Definition halo_slab_extent (self : LocaleExtent) (axis : nat) (dir : Side)
    : result IndexingExtent :=
  start ← start_h (sub_extent self);
  stop ← stop_h (sub_extent self);
  match dir with
  | LO =>
      s ← getitem start axis;
      h ← halo_at (Indexing._halo (sub_extent self)) axis LO;
      stop ← setitem stop axis (wrap64 (s + h));
      mret (mkIndexingExtent start stop)
  | HI =>
      s ← getitem stop axis;
      h ← halo_at (Indexing._halo (sub_extent self)) axis HI;
      start ← setitem start axis (wrap64 (s - h));
      mret (mkIndexingExtent start stop)
  end.

(** [LocaleExtent.no_halo_extent(axis)] *)
Definition no_halo_extent (self : LocaleExtent) (axis : option nat)
    : result IndexingExtent :=
  start ← start_h (sub_extent self);
  stop ← stop_h (sub_extent self);
  match axis with
  | Some a =>
      s ← getitem start a;
      hl ← halo_at (Indexing._halo (sub_extent self)) a LO;
      start ← setitem start a (wrap64 (s + hl));
      t ← getitem stop a;
      hh ← halo_at (Indexing._halo (sub_extent self)) a HI;
      stop ← setitem stop a (wrap64 (t - hh));
      mret (mkIndexingExtent start stop)
  | None => mret (mkIndexingExtent start stop)
  end.

(** [CartLocaleExtent.__eq__] *)
Definition CartLocaleExtent_eq (self other : CartLocaleExtent) : result bool :=
  b ← LocaleExtent_eq (locale self) (locale other);
  if (b : bool) then
    cc ← np_eq (_cart_coord self) (_cart_coord other);
    if np_all cc then
      cs ← np_eq (_cart_shape self) (_cart_shape other); mret (np_all cs)
    else mret false
  else mret false.

(** [CartLocaleExtent.cart_rank] *)
Definition cart_rank (self : CartLocaleExtent) : Z :=
  _inter_locale_rank (locale self).

(** [Distribution.get_extent_for_rank] *)
Definition get_extent_for_rank (self : Distribution) (inter_locale_rank : nat)
    : result CreatedExtent :=
  getitem (_locale_extents self) inter_locale_rank.

(** [Distribution.num_locales] *)
Definition num_locales (self : Distribution) : nat :=
  length (_locale_extents self).

(** An extent object given as a [locale_extent] argument: it has [start]
    and [stop]. *)
Definition arg_of_extent (x : HaloIndexingExtent) : LocaleArg :=
  ArgStartStop (start_n x) (stop_n x).

(** An element of the object array [locale_extents] of [BlockPartition]:
    a tuple of slices, or [None] where nothing was assigned. *)
Definition arg_of_slot (x : option (list (Z * Z))) : LocaleArg :=
  match x with Some sl => ArgSlices sl | None => ArgOther end.

(** [d[c]] on the [cart_coord -> cart_rank] dict, held in insertion order
    (its keys are distinct).  Ranks are non-negative. *)
Fixpoint rank_of_coord (d : list (list Z * nat)) (c : list Z) : result nat :=
  match d with
  | [] => Raise KeyError
  | (k, v) :: d' => if decide (k = c) then Ok v else rank_of_coord d' c
  end.

(** The comprehension [{d[c]: c for c in d.keys()}]: a later coordinate
    with the same rank replaces an earlier one, so the entries are held
    latest first. *)
Definition cart_rank_to_cart_coord_map (d : list (list Z * nat))
    : list (nat * list Z) :=
  foldl (fun acc kv => (snd kv, fst kv) :: acc) [] d.

Section WithMpi.

(** [mpi4py.MPI.UNDEFINED], a constant of the MPI implementation. *)
Variable UNDEFINED : Z.

(** [ShapeSplitter(array_shape, array_start, axis, halo=0).calculate_split()]
    of the external [array_split] package: the array of slice tuples, its
    elements listed with their coordinates in C order. *)
Variable calculate_split :
  list Z -> list Z -> list Z -> result (list (list Z * list (Z * Z))).

(** [SingleLocaleDistribution.__init__]; [inter_locale_rank] is a
    non-negative index. *)
Definition SingleLocaleDistribution_init (globale_extent : GlobaleArg)
    (num_locales : nat) (inter_locale_rank : nat) (halo : HaloSpec)
    : result Distribution :=
  g ← create_globale_extent globale_extent;
  let sidx := start_n g in
  locale_extents ←
    collect (fun _ : nat =>
               HaloIndexingExtent_init None (Some sidx) (Some sidx) None)
            (seq 0 num_locales);
  locale_extent ← getitem locale_extents inter_locale_rank;
  b ← np_array_int64 (start_n g);
  e ← np_array_int64 (stop_n g);
  let locale_extents :=
    <[inter_locale_rank :=
        mkHaloIndexingExtent (mkIndexingExtent b e)
          (Indexing._halo locale_extent)]> locale_extents in
  Distribution_init UNDEFINED PlainDistribution (GArgGlobale g)
    (arg_of_extent <$> locale_extents) halo GlobaleExtentT None.

(** The loop [for i in range(locale_extents.size)] of
    [BlockPartition.__init__]: the slices of each coordinate are stored at
    the rank of that coordinate. *)
Definition assign_locale_extents
    (cart_coord_to_cart_rank : option (list (list Z * nat)))
    (splt : list (list Z * list (Z * Z)))
    : result (list (option (list (Z * Z)))) :=
  for_each (fun (cs : list Z * list (Z * Z)) locale_extents =>
              d ← match cart_coord_to_cart_rank with
                  | Some d => Ok d
                  | None => Raise TypeError
                  end;
              r ← rank_of_coord d (fst cs);
              setitem locale_extents r (Some (snd cs)))
           splt (replicate (length splt) None).

(** [BlockPartition.__init__] *)
Definition BlockPartition_init (globale_extent : GlobaleArg) (dims : list Z)
    (cart_coord_to_cart_rank : option (list (list Z * nat)))
    (halo : HaloSpec) (inter_locale_rank_to_rank : option (list Z))
    : result Distribution :=
  g ← create_globale_extent globale_extent;
  let num_locales := np_product dims in
  '(locale_extents, cart_coord_to_cart_rank) ←
    (if 1 <? num_locales then
       sh ← Frames.shape_n g;
       splt ← calculate_split sh (start_n g) dims;
       slots ← assign_locale_extents cart_coord_to_cart_rank splt;
       mret (arg_of_slot <$> (slots : list (option (list (Z * Z)))),
             cart_coord_to_cart_rank)
     else
       d ← match cart_coord_to_cart_rank with
           | Some d => mret d
           | None =>
               sh ← Frames.shape_n g;
               mret [((fun _ : Z => 0) <$> (sh : list Z), 0%nat)]
           end;
       mret ([arg_of_extent g], Some d));
  d ← match cart_coord_to_cart_rank with
      | Some d => Ok d
      | None => Raise AttributeError
      end;
  Distribution_init UNDEFINED
    (BlockPartitionClass (cart_rank_to_cart_coord_map d) dims)
    (GArgGlobale g) locale_extents halo CartLocaleExtentT
    inter_locale_rank_to_rank.

End WithMpi.

End Partitions.

(** ** Concrete inputs *)

Module Examples.

Import Indexing Decomposition.

(** [[0,10) x [0,10)] and [[3,7) x [2,8)]. *)
Definition box_0_10 : IndexingExtent := mkIndexingExtent [0; 0] [10; 10].
Definition box_3_7 : IndexingExtent := mkIndexingExtent [3; 2] [7; 8].

(** Two one-dimensional extents that do not meet: [[0,1)] and [[2,3)]. *)
Definition seg_0_1 : IndexingExtent := mkIndexingExtent [0] [1].
Definition seg_2_3 : IndexingExtent := mkIndexingExtent [2] [3].

(** The empty one-dimensional extent [[0,0)]. *)
Definition seg_empty : IndexingExtent := mkIndexingExtent [0] [0].

(** The globale extent [[0,12)], without halo. *)
Definition globale_12 : HaloIndexingExtent :=
  mkHaloIndexingExtent (mkIndexingExtent [0] [12]) [(0, 0)].

(** The locale extent [[3,6)] of [globale_12] with halo 2 on both sides,
    and the same box with no halo; both of rank 5 and inter-locale rank 1. *)
Definition locale_3_6_halo2 : Distribution.LocaleExtent :=
  Distribution.mkLocaleExtent
    (mkHaloIndexingExtent (mkIndexingExtent [3] [6]) [(2, 2)]) 5 1.

Definition locale_3_6_halo0 : Distribution.LocaleExtent :=
  Distribution.mkLocaleExtent
    (mkHaloIndexingExtent (mkIndexingExtent [3] [6]) [(0, 0)]) 5 1.

(** A value standing for [MPI.UNDEFINED] (MPICH uses -32766). *)
Definition mpi_undefined : Z := -32766.

(** The two halves of [[0,12)], as sequences of slices. *)
Definition halves_12 : list Distribution.LocaleArg :=
  [Distribution.ArgSlices [(0, 6)]; Distribution.ArgSlices [(6, 12)]].

(** The second locale extent of the distribution of [[0,12)] over its two
    halves with halo 2 and no rank map, and the distribution itself. *)
Definition locale_6_12 : Distribution.LocaleExtent :=
  Distribution.mkLocaleExtent
    (mkHaloIndexingExtent (mkIndexingExtent [6] [12]) [(2, 0)])
    mpi_undefined 1.

Definition distribution_12 : Distribution.Distribution :=
  Distribution.mkDistribution
    (Distribution.mkDistributionConfig Distribution.PlainDistribution
       Distribution.LocaleExtentT None)
    globale_12 [(2, 2)]
    [Distribution.IsLocale
       (Distribution.mkLocaleExtent
          (mkHaloIndexingExtent (mkIndexingExtent [0] [6]) [(0, 2)])
          mpi_undefined 0);
     Distribution.IsLocale locale_6_12].

(** The array of shape (4, 4) over a 2 x 2 grid with requested halo 1: the
    four tiles as [DecompExtent.__init__] builds them, keyed by rank. *)
Definition tile_00 : DecompExtent :=
  mkDecompExtent
    (mkHaloIndexingExtent (mkIndexingExtent [0; 0] [2; 2]) [(0, 1); (0, 1)])
    0 [0; 0] [2; 2] [4; 4].

Definition tile_01 : DecompExtent :=
  mkDecompExtent
    (mkHaloIndexingExtent (mkIndexingExtent [0; 2] [2; 4]) [(0, 1); (1, 0)])
    1 [0; 1] [2; 2] [4; 4].

Definition tile_10 : DecompExtent :=
  mkDecompExtent
    (mkHaloIndexingExtent (mkIndexingExtent [2; 0] [4; 2]) [(1, 0); (0, 1)])
    2 [1; 0] [2; 2] [4; 4].

Definition tile_11 : DecompExtent :=
  mkDecompExtent
    (mkHaloIndexingExtent (mkIndexingExtent [2; 2] [4; 4]) [(1, 0); (1, 0)])
    3 [1; 1] [2; 2] [4; 4].

Definition grid_2x2 : list (Z * DecompExtent) :=
  [(0, tile_00); (1, tile_01); (2, tile_10); (3, tile_11)].

(** The two update records of [tile_11]: from its neighbour along axis 0
    and from its neighbour along axis 1, both on the low side. *)
Definition update_11_from_01 : SingleExtentUpdate :=
  mkSingleExtentUpdate tile_11 tile_01 (mkIndexingExtent [1; 1] [2; 4]).

Definition update_11_from_10 : SingleExtentUpdate :=
  mkSingleExtentUpdate tile_11 tile_10 (mkIndexingExtent [1; 1] [4; 2]).

(** The extent of shape (2,) over 4 locales with requested halo 2: the
    balanced split gives the pieces [0,1), [1,2), [2,2), [2,2). *)
Definition piece (rank lo hi hl hh : Z) : DecompExtent :=
  mkDecompExtent
    (mkHaloIndexingExtent (mkIndexingExtent [lo] [hi]) [(hl, hh)])
    rank [rank] [4] [2].

Definition line_4 : list (Z * DecompExtent) :=
  [(0, piece 0 0 1 0 1); (1, piece 1 1 2 1 0);
   (2, piece 2 2 2 2 0); (3, piece 3 2 2 2 0)].

(** The extent of shape (6,) over 3 locales: [0,2), [2,4), [4,6), with
    requested halo 1 on both sides. *)
Definition third (rank lo hi hl hh : Z) : DecompExtent :=
  mkDecompExtent
    (mkHaloIndexingExtent (mkIndexingExtent [lo] [hi]) [(hl, hh)])
    rank [rank] [3] [6].

Definition line_3 : list (Z * DecompExtent) :=
  [(0, third 0 0 2 0 1); (1, third 1 2 4 1 1); (2, third 2 4 6 1 0)].

(** The two update records of the middle tile of [line_3]. *)
Definition update_mid_from_0 : SingleExtentUpdate :=
  mkSingleExtentUpdate (third 1 2 4 1 1) (third 0 0 2 0 1)
    (mkIndexingExtent [1] [2]).

Definition update_mid_from_2 : SingleExtentUpdate :=
  mkSingleExtentUpdate (third 1 2 4 1 1) (third 2 4 6 1 0)
    (mkIndexingExtent [4] [5]).

End Examples.

(** ** Further concrete inputs *)

Module MoreExamples.

Import Indexing.

(** The extent of the class docstring: [[10,20)] with two ghost elements
    below and four above. *)
Definition hie_10_20 : HaloIndexingExtent :=
  mkHaloIndexingExtent (mkIndexingExtent [10] [20]) [(2, 4)].

(** A two-dimensional tile [[4,8) x [0,6)] with halo. *)
Definition hie_4_8 : HaloIndexingExtent :=
  mkHaloIndexingExtent (mkIndexingExtent [4; 0] [8; 6]) [(1, 2); (0, 3)].

(** The extent [[12,18)] with one ghost element on each side, and the
    extent [[16,30)] without halo. *)
Definition hie_12_18 : HaloIndexingExtent :=
  mkHaloIndexingExtent (mkIndexingExtent [12] [18]) [(1, 1)].

Definition hie_16_30 : HaloIndexingExtent :=
  mkHaloIndexingExtent (mkIndexingExtent [16] [30]) [(0, 0)].

(** An update factory that returns the intersection it is given. *)
Definition keep_intersection (dst src : HaloIndexingExtent)
    (i : IndexingExtent) : result (list IndexingExtent) := Ok [i].

(** The extent [[0,12)] over two locales along its axis: the split that
    [array_split] computes, the coordinate-to-rank dict of the cartesian
    communicator, and the partition [BlockPartition] builds from them with
    a requested halo of 2. *)
Definition split_12 : list (list Z * list (Z * Z)) :=
  [([0], [(0, 6)]); ([1], [(6, 12)])].

Definition coord_to_rank_2 : list (list Z * nat) :=
  [([0], 0%nat); ([1], 1%nat)].

Definition partition_12 : Distribution.Distribution :=
  Distribution.mkDistribution
    (Distribution.mkDistributionConfig
       (Distribution.BlockPartitionClass [(1%nat, [1]); (0%nat, [0])] [2])
       Distribution.CartLocaleExtentT None)
    Examples.globale_12 [(2, 2)]
    [Distribution.IsCart
       (Distribution.mkCartLocaleExtent
          (Distribution.mkLocaleExtent
             (mkHaloIndexingExtent (mkIndexingExtent [0] [6]) [(0, 2)])
             Examples.mpi_undefined 0)
          [0] [2]);
     Distribution.IsCart
       (Distribution.mkCartLocaleExtent
          (Distribution.mkLocaleExtent
             (mkHaloIndexingExtent (mkIndexingExtent [6] [12]) [(2, 0)])
             Examples.mpi_undefined 1)
          [1] [2])].

End MoreExamples.

(** * Properties *)

(** ** The result monad and numpy vectors *)

Section Basics.

Context {A B C : Type}.

Lemma broadcast2_same (f : A -> B -> C) (xs : list A) (ys : list B) :
  length xs = length ys -> broadcast2 f xs ys = Ok (zip_with f xs ys).
Proof. intros H. unfold broadcast2. rewrite decide_True; auto. Qed.

Lemma getitem_lookup (l : list A) (i : nat) (x : A) :
  l !! i = Some x -> getitem l i = Ok x.
Proof. intros H. unfold getitem. rewrite H. reflexivity. Qed.

Lemma setitem_lt (l : list A) (i : nat) (x : A) :
  (i < length l)%nat -> setitem l i x = Ok (<[i:=x]> l).
Proof. intros H. unfold setitem. rewrite decide_True; auto. Qed.

End Basics.

Lemma getitem_total (l : list Z) (i : nat) :
  (i < length l)%nat -> getitem l i = Ok (l !!! i).
Proof.
  intros H. apply getitem_lookup. apply list_lookup_lookup_total_lt. exact H.
Qed.

Lemma np_any_zip_ge (b e : list Z) :
  length b = length e ->
  np_any (zip_with Z.geb b e) = true <->
  exists i, (i < length b)%nat /\ b !!! i >= e !!! i.
Proof.
  revert e. induction b as [|x b IH]; intros [|y e] Hlen; simpl in Hlen;
    try discriminate.
  - simpl. split; [discriminate|]. intros (i & Hi & _). simpl in Hi. lia.
  - injection Hlen as Hlen. unfold np_any in *. simpl.
    rewrite orb_true_iff, (IH e Hlen). unfold id. split.
    + intros [H|(i & Hi & H)].
      * exists 0%nat. split; [simpl; lia|]. simpl.
        apply Z.geb_le in H. lia.
      * exists (S i). split; [simpl; lia|]. exact H.
    + intros ([|i] & Hi & H).
      * left. apply Z.geb_le. simpl in H. lia.
      * right. exists i. split; [simpl in Hi; lia|]. exact H.
Qed.

Lemma np_any_zip_ge_false (b e : list Z) :
  length b = length e ->
  np_any (zip_with Z.geb b e) = false <->
  forall i, (i < length b)%nat -> b !!! i < e !!! i.
Proof.
  intros Hlen. rewrite <- not_true_iff_false, (np_any_zip_ge b e Hlen).
  split.
  - intros H i Hi. destruct (Z_lt_ge_dec (b !!! i) (e !!! i)) as [|Hge]; auto.
    exfalso. apply H. exists i. auto.
  - intros H (i & Hi & Hge). specialize (H i Hi). lia.
Qed.

(** ** int64 arithmetic *)

Lemma wrap64_cases (z : Z) :
  exists k, wrap64 z = z + k * 2 ^ 64 /\ - 2 ^ 63 <= wrap64 z < 2 ^ 63.
Proof.
  unfold wrap64. exists (- ((z + 2 ^ 63) `div` 2 ^ 64)).
  pose proof (Z.div_mod (z + 2 ^ 63) (2 ^ 64) ltac:(lia)).
  pose proof (Z.mod_pos_bound (z + 2 ^ 63) (2 ^ 64) ltac:(lia)).
  lia.
Qed.

Lemma wrap64_id (z : Z) : - 2 ^ 63 <= z < 2 ^ 63 -> wrap64 z = z.
Proof. intros H. destruct (wrap64_cases z) as (k & Hk & Hr). lia. Qed.

Lemma wrap64_range (z : Z) : - 2 ^ 63 <= wrap64 z < 2 ^ 63.
Proof. destruct (wrap64_cases z) as (k & _ & Hr). exact Hr. Qed.

(** Adding back what was subtracted gives the value back, overflow or not. *)
Lemma wrap64_sub_add (x h : Z) :
  - 2 ^ 63 <= x < 2 ^ 63 -> wrap64 (wrap64 (x - h) + h) = x.
Proof.
  intros Hx. destruct (wrap64_cases (x - h)) as (k & Hk & _).
  destruct (wrap64_cases (wrap64 (x - h) + h)) as (k' & Hk' & Hr). lia.
Qed.

Lemma wrap64_add_sub (x h : Z) :
  - 2 ^ 63 <= x < 2 ^ 63 -> wrap64 (wrap64 (x + h) - h) = x.
Proof.
  intros Hx. destruct (wrap64_cases (x + h)) as (k & Hk & _).
  destruct (wrap64_cases (wrap64 (x + h) - h)) as (k' & Hk' & Hr). lia.
Qed.

Lemma in_int64_range (z : Z) : in_int64 z = true <-> - 2 ^ 63 <= z < 2 ^ 63.
Proof.
  unfold in_int64, int64_min, int64_max.
  rewrite andb_true_iff, !Z.leb_le. lia.
Qed.

Lemma forallb_in_int64 (l : list Z) (i : nat) :
  forallb in_int64 l = true -> (i < length l)%nat ->
  - 2 ^ 63 <= l !!! i < 2 ^ 63.
Proof.
  intros H Hi. apply in_int64_range.
  rewrite List.forallb_forall in H. apply H.
  apply list_elem_of_In, list_elem_of_lookup_total_2. exact Hi.
Qed.

Lemma np_array_int64_Ok (l r : list Z) :
  np_array_int64 l = Ok r -> r = l /\ forallb in_int64 l = true.
Proof.
  unfold np_array_int64. destruct (forallb in_int64 l); intros H;
    inversion H; auto.
Qed.

(** The halo cut to the room on the low side keeps the start inside. *)
Lemma clamp_lo (b gs req : Z) :
  - 2 ^ 63 <= b < 2 ^ 63 -> - 2 ^ 63 <= gs < 2 ^ 63 -> gs <= b ->
  0 <= Z.max 0 (Z.min (wrap64 (b - gs)) req) /\
  gs <= wrap64 (b - Z.max 0 (Z.min (wrap64 (b - gs)) req)).
Proof.
  intros Hb Hg Hle.
  destruct (wrap64_cases (b - gs)) as (k & Hk & Hr).
  destruct (wrap64_cases (b - Z.max 0 (Z.min (wrap64 (b - gs)) req)))
    as (k' & Hk' & Hr').
  lia.
Qed.

(** The halo cut to the room on the high side keeps the stop inside. *)
Lemma clamp_hi (e gt req : Z) :
  - 2 ^ 63 <= e < 2 ^ 63 -> - 2 ^ 63 <= gt < 2 ^ 63 -> e <= gt ->
  0 <= Z.max 0 (Z.min (wrap64 (gt - e)) req) /\
  wrap64 (e + Z.max 0 (Z.min (wrap64 (gt - e)) req)) <= gt.
Proof.
  intros He Hg Hle.
  destruct (wrap64_cases (gt - e)) as (k & Hk & Hr).
  destruct (wrap64_cases (e + Z.max 0 (Z.min (wrap64 (gt - e)) req)))
    as (k' & Hk' & Hr').
  lia.
Qed.

Lemma broadcast2_wrap_range (f : Z -> Z -> Z) (a b r : list Z) (i : nat) :
  broadcast2 (fun x y => wrap64 (f x y)) a b = Ok r -> (i < length r)%nat ->
  - 2 ^ 63 <= r !!! i < 2 ^ 63.
Proof.
  intros H Hi.
  assert (HF : Forall (fun z => - 2 ^ 63 <= z < 2 ^ 63) r).
  { unfold broadcast2 in H. destruct (decide _).
    - inversion H; subst. clear. revert b.
      induction a as [|x a IH]; intros [|y b]; simpl; constructor; auto.
      apply wrap64_range.
    - destruct a as [|x [|x' a]], b as [|y [|y' b]]; try discriminate;
        injection H as <-;
        repeat (apply List.Forall_cons; [apply wrap64_range|]);
        first [ apply List.Forall_nil
              | change (list_fmap Z Z) with (@fmap list _ Z Z);
                apply Forall_fmap, Forall_forall; intros z _;
                apply wrap64_range ]. }
  apply (Forall_lookup_total_1 _ _ i) in HF; auto.
Qed.

Lemma convert_halo_length (halo : HaloSpec) (n : nat) (h : halo_matrix) :
  convert_halo_to_array_form halo n = Ok h -> length h = n.
Proof.
  destruct halo as [z|hs|m]; simpl.
  - destruct (in_int64 z); intros H; [|discriminate].
    injection H as <-. apply length_replicate.
  - destruct (decide _) as [Hl|]; [|discriminate].
    destruct (np_array_int64 hs) as [r|] eqn:E; simpl; [|discriminate].
    intros H. injection H as <-.
    apply np_array_int64_Ok in E as [-> _]. rewrite length_fmap. exact Hl.
  - destruct (decide _) as [Hl|]; [|discriminate].
    destruct (np_array_int64 (m.*1)); simpl; [|discriminate].
    destruct (np_array_int64 (m.*2)); simpl; [|discriminate].
    intros H. injection H as <-. exact Hl.
Qed.

(** ** The extent algebra of [indexing.py] *)

Import Indexing.

Lemma calc_intersection_same_ndim (self other : IndexingExtent) :
  well_formed self -> well_formed other -> ndim self = ndim other ->
  calc_intersection self other =
    Ok (if np_any (zip_with Z.geb (_beg (meet self other)) (_end (meet self other)))
        then None else Some (meet self other)).
Proof.
  unfold well_formed, ndim, calc_intersection, meet. intros Hs Ho Hn.
  unfold np_maximum, np_minimum, np_ge.
  rewrite (broadcast2_same Z.max) by exact Hn. simpl.
  rewrite (broadcast2_same Z.min) by congruence. simpl.
  rewrite broadcast2_same by (rewrite !length_zip_with; lia). simpl.
  destruct (np_any _); reflexivity.
Qed.

Lemma meet_beg_total (self other : IndexingExtent) (i : nat) :
  ndim self = ndim other -> (i < ndim self)%nat ->
  _beg (meet self other) !!! i = Z.max (_beg self !!! i) (_beg other !!! i).
Proof.
  unfold ndim. intros Hn Hi. simpl.
  apply list_lookup_total_correct. rewrite lookup_zip_with.
  rewrite (list_lookup_lookup_total_lt (_beg self) i) by lia.
  rewrite (list_lookup_lookup_total_lt (_beg other) i) by lia.
  reflexivity.
Qed.

Lemma meet_end_total (self other : IndexingExtent) (i : nat) :
  length (_end self) = length (_end other) -> (i < length (_end self))%nat ->
  _end (meet self other) !!! i = Z.min (_end self !!! i) (_end other !!! i).
Proof.
  intros Hn Hi. simpl.
  apply list_lookup_total_correct. rewrite lookup_zip_with.
  rewrite (list_lookup_lookup_total_lt (_end self) i) by lia.
  rewrite (list_lookup_lookup_total_lt (_end other) i) by lia.
  reflexivity.
Qed.

Lemma zip_with_max_self (l : list Z) : zip_with Z.max l l = l.
Proof. induction l as [|x l IH]; simpl; [|rewrite IH, Z.max_id]; reflexivity. Qed.

Lemma zip_with_min_self (l : list Z) : zip_with Z.min l l = l.
Proof. induction l as [|x l IH]; simpl; [|rewrite IH, Z.min_id]; reflexivity. Qed.

Lemma np_any_ge_nonemptyb (b e : list Z) :
  np_any (zip_with Z.geb b e) =
  negb (forallb (fun be : Z * Z => fst be <? snd be) (zip b e)).
Proof.
  revert e. induction b as [|x b IH]; intros [|y e]; simpl; try reflexivity.
  unfold np_any in *. simpl. rewrite IH, negb_andb. unfold id.
  f_equal. rewrite Z.geb_leb, Z.ltb_antisym, negb_involutive. reflexivity.
Qed.

(** C8, as amended: the intersection of an extent with itself is the extent
    when no axis is empty, and is absent when some axis is empty. *)
Theorem calc_intersection_idempotent (A : IndexingExtent) :
  well_formed A ->
  calc_intersection A A = Ok (if nonemptyb A then Some A else None).
Proof.
  intros Hwf. rewrite calc_intersection_same_ndim by auto.
  unfold meet. rewrite zip_with_max_self, zip_with_min_self. simpl.
  rewrite np_any_ge_nonemptyb. unfold nonemptyb.
  destruct A as [b e]. simpl. destruct (forallb _ _); reflexivity.
Qed.

(** C2, as amended: without an intersection the result pairs a leftovers
    list of exactly one extent with an absent intersection. *)
Theorem calc_intersection_split_absent (self other : IndexingExtent) :
  ndim self = ndim other -> well_formed self -> well_formed other ->
  (exists i, (i < ndim self)%nat /\
     Z.max (_beg self !!! i) (_beg other !!! i) >=
     Z.min (_end self !!! i) (_end other !!! i)) ->
  exists e, calc_intersection_split self other = Ok ([e], None).
Proof.
  intros Hn Hs Ho (i & Hi & Hge). exists other.
  unfold calc_intersection_split.
  rewrite calc_intersection_same_ndim by auto.
  assert (Hany : np_any (zip_with Z.geb (_beg (meet self other))
                           (_end (meet self other))) = true).
  { apply np_any_zip_ge.
    - simpl. rewrite !length_zip_with. unfold well_formed, ndim in *. lia.
    - exists i. split.
      + simpl. rewrite length_zip_with. unfold ndim in *. lia.
      + rewrite meet_beg_total, meet_end_total; auto;
          unfold well_formed, ndim in *; lia. }
  rewrite Hany. reflexivity.
Qed.

(** *** Index sets *)

Lemma in_box_spec (b e p : list Z) :
  in_box b e p = true <->
  length b = length e /\ length p = length b /\
  forall i, (i < length b)%nat -> b !!! i <= p !!! i < e !!! i.
Proof.
  revert e p. induction b as [|x b IH]; intros [|y e] [|z p]; simpl;
    try (split; [discriminate | intros (H1 & H2 & _); discriminate]).
  - split; [|reflexivity]. intros _. split; [reflexivity|].
    split; [reflexivity|]. intros i Hi. lia.
  - rewrite !andb_true_iff, (IH e p), Z.leb_le, Z.ltb_lt. split.
    + intros ((Hx & Hz) & Hl1 & Hl2 & H).
      split; [congruence|]. split; [congruence|].
      intros [|i] Hi; simpl; [lia|]. apply H. lia.
    + intros (Hl1 & Hl2 & H). split.
      * specialize (H 0%nat ltac:(lia)). simpl in H. lia.
      * split; [congruence|]. split; [congruence|].
        intros i Hi. apply (H (S i)). lia.
Qed.

Lemma contains_axis (x : IndexingExtent) (a : nat) (p : list Z) :
  (a < length (_beg x))%nat ->
  contains x p = true <->
  off_axis (_beg x) (_end x) a p /\
  _beg x !!! a <= p !!! a < _end x !!! a.
Proof.
  intros Ha. unfold contains, off_axis. rewrite in_box_spec. split.
  - intros (H1 & H2 & H). split; [|apply H; auto].
    split; [auto|]. split; [auto|]. intros i Hi _. apply H. auto.
  - intros ((H1 & H2 & H) & Hax). split; [auto|]. split; [auto|].
    intros i Hi. destruct (decide (i = a)) as [->|Hne]; [lia|].
    apply H; auto.
Qed.

Lemma off_axis_insert_beg (b e : list Z) (a : nat) (v : Z) (p : list Z) :
  off_axis (<[a:=v]> b) e a p <-> off_axis b e a p.
Proof.
  unfold off_axis. rewrite !length_insert.
  split; intros (H1 & H2 & H); (split; [exact H1|]); (split; [exact H2|]);
    intros i Hi Hne; specialize (H i Hi Hne);
    rewrite list_lookup_total_insert_ne in * by auto; lia.
Qed.

Lemma off_axis_insert_end (b e : list Z) (a : nat) (v : Z) (p : list Z) :
  off_axis b (<[a:=v]> e) a p <-> off_axis b e a p.
Proof.
  unfold off_axis. rewrite !length_insert.
  split; intros (H1 & H2 & H); (split; [exact H1|]); (split; [exact H2|]);
    intros i Hi Hne; specialize (H i Hi Hne);
    rewrite list_lookup_total_insert_ne in * by auto; lia.
Qed.

Lemma contains_with_axis (x : IndexingExtent) (a : nat) (lo hi : Z)
    (p : list Z) :
  well_formed x -> (a < ndim x)%nat ->
  contains (with_axis x a lo hi) p = true <->
  off_axis (_beg x) (_end x) a p /\ lo <= p !!! a < hi.
Proof.
  unfold well_formed, ndim. intros Hwf Ha.
  rewrite (contains_axis _ a) by (simpl; rewrite length_insert; lia).
  simpl. rewrite off_axis_insert_beg, off_axis_insert_end.
  rewrite !list_lookup_total_insert_eq by lia. reflexivity.
Qed.

Lemma with_axis_same (x : IndexingExtent) (a : nat) :
  (a < ndim x)%nat -> well_formed x ->
  with_axis x a (_beg x !!! a) (_end x !!! a) = x.
Proof.
  unfold ndim, well_formed, with_axis. intros Ha Hwf. destruct x as [b e].
  simpl in *. f_equal; apply list_insert_id, list_lookup_lookup_total_lt; lia.
Qed.

Lemma with_axis_twice (x : IndexingExtent) (a : nat) (l1 h1 l2 h2 : Z) :
  with_axis (with_axis x a l1 h1) a l2 h2 = with_axis x a l2 h2.
Proof. unfold with_axis. simpl. rewrite !list_insert_insert_eq. reflexivity. Qed.

Lemma with_axis_well_formed (x : IndexingExtent) (a : nat) (lo hi : Z) :
  well_formed x -> well_formed (with_axis x a lo hi).
Proof. unfold well_formed. simpl. rewrite !length_insert. auto. Qed.

Lemma with_axis_ndim (x : IndexingExtent) (a : nat) (lo hi : Z) :
  ndim (with_axis x a lo hi) = ndim x.
Proof. unfold ndim. simpl. apply length_insert. Qed.

(** [split] in closed form: the pieces are the box with one axis replaced. *)
Lemma split_spec (x : IndexingExtent) (a : nat) (index : Z) :
  well_formed x -> (a < ndim x)%nat ->
  split x a index =
    Ok (if index <=? _beg x !!! a then (None, Some x)
        else if index >=? _end x !!! a then (Some x, None)
        else (Some (with_axis x a (_beg x !!! a) index),
              Some (with_axis x a index (_end x !!! a)))).
Proof.
  unfold well_formed, ndim. intros Hwf Ha. unfold split.
  rewrite (getitem_total (_beg x)) by lia. simpl.
  destruct (index <=? _beg x !!! a); [reflexivity|].
  rewrite (getitem_total (_end x)) by lia. simpl.
  destruct (index >=? _end x !!! a); [reflexivity|].
  rewrite !setitem_lt by lia. simpl. unfold with_axis.
  rewrite (list_insert_id (_beg x) a (_beg x !!! a))
    by (apply list_lookup_lookup_total_lt; lia).
  rewrite (list_insert_id (_end x) a (_end x !!! a))
    by (apply list_lookup_lookup_total_lt; lia).
  reflexivity.
Qed.

(** *** The intersection split *)

Lemma intersection_split_body_spec (I C : IndexingExtent) (a : nat)
    (lv : list IndexingExtent) :
  well_formed C -> (a < ndim C)%nat ->
  (a < length (_beg I))%nat -> (a < length (_end I))%nat ->
  _beg C !!! a <= _beg I !!! a -> _beg I !!! a < _end I !!! a ->
  _end I !!! a <= _end C !!! a ->
  intersection_split_body I a ([C], lv) =
    Ok ([with_axis C a (_beg I !!! a) (_end I !!! a)],
        lv ++ axis_leftovers C I a).
Proof.
  intros Hwf Ha HaI HaI' Hlo Hne Hhi.
  set (ia := _beg I !!! a) in *. set (ie := _end I !!! a) in *.
  set (H1 := with_axis C a ia (_end C !!! a)).
  assert (Hs1 : split C a ia =
            Ok (if _beg C !!! a <? ia
                then Some (with_axis C a (_beg C !!! a) ia) else None,
                Some H1)).
  { rewrite split_spec by auto. unfold H1.
    destruct (Z.leb_spec ia (_beg C !!! a)) as [Hle|Hgt].
    - assert (ia = _beg C !!! a) as -> by lia.
      rewrite Z.ltb_irrefl, with_axis_same by auto. reflexivity.
    - destruct (Z.geb_spec ia (_end C !!! a)); [lia|].
      destruct (Z.ltb_spec (_beg C !!! a) ia); [reflexivity|lia]. }
  assert (Hwf1 : well_formed H1) by (apply with_axis_well_formed; auto).
  assert (Hn1 : (a < ndim H1)%nat) by (unfold H1; rewrite with_axis_ndim; auto).
  assert (Hb1 : _beg H1 !!! a = ia).
  { unfold H1. simpl. apply list_lookup_total_insert_eq. exact Ha. }
  assert (He1 : _end H1 !!! a = _end C !!! a).
  { unfold H1. simpl. apply list_lookup_total_insert_eq.
    unfold well_formed, ndim in *. lia. }
  assert (Hs2 : split H1 a ie =
            Ok (Some (with_axis C a ia ie),
                if ie <? _end C !!! a
                then Some (with_axis C a ie (_end C !!! a)) else None)).
  { rewrite split_spec by auto. rewrite Hb1, He1.
    destruct (Z.leb_spec ie ia); [lia|].
    destruct (Z.geb_spec ie (_end C !!! a)) as [Hge|Hlt].
    - assert (ie = _end C !!! a) as -> by lia.
      rewrite Z.ltb_irrefl. reflexivity.
    - destruct (Z.ltb_spec ie (_end C !!! a)); [|lia].
      unfold H1. rewrite !with_axis_twice. reflexivity. }
  unfold intersection_split_body. simpl.
  rewrite (getitem_total (_beg I)) by auto. simpl. fold ia. rewrite Hs1. simpl.
  rewrite (getitem_total (_end I)) by auto. simpl. fold ie. rewrite Hs2. simpl.
  unfold axis_leftovers, deque_append. fold ia ie.
  destruct (_beg C !!! a <? ia), (ie <? _end C !!! a); simpl;
    rewrite <- ?app_assoc, ?app_nil_r; reflexivity.
Qed.

Lemma axis_leftovers_cover (I C : IndexingExtent) (a : nat) (p : list Z) :
  well_formed C -> (a < ndim C)%nat ->
  _beg C !!! a <= _beg I !!! a -> _beg I !!! a < _end I !!! a ->
  _end I !!! a <= _end C !!! a ->
  contains C p = true <->
  contains (with_axis C a (_beg I !!! a) (_end I !!! a)) p = true \/
  Exists (fun E => contains E p = true) (axis_leftovers C I a).
Proof.
  intros Hwf Ha Hlo Hne Hhi. unfold axis_leftovers.
  rewrite (contains_axis C a) by exact Ha.
  destruct (Z.ltb_spec (_beg C !!! a) (_beg I !!! a));
    destruct (Z.ltb_spec (_end I !!! a) (_end C !!! a)); simpl;
    rewrite ?Exists_cons, ?Exists_nil, !contains_with_axis by auto;
    pose proof (Z.lt_ge_cases (p !!! a) (_beg I !!! a));
    pose proof (Z.lt_ge_cases (p !!! a) (_end I !!! a));
    intuition lia.
Qed.

Lemma axis_leftovers_disjoint_mid (I C : IndexingExtent) (a : nat) :
  well_formed C -> (a < ndim C)%nat ->
  Forall (fun E => disjoint E (with_axis C a (_beg I !!! a) (_end I !!! a)))
    (axis_leftovers C I a).
Proof.
  intros Hwf Ha. unfold axis_leftovers.
  destruct (Z.ltb_spec (_beg C !!! a) (_beg I !!! a));
    destruct (Z.ltb_spec (_end I !!! a) (_end C !!! a)); simpl;
    repeat constructor; intros p; rewrite !contains_with_axis by auto;
    intuition lia.
Qed.

Lemma axis_leftovers_pairwise (I C : IndexingExtent) (a : nat) :
  well_formed C -> (a < ndim C)%nat ->
  _beg I !!! a < _end I !!! a ->
  ForallOrdPairs disjoint (axis_leftovers C I a).
Proof.
  intros Hwf Ha Hne. unfold axis_leftovers.
  destruct (Z.ltb_spec (_beg C !!! a) (_beg I !!! a));
    destruct (Z.ltb_spec (_end I !!! a) (_end C !!! a)); simpl;
    repeat constructor; intros p; rewrite !contains_with_axis by auto;
    intuition lia.
Qed.

Lemma ForallOrdPairs_app {T : Type} (R : T -> T -> Prop) (l1 l2 : list T) :
  ForallOrdPairs R l1 -> ForallOrdPairs R l2 ->
  (forall x y, In x l1 -> In y l2 -> R x y) ->
  ForallOrdPairs R (l1 ++ l2).
Proof.
  induction l1 as [|x l1 IH]; simpl; intros H1 H2 Hx; [exact H2|].
  inversion H1 as [|? ? Hhd Htl]; subst. constructor.
  - apply List.Forall_app. split; [exact Hhd|].
    apply List.Forall_forall. intros y Hy. apply Hx; auto.
  - apply IH; auto.
Qed.

(** The loop over the axes [a, a + k): it ends with one box in the deque,
    which carries the bounds of [I] on the axes walked and those of [C]
    elsewhere, and the pieces it appended tile the rest of [C]. *)
Lemma intersection_split_loop (I : IndexingExtent) (n k : nat) :
  forall (a : nat) (C : IndexingExtent) (lv : list IndexingExtent),
  well_formed C -> ndim C = n ->
  length (_beg I) = n -> length (_end I) = n -> (a + k <= n)%nat ->
  (forall i, (a <= i < a + k)%nat ->
     _beg C !!! i <= _beg I !!! i < _end I !!! i /\
     _end I !!! i <= _end C !!! i) ->
  exists C' N,
    for_each (intersection_split_body I) (seq a k) ([C], lv)
      = Ok ([C'], lv ++ N) /\
    well_formed C' /\ ndim C' = n /\
    (forall i, (i < n)%nat ->
       (_beg C' !!! i, _end C' !!! i) =
       if decide (a <= i < a + k)%nat then (_beg I !!! i, _end I !!! i)
       else (_beg C !!! i, _end C !!! i)) /\
    (forall p, contains C p = true <->
       contains C' p = true \/ Exists (fun E => contains E p = true) N) /\
    Forall (fun E => disjoint E C') N /\
    ForallOrdPairs disjoint N.
Proof.
  induction k as [|k IH]; intros a C lv Hwf Hn HbI HeI Hak Hin.
  - exists C, []. simpl. rewrite app_nil_r.
    repeat (split; [first [reflexivity | assumption]|]).
    split.
    { intros i Hi. rewrite decide_False by lia. reflexivity. }
    split.
    { intros p. rewrite Exists_nil. tauto. }
    split; constructor.
  - destruct (Hin a ltac:(lia)) as ((Hlo & Hne) & Hhi).
    set (C1 := with_axis C a (_beg I !!! a) (_end I !!! a)).
    assert (Hwf1 : well_formed C1) by (apply with_axis_well_formed; auto).
    assert (Hn1 : ndim C1 = n) by (unfold C1; rewrite with_axis_ndim; auto).
    assert (Hother : forall i, i <> a ->
              _beg C1 !!! i = _beg C !!! i /\ _end C1 !!! i = _end C !!! i).
    { intros i Hi. unfold C1. simpl.
      rewrite !list_lookup_total_insert_ne by auto. auto. }
    assert (Hat : _beg C1 !!! a = _beg I !!! a /\ _end C1 !!! a = _end I !!! a).
    { unfold C1. simpl. unfold well_formed, ndim in *.
      rewrite !list_lookup_total_insert_eq by lia. auto. }
    destruct (IH (S a) C1 (lv ++ axis_leftovers C I a) Hwf1 Hn1 HbI HeI
                ltac:(lia)) as (C' & N2 & Hrun & Hwf' & Hn' & Hagree & Hcov & Hdis & Hpw).
    { intros i Hi. destruct (Hother i ltac:(lia)) as [-> ->].
      apply Hin. lia. }
    exists C', (axis_leftovers C I a ++ N2).
    assert (Hsub : forall p, contains C' p = true -> contains C1 p = true).
    { intros p Hp. apply Hcov. left. exact Hp. }
    assert (Hsub2 : forall E p, In E N2 -> contains E p = true ->
              contains C1 p = true).
    { intros E p HE Hp. apply Hcov. right. apply List.Exists_exists. eauto. }
    pose proof (axis_leftovers_disjoint_mid I C a Hwf ltac:(lia)) as Hmid.
    fold C1 in Hmid. rewrite List.Forall_forall in Hmid.
    split.
    { change (seq a (S k)) with (a :: seq (S a) k). cbn [for_each].
      rewrite intersection_split_body_spec by (auto; lia).
      cbn [mbind result_bind]. fold C1. rewrite Hrun, app_assoc.
      reflexivity. }
    split; [exact Hwf'|]. split; [exact Hn'|]. split.
    { intros i Hi. rewrite (Hagree i Hi).
      destruct (decide (S a <= i < S a + k)%nat) as [Hr|Hr].
      - rewrite decide_True by lia. reflexivity.
      - destruct (decide (i = a)) as [->|Hia].
        + rewrite decide_True by lia. destruct Hat as [-> ->]. reflexivity.
        + rewrite decide_False by lia.
          destruct (Hother i Hia) as [-> ->]. reflexivity. }
    split.
    { intros p.
      rewrite (axis_leftovers_cover I C a p) by (auto; lia). fold C1.
      rewrite (Hcov p), List.Exists_app. tauto. }
    split.
    { apply List.Forall_app. split; [|exact Hdis].
      apply List.Forall_forall. intros E HE p [HpE HpC].
      apply (Hmid E HE p). split; [exact HpE|]. apply Hsub. exact HpC. }
    apply ForallOrdPairs_app; [|exact Hpw|].
    + apply axis_leftovers_pairwise; auto; lia.
    + intros x y Hx Hy p [Hpx Hpy]. apply (Hmid x Hx p).
      split; [exact Hpx|]. apply (Hsub2 y p Hy Hpy).
Qed.

Lemma calc_intersection_Some (self other I : IndexingExtent) :
  well_formed self -> well_formed other -> ndim self = ndim other ->
  calc_intersection self other = Ok (Some I) ->
  I = meet self other /\
  forall i, (i < ndim self)%nat -> _beg I !!! i < _end I !!! i.
Proof.
  intros Hs Ho Hn. rewrite calc_intersection_same_ndim by auto.
  destruct (np_any _) eqn:Hany; intros H; inversion H; subst.
  split; [reflexivity|]. intros i Hi.
  unfold well_formed, ndim in *.
  assert (Hlen : length (_beg (meet self other)) =
                 length (_end (meet self other))).
  { simpl. rewrite !length_zip_with. lia. }
  apply (proj1 (np_any_zip_ge_false _ _ Hlen) Hany).
  simpl. rewrite length_zip_with. lia.
Qed.

Lemma contains_pointwise (x y : IndexingExtent) (p : list Z) :
  well_formed x -> well_formed y -> ndim x = ndim y ->
  (forall i, (i < ndim x)%nat ->
     (_beg x !!! i, _end x !!! i) = (_beg y !!! i, _end y !!! i)) ->
  contains x p = contains y p.
Proof.
  unfold well_formed, ndim, contains. intros Hx Hy Hn H.
  apply eq_true_iff_eq. rewrite !in_box_spec. split.
  - intros (H1 & H2 & H3). split; [auto|]. split; [lia|].
    intros i Hi. specialize (H i ltac:(lia)). specialize (H3 i ltac:(lia)).
    inversion H. lia.
  - intros (H1 & H2 & H3). split; [auto|]. split; [lia|].
    intros i Hi. specialize (H i ltac:(lia)). specialize (H3 i ltac:(lia)).
    inversion H. lia.
Qed.

(** The general part of C3. *)
Lemma calc_intersection_split_tiles (self other I : IndexingExtent) :
  ndim self = ndim other -> well_formed self -> well_formed other ->
  calc_intersection self other = Ok (Some I) ->
  exists leftovers,
    calc_intersection_split self other = Ok (leftovers, Some I) /\
    ForallOrdPairs disjoint leftovers /\
    Forall (fun E => disjoint E I) leftovers /\
    forall p, contains self p = true <->
      contains I p = true \/ Exists (fun E => contains E p = true) leftovers.
Proof.
  intros Hn Hs Ho HI.
  destruct (calc_intersection_Some self other I Hs Ho Hn HI) as [HIeq Hne].
  assert (HbI : length (_beg I) = ndim self).
  { subst I. simpl. rewrite length_zip_with. unfold ndim in *. lia. }
  assert (HeI : length (_end I) = ndim self).
  { subst I. simpl. rewrite length_zip_with.
    unfold ndim, well_formed in *. lia. }
  destruct (intersection_split_loop I (ndim self) (ndim self) 0 self []
              Hs eq_refl HbI HeI ltac:(lia))
    as (C' & N & Hrun & Hwf' & Hn' & Hagree & Hcov & Hdis & Hpw).
  { intros i Hi. specialize (Hne i ltac:(lia)).
    assert (Hb : _beg I !!! i = Z.max (_beg self !!! i) (_beg other !!! i)).
    { subst I. apply meet_beg_total; auto. lia. }
    assert (He : _end I !!! i = Z.min (_end self !!! i) (_end other !!! i)).
    { subst I. apply meet_end_total; unfold ndim, well_formed in *; lia. }
    lia. }
  assert (HC' : forall p, contains C' p = contains I p).
  { intros p. apply contains_pointwise; auto.
    - unfold well_formed. lia.
    - unfold ndim in *. lia.
    - intros i Hi. rewrite (Hagree i ltac:(lia)).
      rewrite decide_True by lia. reflexivity. }
  exists N. split.
  { unfold calc_intersection_split. rewrite HI. simpl. rewrite Hrun.
    reflexivity. }
  split; [exact Hpw|]. split.
  - eapply List.Forall_impl; [|exact Hdis]. intros E HE p.
    rewrite <- HC'. apply HE.
  - intros p. rewrite (Hcov p), HC'. tauto.
Qed.

(** C3: when the intersection [I] of [self] and [other] is present,
    [calc_intersection_split] returns leftovers that are pairwise disjoint,
    each disjoint from [I], and that together with [I] cover exactly the
    indices of [self]; on [[0,10) x [0,10)] against [[3,7) x [2,8)] the
    leftovers are the four stated boxes, in the stated order. *)
Theorem calc_intersection_split_tiling :
  (forall self other I : IndexingExtent,
     ndim self = ndim other -> well_formed self -> well_formed other ->
     calc_intersection self other = Ok (Some I) ->
     exists leftovers,
       calc_intersection_split self other = Ok (leftovers, Some I) /\
       ForallOrdPairs disjoint leftovers /\
       Forall (fun E => disjoint E I) leftovers /\
       forall p, contains self p = true <->
         contains I p = true \/
         Exists (fun E => contains E p = true) leftovers) /\
  calc_intersection_split Examples.box_0_10 Examples.box_3_7 =
    Ok ([mkIndexingExtent [0; 0] [3; 10];
         mkIndexingExtent [7; 0] [10; 10];
         mkIndexingExtent [3; 0] [7; 2];
         mkIndexingExtent [3; 8] [7; 10]],
        Some (mkIndexingExtent [3; 2] [7; 8])).
Proof.
  split.
  - intros self other I. apply calc_intersection_split_tiles.
  - vm_compute. reflexivity.
Qed.

Lemma calc_intersection_split_tiling_witness :
  exists leftovers,
    calc_intersection_split Examples.box_0_10 Examples.box_3_7 =
      Ok (leftovers, Some (mkIndexingExtent [3; 2] [7; 8])) /\
    ForallOrdPairs disjoint leftovers /\
    Forall (fun E => disjoint E (mkIndexingExtent [3; 2] [7; 8])) leftovers /\
    forall p, contains Examples.box_0_10 p = true <->
      contains (mkIndexingExtent [3; 2] [7; 8]) p = true \/
      Exists (fun E => contains E p = true) leftovers.
Proof.
  apply (proj1 calc_intersection_split_tiling Examples.box_0_10
           Examples.box_3_7); reflexivity.
Defined.

Lemma calc_intersection_idempotent_witness :
  calc_intersection Examples.box_3_7 Examples.box_3_7 =
    Ok (if nonemptyb Examples.box_3_7 then Some Examples.box_3_7 else None).
Proof. apply (calc_intersection_idempotent Examples.box_3_7). reflexivity. Defined.

(** C8 fails on an empty extent: the intersection of [[0,0)] with itself is
    absent, so no extent equal to it is returned. *)
Lemma calc_intersection_idempotent_counterexample :
  well_formed Examples.seg_empty /\
  ~ (exists r, calc_intersection Examples.seg_empty Examples.seg_empty
                 = Ok (Some r) /\
               IndexingExtent_eq r Examples.seg_empty = Ok true).
Proof.
  split; [reflexivity|]. intros (r & Hr & _). vm_compute in Hr. discriminate.
Qed.

Lemma calc_intersection_split_absent_witness :
  exists e, calc_intersection_split Examples.seg_0_1 Examples.seg_2_3
              = Ok ([e], None).
Proof.
  apply (calc_intersection_split_absent Examples.seg_0_1 Examples.seg_2_3);
    try reflexivity.
  exists 0%nat. split; [vm_compute; lia | vm_compute; discriminate].
Defined.

(** C2 fails: [[0,1)] and [[2,3)] do not intersect, yet the leftovers list
    that comes back is not empty. *)
Lemma calc_intersection_split_absent_counterexample :
  ndim Examples.seg_0_1 = ndim Examples.seg_2_3 /\
  calc_intersection Examples.seg_0_1 Examples.seg_2_3 = Ok None /\
  calc_intersection_split Examples.seg_0_1 Examples.seg_2_3 <> Ok ([], None).
Proof.
  split; [reflexivity|]. split; [reflexivity|]. vm_compute. discriminate.
Qed.

(** ** Locale extents and the distribution factory ([distribution.py]) *)

Import Distribution.

Lemma IndexingExtent_init_int64 (slice : option (list (Z * Z)))
    (start stop : option (list Z)) (e : IndexingExtent) :
  IndexingExtent_init slice start stop = Ok e ->
  forallb in_int64 (_beg e) = true /\ forallb in_int64 (_end e) = true.
Proof.
  unfold IndexingExtent_init.
  destruct slice as [sl|]; [|destruct start as [st|]; destruct stop as [sp|]];
    try discriminate.
  - destruct (np_array_int64 (sl.*1)) as [b|] eqn:Eb; simpl; [|discriminate].
    destruct (np_array_int64 (sl.*2)) as [e'|] eqn:Ee; simpl; [|discriminate].
    intros H. injection H as <-. simpl.
    apply np_array_int64_Ok in Eb as [-> Hb], Ee as [-> He]. auto.
  - destruct (np_array_int64 st) as [b|] eqn:Eb; simpl; [|discriminate].
    destruct (np_array_int64 sp) as [e'|] eqn:Ee; simpl; [|discriminate].
    intros H. injection H as <-. simpl.
    apply np_array_int64_Ok in Eb as [-> Hb], Ee as [-> He]. auto.
  - destruct (np_array_int64 sp) as [e'|] eqn:Ee; simpl; [|discriminate].
    intros H. injection H as <-. simpl.
    apply np_array_int64_Ok in Ee as [-> He]. split; [|exact He].
    clear. induction sp; simpl; auto.
Qed.

Lemma fmap_lookup_total_col (f : Z * Z -> Z) (l : list (Z * Z)) (i : nat) :
  (i < length l)%nat -> (f <$> l) !!! i = f (l !!! i).
Proof. apply list_lookup_total_fmap. Qed.

Lemma fmap_lookup_total_row (f : Z * Z -> Z * Z) (l : list (Z * Z)) (i : nat) :
  (i < length l)%nat -> (f <$> l) !!! i = f (l !!! i).
Proof. apply list_lookup_total_fmap. Qed.

Lemma zip_with_lookup_total_Z (f : Z -> Z -> Z) (l k : list Z) (i : nat) :
  (i < length l)%nat -> (i < length k)%nat ->
  zip_with f l k !!! i = f (l !!! i) (k !!! i).
Proof. apply lookup_total_zip_with. Qed.

Lemma zip_lookup_total (l k : list Z) (i : nat) :
  (i < length l)%nat -> (i < length k)%nat ->
  zip l k !!! i = (l !!! i, k !!! i).
Proof. intros Hl Hk. apply lookup_total_zip_with; auto. Qed.

(** C6: a [HaloSubExtent] (hence a [LocaleExtent]) built over a globale
    extent whose with-halo box contains its interior is constructed, its
    stored halo is non-negative, and its with-halo box stays inside that of
    the globale extent; when the globale extent carries no halo this is its
    interior box. *)
Theorem halo_clamped_to_globale (G : GlobaleExtent)
    (slice : option (list (Z * Z))) (halo : HaloSpec)
    (start stop : option (list Z)) (e : IndexingExtent) (h : halo_matrix)
    (gs gt : list Z) :
  IndexingExtent_init slice start stop = Ok e ->
  convert_halo_to_array_form halo (ndim e) = Ok h ->
  well_formed e ->
  start_h G = Ok gs -> stop_h G = Ok gt ->
  length gs = ndim e -> length gt = ndim e ->
  (forall i, (i < ndim e)%nat ->
     gs !!! i <= _beg e !!! i /\ _end e !!! i <= gt !!! i) ->
  exists (L : HaloIndexingExtent) (ls lt : list Z),
    HaloSubExtent_init G slice halo start stop = Ok L /\
    (forall rank inter_locale_rank,
       LocaleExtent_init rank inter_locale_rank G slice halo start stop
         = Ok (mkLocaleExtent L rank inter_locale_rank)) /\
    extent L = e /\ length (Indexing._halo L) = ndim e /\
    start_h L = Ok ls /\ stop_h L = Ok lt /\
    length ls = ndim e /\ length lt = ndim e /\
    forall i, (i < ndim e)%nat ->
      0 <= fst (Indexing._halo L !!! i) /\ 0 <= snd (Indexing._halo L !!! i) /\
      gs !!! i <= ls !!! i /\ lt !!! i <= gt !!! i /\
      (forallb in_int64 (start_n G) = true ->
       forallb in_int64 (stop_n G) = true ->
       length (Indexing._halo G) = ndim e ->
       length (start_n G) = ndim e -> length (stop_n G) = ndim e ->
       Forall (fun row => row = (0, 0)) (Indexing._halo G) ->
       start_n G !!! i <= ls !!! i /\ lt !!! i <= stop_n G !!! i).
Proof.
  intros He Hh Hwf Hgs Hgt Hlgs Hlgt Hin.
  pose proof (IndexingExtent_init_int64 _ _ _ _ He) as [Hrb Hre].
  pose proof (convert_halo_length _ _ _ Hh) as Hlh.
  unfold well_formed, ndim in *.
  set (n := length (_beg e)) in *.
  pose proof (eq_refl : length (_beg e) = n) as Hn.
  set (room_lo := zip_with (fun x y => wrap64 (x - y)) (_beg e) gs).
  set (lo := zip_with Z.min room_lo (h.*1)).
  set (room_hi := zip_with (fun x y => wrap64 (x - y)) gt (_end e)).
  set (hi := zip_with Z.min room_hi (h.*2)).
  set (L := mkHaloIndexingExtent e (clamp_at_zero (zip lo hi))).
  assert (Hlo : length lo = n).
  { unfold lo, room_lo. rewrite !length_zip_with, length_fmap. lia. }
  assert (Hhi : length hi = n).
  { unfold hi, room_hi. rewrite !length_zip_with, length_fmap. lia. }
  assert (HL : HaloSubExtent_init G slice halo start stop = Ok L).
  { unfold HaloSubExtent_init, HaloIndexingExtent_init. rewrite He. simpl.
    unfold ndim. fold n. rewrite Hh. simpl. rewrite Hgs. simpl.
    unfold start_n, stop_n. simpl. unfold np_sub, np_minimum.
    rewrite (broadcast2_same _ (_beg e) gs) by lia. simpl. fold room_lo.
    rewrite (broadcast2_same Z.min room_lo)
      by (unfold room_lo; rewrite length_zip_with, length_fmap; lia).
    simpl. fold lo. rewrite Hgt. simpl.
    rewrite (broadcast2_same _ gt (_end e)) by lia. simpl. fold room_hi.
    rewrite (broadcast2_same Z.min room_hi)
      by (unfold room_hi; rewrite length_zip_with, length_fmap; lia).
    simpl. fold hi. unfold halo_of_cols. rewrite decide_True by lia.
    reflexivity. }
  assert (HlenL : length (Indexing._halo L) = n).
  { unfold L, clamp_at_zero. simpl. rewrite length_fmap, length_zip. lia. }
  set (ls := zip_with (fun x y => wrap64 (x - y)) (_beg e)
               ((Indexing._halo L).*1)).
  set (lt := zip_with (fun x y => wrap64 (x + y)) (_end e)
               ((Indexing._halo L).*2)).
  exists L, ls, lt.
  split; [exact HL|]. split.
  { intros r ilr. unfold LocaleExtent_init. rewrite HL. reflexivity. }
  split; [reflexivity|]. split; [exact HlenL|]. split.
  { unfold start_h, np_sub. rewrite broadcast2_same; [reflexivity|].
    cbn [halo_col]. rewrite length_fmap, HlenL. reflexivity. }
  split.
  { unfold stop_h, np_add. rewrite broadcast2_same; [reflexivity|].
    cbn [halo_col]. rewrite length_fmap, HlenL. symmetry. exact Hwf. }
  split; [unfold ls; rewrite length_zip_with, length_fmap; lia|].
  split; [unfold lt; rewrite length_zip_with, length_fmap; lia|].
  intros i Hi. destruct (Hin i Hi) as [Hb Hee].
  pose proof (forallb_in_int64 _ i Hrb ltac:(lia)) as Rb.
  pose proof (forallb_in_int64 _ i Hre ltac:(lia)) as Re.
  pose proof (broadcast2_wrap_range Z.sub _ _ _ i Hgs ltac:(lia)) as Rgs.
  pose proof (broadcast2_wrap_range Z.add _ _ _ i Hgt ltac:(lia)) as Rgt.
  assert (Hrow : Indexing._halo L !!! i =
            (Z.max 0 (Z.min (wrap64 (_beg e !!! i - gs !!! i)) (fst (h !!! i))),
             Z.max 0 (Z.min (wrap64 (gt !!! i - _end e !!! i)) (snd (h !!! i))))).
  { unfold L. cbn [Indexing._halo]. unfold clamp_at_zero.
    rewrite fmap_lookup_total_row by (rewrite length_zip; lia).
    rewrite zip_lookup_total by lia. cbn [fst snd].
    unfold lo, hi, room_lo, room_hi.
    rewrite !zip_with_lookup_total_Z, !fmap_lookup_total_col;
      rewrite ?length_zip_with, ?length_fmap; try lia; reflexivity. }
  assert (Hls : ls !!! i = wrap64 (_beg e !!! i - fst (Indexing._halo L !!! i))).
  { unfold ls. rewrite zip_with_lookup_total_Z, fmap_lookup_total_col;
      rewrite ?length_fmap; try lia; reflexivity. }
  assert (Hlt : lt !!! i = wrap64 (_end e !!! i + snd (Indexing._halo L !!! i))).
  { unfold lt. rewrite zip_with_lookup_total_Z, fmap_lookup_total_col;
      rewrite ?length_fmap; try lia; reflexivity. }
  rewrite Hls, Hlt, Hrow. simpl.
  pose proof (clamp_lo (_beg e !!! i) (gs !!! i) (fst (h !!! i)) Rb Rgs Hb)
    as [Hnl Hsl].
  pose proof (clamp_hi (_end e !!! i) (gt !!! i) (snd (h !!! i)) Re Rgt Hee)
    as [Hnh Hsh].
  split; [exact Hnl|]. split; [exact Hnh|]. split; [exact Hsl|].
  split; [exact Hsh|].
  intros HrG HrG' HlG HlGb HlGe Hzero.
  assert (Hz : Indexing._halo G !!! i = (0, 0)).
  { apply (Forall_lookup_total_1 _ _ i) in Hzero; auto. lia. }
  assert (Hgsi : gs !!! i = start_n G !!! i).
  { unfold start_h, np_sub, start_n in *.
    rewrite broadcast2_same in Hgs by (simpl; rewrite length_fmap; lia).
    injection Hgs as <-.
    rewrite zip_with_lookup_total_Z, fmap_lookup_total_col;
      rewrite ?length_fmap; try lia.
    rewrite Hz. simpl. rewrite Z.sub_0_r. apply wrap64_id.
    apply forallb_in_int64; auto. lia. }
  assert (Hgti : gt !!! i = stop_n G !!! i).
  { unfold stop_h, np_add, stop_n in *.
    rewrite broadcast2_same in Hgt by (simpl; rewrite length_fmap; lia).
    injection Hgt as <-.
    rewrite zip_with_lookup_total_Z, fmap_lookup_total_col;
      rewrite ?length_fmap; try lia.
    rewrite Hz. simpl. rewrite Z.add_0_r. apply wrap64_id.
    apply forallb_in_int64; auto. lia. }
  rewrite <- Hgsi, <- Hgti. split; [exact Hsl | exact Hsh].
Qed.

Lemma halo_clamped_to_globale_witness :
  exists (L : HaloIndexingExtent) (ls lt : list Z),
    HaloSubExtent_init Examples.globale_12 (Some [(3, 6)]) (HaloInt 2)
      None None = Ok L /\
    (forall rank inter_locale_rank,
       LocaleExtent_init rank inter_locale_rank Examples.globale_12
         (Some [(3, 6)]) (HaloInt 2) None None
         = Ok (mkLocaleExtent L rank inter_locale_rank)) /\
    extent L = mkIndexingExtent [3] [6] /\
    length (Indexing._halo L) = 1%nat /\
    start_h L = Ok ls /\ stop_h L = Ok lt /\
    length ls = 1%nat /\ length lt = 1%nat /\
    forall i, (i < 1)%nat ->
      0 <= fst (Indexing._halo L !!! i) /\ 0 <= snd (Indexing._halo L !!! i) /\
      [0] !!! i <= ls !!! i /\ lt !!! i <= [12] !!! i /\
      (forallb in_int64 (start_n Examples.globale_12) = true ->
       forallb in_int64 (stop_n Examples.globale_12) = true ->
       length (Indexing._halo Examples.globale_12) = 1%nat ->
       length (start_n Examples.globale_12) = 1%nat ->
       length (stop_n Examples.globale_12) = 1%nat ->
       Forall (fun row => row = (0, 0)) (Indexing._halo Examples.globale_12) ->
       start_n Examples.globale_12 !!! i <= ls !!! i /\
       lt !!! i <= stop_n Examples.globale_12 !!! i).
Proof.
  apply (halo_clamped_to_globale Examples.globale_12 (Some [(3, 6)])
           (HaloInt 2) None None (mkIndexingExtent [3] [6]) [(2, 2)]
           [0] [12]); try reflexivity.
  intros i Hi. destruct i as [|i]; [vm_compute; split; discriminate|].
  unfold ndim in Hi. simpl in Hi. lia.
Defined.

Lemma np_all_zip_eqb (l k : list Z) :
  length l = length k -> np_all (zip_with Z.eqb l k) = true <-> l = k.
Proof.
  revert k. induction l as [|x l IH]; intros [|y k] Hlen; simpl in Hlen;
    try discriminate.
  - simpl. tauto.
  - injection Hlen as Hlen. unfold np_all in *. simpl.
    rewrite andb_true_iff, (IH k Hlen). unfold id. rewrite Z.eqb_eq.
    split; [intros [-> ->]; reflexivity | intros H; inversion H; auto].
Qed.

Lemma IndexingExtent_eq_spec (x y : IndexingExtent) :
  well_formed x -> well_formed y -> ndim x = ndim y ->
  exists b, IndexingExtent_eq x y = Ok b /\ (b = true <-> x = y).
Proof.
  unfold well_formed, ndim. intros Hx Hy Hn. unfold IndexingExtent_eq, np_eq.
  rewrite (broadcast2_same Z.eqb (_beg x)) by exact Hn. simpl.
  destruct (np_all (zip_with Z.eqb (_beg x) (_beg y))) eqn:Eb.
  - rewrite (broadcast2_same Z.eqb (_end x)) by lia. simpl.
    eexists. split; [reflexivity|].
    apply np_all_zip_eqb in Eb; [|exact Hn].
    rewrite np_all_zip_eqb by lia.
    destruct x, y; simpl in *. split; [intros ->; subst; reflexivity|].
    intros H; inversion H; reflexivity.
  - exists false. split; [reflexivity|]. split; [discriminate|].
    intros ->. rewrite (proj2 (np_all_zip_eqb _ _ Hn) eq_refl) in Eb.
    discriminate.
Qed.

(** C9, as amended: two locale extents of one dimension compare equal
    exactly when they have the same interior box, the same [rank] and the
    same [inter_locale_rank]; the halo matrix takes no part in the
    comparison. *)
Theorem LocaleExtent_eq_spec (A B : LocaleExtent) :
  ndim (extent (sub_extent A)) = ndim (extent (sub_extent B)) ->
  well_formed (extent (sub_extent A)) -> well_formed (extent (sub_extent B)) ->
  exists b, LocaleExtent_eq A B = Ok b /\
    (b = true <->
     _beg (extent (sub_extent A)) = _beg (extent (sub_extent B)) /\
     _end (extent (sub_extent A)) = _end (extent (sub_extent B)) /\
     _rank A = _rank B /\ _inter_locale_rank A = _inter_locale_rank B).
Proof.
  intros Hn HA HB.
  destruct (IndexingExtent_eq_spec _ _ HA HB Hn) as (b & Hb & Hiff).
  unfold LocaleExtent_eq. rewrite Hb. simpl.
  destruct b.
  - assert (He : extent (sub_extent A) = extent (sub_extent B))
      by (apply Hiff; reflexivity).
    destruct (bool_decide (_rank A = _rank B)) eqn:Er.
    + eexists. split; [reflexivity|].
      apply bool_decide_eq_true in Er.
      rewrite bool_decide_eq_true, He. tauto.
    + exists false. split; [reflexivity|].
      apply bool_decide_eq_false in Er. split; [discriminate|]. tauto.
  - exists false. split; [reflexivity|]. split; [discriminate|].
    intros (H1 & H2 & _). assert (false = true); [|discriminate].
    apply Hiff. destruct (extent (sub_extent A)), (extent (sub_extent B)).
    simpl in *. congruence.
Qed.

Lemma LocaleExtent_eq_spec_witness :
  exists b, LocaleExtent_eq Examples.locale_3_6_halo2 Examples.locale_3_6_halo0
              = Ok b /\
    (b = true <->
     [3] = [3] /\ [6] = [6] /\ 5 = 5 /\ 1 = 1).
Proof.
  apply (LocaleExtent_eq_spec Examples.locale_3_6_halo2
           Examples.locale_3_6_halo0); reflexivity.
Defined.

(** C9 fails: both locale extents are built by [LocaleExtent.__init__] over
    [[0,12)], they differ in their halo matrices only, and they compare
    equal. *)
Lemma LocaleExtent_eq_counterexample :
  LocaleExtent_init 5 1 Examples.globale_12 (Some [(3, 6)]) (HaloInt 2)
    None None = Ok Examples.locale_3_6_halo2 /\
  LocaleExtent_init 5 1 Examples.globale_12 (Some [(3, 6)]) (HaloInt 0)
    None None = Ok Examples.locale_3_6_halo0 /\
  Indexing._halo (sub_extent Examples.locale_3_6_halo2) <>
  Indexing._halo (sub_extent Examples.locale_3_6_halo0) /\
  LocaleExtent_eq Examples.locale_3_6_halo2 Examples.locale_3_6_halo0 = Ok true.
Proof.
  split; [reflexivity|]. split; [reflexivity|]. split; [discriminate|].
  reflexivity.
Qed.

Section DefaultRank.

Variable UNDEFINED : Z.

Lemma construct_ranks (ty : ExtentType) (rank ilr : Z) (G : GlobaleExtent)
    (slice : option (list (Z * Z))) (halo : HaloSpec)
    (start stop : option (list Z)) (kwargs : option (list Z * list Z))
    (x : CreatedExtent) :
  construct ty rank ilr G slice halo start stop kwargs = Ok x ->
  _rank (created_locale x) = rank /\
  _inter_locale_rank (created_locale x) = ilr.
Proof.
  unfold construct, CartLocaleExtent_init, LocaleExtent_init.
  destruct ty, kwargs as [[cc cs]|]; try discriminate;
    destruct (HaloSubExtent_init G slice halo start stop) as [s|];
    simpl; try discriminate.
  - intros H. injection H as <-. simpl. auto.
  - destruct (np_array_int64 cc); simpl; [|discriminate].
    destruct (np_array_int64 cs); simpl; [|discriminate].
    intros H. injection H as <-. simpl. auto.
Qed.

Lemma create_locale_extent_ranks (self : DistributionConfig) (i : nat)
    (arg : LocaleArg) (G : GlobaleExtent) (halo : HaloSpec)
    (x : CreatedExtent) :
  _inter_locale_rank_to_rank self = None ->
  create_locale_extent UNDEFINED self i arg G halo = Ok x ->
  _rank (created_locale x) = UNDEFINED /\
  _inter_locale_rank (created_locale x) = Z.of_nat i.
Proof.
  intros Hnone. unfold create_locale_extent, Distribution_create_locale_extent,
    get_rank. rewrite Hnone.
  destruct (_class self) as [|m dims]; simpl.
  - destruct arg; try discriminate; apply construct_ranks.
  - destruct (coord_of_rank m i); simpl; [|discriminate].
    destruct arg; try discriminate; apply construct_ranks.
Qed.

Lemma create_all_ranks (self : DistributionConfig) (G : GlobaleExtent)
    (halo : HaloSpec) (les : list LocaleArg) :
  _inter_locale_rank_to_rank self = None ->
  forall (i : nat) (es : list CreatedExtent),
  create_all UNDEFINED self i les G halo = Ok es ->
  length es = length les /\
  forall j x, es !! j = Some x ->
    _rank (created_locale x) = UNDEFINED /\
    _inter_locale_rank (created_locale x) = Z.of_nat (i + j).
Proof.
  intros Hnone. induction les as [|a les IH]; intros i es; simpl.
  - intros H. injection H as <-. split; [reflexivity|].
    intros j x Hj. discriminate.
  - destruct (create_locale_extent UNDEFINED self i a G halo) as [e|] eqn:Ee;
      simpl; [|discriminate].
    destruct (create_all UNDEFINED self (S i) les G halo) as [es'|] eqn:Es;
      simpl; [|discriminate].
    intros H. injection H as <-.
    destruct (IH (S i) es' Es) as [Hlen Hall].
    split; [simpl; congruence|].
    intros [|j] x Hj; simpl in Hj.
    + injection Hj as <-. rewrite Nat.add_0_r.
      apply (create_locale_extent_ranks self i a G halo); auto.
    + replace (i + S j)%nat with (S i + j)%nat by lia. apply Hall. exact Hj.
Qed.

End DefaultRank.

(** C10: without a rank map [get_rank] returns [MPI.UNDEFINED] for every
    inter-locale rank, and every locale extent that [create_locale_extent]
    or [Distribution.__init__] creates carries that value as its [rank] and
    its own position as its [inter_locale_rank]. *)
Theorem default_rank_is_undefined (UNDEFINED : Z) (cls : DistributionClass)
    (ty : ExtentType) :
  (forall r, get_rank UNDEFINED (mkDistributionConfig cls ty None) r
             = Ok UNDEFINED) /\
  (forall i arg G halo x,
     create_locale_extent UNDEFINED (mkDistributionConfig cls ty None)
       i arg G halo = Ok x ->
     _rank (created_locale x) = UNDEFINED /\
     _inter_locale_rank (created_locale x) = Z.of_nat i) /\
  (forall g les halo d,
     Distribution_init UNDEFINED cls g les halo ty None = Ok d ->
     length (_locale_extents d) = length les /\
     forall i x, _locale_extents d !! i = Some x ->
       _rank (created_locale x) = UNDEFINED /\
       _inter_locale_rank (created_locale x) = Z.of_nat i).
Proof.
  split; [reflexivity|]. split.
  - intros i arg G halo x. apply create_locale_extent_ranks. reflexivity.
  - intros g les halo d. unfold Distribution_init.
    destruct (create_globale_extent g) as [G|]; simpl; [|discriminate].
    destruct (convert_halo_to_array_form halo (ndim (extent G))) as [h|];
      simpl; [|discriminate].
    destruct (create_all UNDEFINED _ 0 les G halo) as [es|] eqn:Es;
      simpl; [|discriminate].
    intros H. injection H as <-. simpl.
    apply (create_all_ranks UNDEFINED (mkDistributionConfig cls ty None)
             G halo les eq_refl 0%nat es Es).
Qed.

(** With [locale_extent_type=GlobaleExtent], the default of
    [Distribution.__init__], no locale extent is created: the constructor
    does not take the rank keywords. *)
Remark create_locale_extent_default_type (UNDEFINED : Z)
    (cls : DistributionClass) (m : option (list Z)) (i : nat)
    (arg : LocaleArg) (G : GlobaleExtent) (halo : HaloSpec)
    (x : CreatedExtent) :
  create_locale_extent UNDEFINED (mkDistributionConfig cls GlobaleExtentT m)
    i arg G halo <> Ok x.
Proof.
  unfold create_locale_extent, Distribution_create_locale_extent.
  cbn [_class _locale_extent_type].
  destruct cls as [|cm dims].
  - destruct (get_rank UNDEFINED _ i); [|discriminate].
    cbn [mbind result_bind]. destruct arg; discriminate.
  - destruct (coord_of_rank cm i); [|discriminate].
    cbn [mbind result_bind].
    destruct (get_rank UNDEFINED _ i); [|discriminate].
    cbn [mbind result_bind]. destruct arg; discriminate.
Qed.

Lemma default_rank_is_undefined_witness :
  Distribution_init Examples.mpi_undefined PlainDistribution
    (GArgShape [12]) Examples.halves_12 (HaloInt 2) LocaleExtentT None
    = Ok Examples.distribution_12 /\
  _rank Examples.locale_6_12 = Examples.mpi_undefined /\
  _inter_locale_rank Examples.locale_6_12 = 1.
Proof.
  split; [reflexivity|].
  apply (proj2 (proj2 (proj2 (default_rank_is_undefined
           Examples.mpi_undefined PlainDistribution LocaleExtentT))
           (GArgShape [12]) Examples.halves_12 (HaloInt 2)
           Examples.distribution_12 eq_refl) 1%nat
           (IsLocale Examples.locale_6_12) eq_refl).
Defined.

(** ** The halo-update planner ([decomposition.py]) *)

Import Decomposition.

(** *** The shared bucket store *)

Lemma updates_get_shared (n a : nat) (dir : Side)
    (lo hi : list SingleExtentUpdate) :
  (a < n)%nat ->
  updates_get (shared_updates n lo hi) a dir
    = Ok (match dir with LO => lo | HI => hi end).
Proof.
  intros Ha. unfold updates_get, shared_updates. simpl.
  rewrite (getitem_lookup _ a 0%nat) by (apply lookup_replicate_2; exact Ha).
  destruct dir; reflexivity.
Qed.

Lemma updates_iadd_shared (n a : nat) (dir : Side)
    (lo hi xs : list SingleExtentUpdate) :
  (a < n)%nat ->
  updates_iadd (shared_updates n lo hi) a dir xs
    = Ok (match dir with
          | LO => shared_updates n (lo ++ xs) hi
          | HI => shared_updates n lo (hi ++ xs)
          end).
Proof.
  intros Ha. unfold updates_iadd, shared_updates. simpl.
  rewrite (getitem_lookup _ a 0%nat) by (apply lookup_replicate_2; exact Ha).
  destruct dir; reflexivity.
Qed.

(** The inner loop appends the records of [walk_records] to the bucket of
    its side, whatever the axis. *)
Lemma walk_loop_shared (dst : DecompExtent) (cd : gmap (list Z) DecompExtent)
    (n a : nat) (dir : Side) (steps : list Z) :
  (a < n)%nat ->
  forall lo hi : list SingleExtentUpdate,
  for_each_break (walk_body dst cd a dir) steps (shared_updates n lo hi) =
    rs ← walk_records dst cd a dir steps;
    mret (match dir with
          | LO => shared_updates n (lo ++ rs) hi
          | HI => shared_updates n lo (hi ++ rs)
          end).
Proof.
  intros Ha. induction steps as [|i steps IH]; intros lo hi.
  - simpl. rewrite !app_nil_r. destruct dir; reflexivity.
  - cbn [for_each_break walk_records].
    set (loop := for_each_break (walk_body dst cd a dir) steps) in *.
    unfold walk_body.
    destruct (getitem (_cart_coord dst) a) as [c|]; [|reflexivity].
    cbn [mbind result_bind].
    destruct (setitem (_cart_coord dst) a (wrap64 (c + i))) as [sc|];
      [|reflexivity].
    cbn [mbind result_bind].
    destruct (cd !! sc) as [src|]; [|reflexivity].
    cbn [mbind result_bind].
    destruct (calc_halo_intersection dst src a dir) as [[h|]|]; [| |reflexivity].
    + cbn [mbind result_bind]. rewrite updates_iadd_shared by exact Ha.
      unfold split_extent_for_max_elements.
      destruct dir; cbn [mbind result_bind mret result_ret]; rewrite IH;
        clear loop IH;
        destruct (walk_records dst cd a _ steps) as [rs|];
        cbn [mbind result_bind mret result_ret];
        rewrite <- ?app_assoc; reflexivity.
    + cbn [mbind result_bind mret result_ret]. rewrite !app_nil_r.
      destruct dir; reflexivity.
Qed.

Lemma axis_loop_shared (dst : DecompExtent) (cd : gmap (list Z) DecompExtent)
    (n : nat) (dir : Side) (axes : list nat) :
  Forall (fun a => a < n)%nat axes ->
  forall lo hi : list SingleExtentUpdate,
  for_each (axis_body dst cd dir) axes (shared_updates n lo hi) =
    rs ← side_records dst cd dir axes;
    mret (match dir with
          | LO => shared_updates n (lo ++ rs) hi
          | HI => shared_updates n lo (hi ++ rs)
          end).
Proof.
  induction axes as [|a axes IH]; intros Hall lo hi.
  - simpl. rewrite !app_nil_r. destruct dir; reflexivity.
  - inversion Hall as [|? ? Ha Hrest]; subst.
    cbn [for_each side_records]. unfold axis_body, axis_records.
    destruct (i_range dst a dir) as [steps|]; [|reflexivity].
    cbn [mbind result_bind]. rewrite walk_loop_shared by exact Ha.
    destruct (walk_records dst cd a dir steps) as [rs|]; [|reflexivity].
    cbn [mbind result_bind mret result_ret].
    destruct dir; rewrite (IH Hrest);
      destruct (side_records dst cd _ axes) as [rest|];
      cbn [mbind result_bind mret result_ret];
      rewrite <- ?app_assoc; reflexivity.
Qed.

Lemma Forall_seq_lt (n : nat) : Forall (fun a => a < n)%nat (seq 0 n).
Proof. apply Forall_forall. intros a Ha. apply elem_of_seq in Ha. lia. Qed.

(** [initialise] in closed form: each of the two bucket objects receives the
    records of its side for all axes. *)
Lemma initialise_shared (dst_rank : Z) (d : list (Z * DecompExtent)) :
  initialise dst_rank d =
    dst ← dict_get d dst_rank;
    lo ← side_records dst (cart_coord_to_extents d) LO
           (seq 0 (ndim (extent (halo_extent dst))));
    hi ← side_records dst (cart_coord_to_extents d) HI
           (seq 0 (ndim (extent (halo_extent dst))));
    mret (mkHalosUpdate dst_rank dst
            (shared_updates (ndim (extent (halo_extent dst))) lo hi)).
Proof.
  unfold initialise. destruct (dict_get d dst_rank) as [dst|]; [|reflexivity].
  cbn [mbind result_bind for_each].
  set (n := ndim (extent (halo_extent dst))).
  change (new_updates n) with (shared_updates n [] []).
  rewrite axis_loop_shared by apply Forall_seq_lt.
  destruct (side_records dst _ LO (seq 0 n)) as [lo|]; [|reflexivity].
  cbn [mbind result_bind mret result_ret app].
  rewrite axis_loop_shared by apply Forall_seq_lt.
  destruct (side_records dst _ HI (seq 0 n)) as [hi|]; reflexivity.
Qed.

(** *** Slabs, trimmed extents and their intersection *)

Lemma calc_intersection_None_iff (x y : IndexingExtent) :
  well_formed x -> well_formed y -> ndim x = ndim y ->
  calc_intersection x y = Ok None <->
  exists i, (i < ndim x)%nat /\
    Z.max (_beg x !!! i) (_beg y !!! i) >= Z.min (_end x !!! i) (_end y !!! i).
Proof.
  intros Hx Hy Hn. rewrite calc_intersection_same_ndim by auto.
  assert (Hlen : length (_beg (meet x y)) = length (_end (meet x y))).
  { simpl. rewrite !length_zip_with. unfold well_formed, ndim in *. lia. }
  assert (Hlb : length (_beg (meet x y)) = ndim x).
  { simpl. rewrite length_zip_with. unfold ndim in *. lia. }
  destruct (np_any _) eqn:Hany.
  - split; [intros _|reflexivity].
    apply np_any_zip_ge in Hany as (i & Hi & Hge); [|exact Hlen].
    exists i. split; [lia|].
    rewrite meet_beg_total, meet_end_total in Hge;
      unfold well_formed, ndim in *; try lia.
  - split; [discriminate|]. intros (i & Hi & Hge). exfalso.
    pose proof (proj1 (np_any_zip_ge_false _ _ Hlen) Hany i ltac:(lia)) as Hlt.
    rewrite meet_beg_total, meet_end_total in Hlt;
      unfold well_formed, ndim in *; try lia.
Qed.

Lemma contains_meet (x y : IndexingExtent) (p : list Z) :
  well_formed x -> well_formed y -> ndim x = ndim y ->
  contains (meet x y) p = true <->
  contains x p = true /\ contains y p = true.
Proof.
  unfold well_formed, ndim. intros Hx Hy Hn. unfold contains.
  rewrite !in_box_spec. cbn [_beg _end meet].
  rewrite !length_zip_with.
  assert (Hpt : forall i, (i < length (_beg x))%nat ->
            zip_with Z.max (_beg x) (_beg y) !!! i
              = Z.max (_beg x !!! i) (_beg y !!! i) /\
            zip_with Z.min (_end x) (_end y) !!! i
              = Z.min (_end x !!! i) (_end y !!! i)).
  { intros i Hi. split; apply lookup_total_zip_with; lia. }
  split.
  - intros (H1 & H2 & H3).
    split; (split; [lia|]); (split; [lia|]); intros i Hi;
      specialize (H3 i ltac:(lia));
      destruct (Hpt i ltac:(lia)) as [Hb He]; rewrite Hb, He in H3; lia.
  - intros ((H1 & H2 & H3) & (H4 & H5 & H6)).
    split; [lia|]. split; [lia|]. intros i Hi.
    specialize (H3 i ltac:(lia)). specialize (H6 i ltac:(lia)).
    destruct (Hpt i ltac:(lia)) as [Hb He]. rewrite Hb, He. lia.
Qed.

Lemma start_h_tile (x : DecompExtent) :
  tile_ok x ->
  exists v, start_h (halo_extent x) = Ok v /\ length v = length (dbeg x) /\
    forall i, (i < length (dbeg x))%nat -> v !!! i = start_h_at x i.
Proof.
  intros (He & Hh & _ & _). unfold start_h, np_sub.
  rewrite broadcast2_same by (cbn [halo_col]; rewrite length_fmap; exact (eq_sym Hh)).
  eexists. split; [reflexivity|]. split.
  - cbn [halo_col]. rewrite length_zip_with, length_fmap.
    unfold dbeg, dhalo in *. lia.
  - intros i Hi. cbn [halo_col]. unfold start_h_at, dbeg, dhalo in *.
    rewrite zip_with_lookup_total_Z, fmap_lookup_total_col;
      rewrite ?length_fmap; try lia; reflexivity.
Qed.

Lemma stop_h_tile (x : DecompExtent) :
  tile_ok x ->
  exists v, stop_h (halo_extent x) = Ok v /\ length v = length (dbeg x) /\
    forall i, (i < length (dbeg x))%nat -> v !!! i = stop_h_at x i.
Proof.
  intros (He & Hh & _ & _). unfold stop_h, np_add.
  rewrite broadcast2_same
    by (cbn [halo_col]; rewrite length_fmap; unfold dend, dbeg, dhalo in *; lia).
  eexists. split; [reflexivity|]. split.
  - cbn [halo_col]. rewrite length_zip_with, length_fmap.
    unfold dbeg, dend, dhalo in *. lia.
  - intros i Hi. cbn [halo_col]. unfold stop_h_at, dbeg, dend, dhalo in *.
    rewrite zip_with_lookup_total_Z, fmap_lookup_total_col;
      rewrite ?length_fmap; try lia; reflexivity.
Qed.

Lemma halo_at_tile (x : DecompExtent) (a : nat) (dir : Side) :
  tile_ok x -> (a < length (dbeg x))%nat ->
  halo_at (dhalo x) a dir =
    Ok (match dir with LO => fst (dhalo x !!! a) | HI => snd (dhalo x !!! a) end).
Proof.
  intros (_ & Hh & _ & _) Ha. unfold halo_at.
  rewrite (getitem_lookup _ a (dhalo x !!! a))
    by (apply list_lookup_lookup_total_lt; lia).
  reflexivity.
Qed.

(** The slab of [x] on side [dir] of axis [a]: the with-halo box everywhere
    but on [a], where it is the strip between the with-halo bound and the
    interior. *)
Lemma halo_slab_extent_spec (x : DecompExtent) (a : nat) (dir : Side) :
  tile_ok x -> (a < length (dbeg x))%nat ->
  exists s, halo_slab_extent x a dir = Ok s /\
    length (_beg s) = length (dbeg x) /\ length (_end s) = length (dbeg x) /\
    forall i, (i < length (dbeg x))%nat ->
      (_beg s !!! i, _end s !!! i) =
      if decide (i = a) then
        match dir with
        | LO => (start_h_at x a, dbeg x !!! a)
        | HI => (dend x !!! a, stop_h_at x a)
        end
      else (start_h_at x i, stop_h_at x i).
Proof.
  intros Hok Ha.
  destruct (start_h_tile x Hok) as (sh & Hsh & Hlsh & Hsh_at).
  destruct (stop_h_tile x Hok) as (st & Hst & Hlst & Hst_at).
  destruct Hok as (He & Hh & Rb & Re).
  unfold halo_slab_extent. rewrite Hsh, Hst. cbn [mbind result_bind].
  destruct dir.
  - rewrite (getitem_total sh) by lia. cbn [mbind result_bind].
    rewrite halo_at_tile by (auto; repeat split; auto).
    cbn [mbind result_bind]. rewrite setitem_lt by lia.
    cbn [mbind result_bind mret result_ret].
    eexists. split; [reflexivity|]. cbn [_beg _end].
    rewrite length_insert. split; [lia|]. split; [lia|].
    intros i Hi. destruct (decide (i = a)) as [->|Hne].
    + rewrite list_lookup_total_insert_eq by lia.
      rewrite !Hsh_at by lia. unfold start_h_at.
      rewrite wrap64_sub_add by (apply forallb_in_int64; auto). reflexivity.
    + rewrite list_lookup_total_insert_ne by auto.
      rewrite Hsh_at, Hst_at by lia. reflexivity.
  - rewrite (getitem_total st) by lia. cbn [mbind result_bind].
    rewrite halo_at_tile by (auto; repeat split; auto).
    cbn [mbind result_bind]. rewrite setitem_lt by lia.
    cbn [mbind result_bind mret result_ret].
    eexists. split; [reflexivity|]. cbn [_beg _end].
    rewrite length_insert. split; [lia|]. split; [lia|].
    intros i Hi. destruct (decide (i = a)) as [->|Hne].
    + rewrite list_lookup_total_insert_eq by lia.
      rewrite !Hst_at by lia. unfold stop_h_at.
      rewrite wrap64_add_sub
        by (apply forallb_in_int64; auto; unfold dend, dbeg in *; lia).
      reflexivity.
    + rewrite list_lookup_total_insert_ne by auto.
      rewrite Hsh_at, Hst_at by lia. reflexivity.
Qed.

(** The extent of [x] with the halo trimmed on axis [a]: the with-halo box
    everywhere but on [a], where it is the interior. *)
Lemma no_halo_extent_spec (x : DecompExtent) (a : nat) :
  tile_ok x -> (a < length (dbeg x))%nat ->
  exists s, no_halo_extent x (Some a) = Ok s /\
    length (_beg s) = length (dbeg x) /\ length (_end s) = length (dbeg x) /\
    forall i, (i < length (dbeg x))%nat ->
      (_beg s !!! i, _end s !!! i) =
      if decide (i = a) then (dbeg x !!! a, dend x !!! a)
      else (start_h_at x i, stop_h_at x i).
Proof.
  intros Hok Ha.
  destruct (start_h_tile x Hok) as (sh & Hsh & Hlsh & Hsh_at).
  destruct (stop_h_tile x Hok) as (st & Hst & Hlst & Hst_at).
  pose proof Hok as (He & Hh & Rb & Re).
  unfold no_halo_extent. rewrite Hsh, Hst. cbn [mbind result_bind].
  rewrite (getitem_total sh) by lia. cbn [mbind result_bind].
  rewrite (halo_at_tile x a LO) by auto. cbn [mbind result_bind].
  rewrite (setitem_lt sh) by lia. cbn [mbind result_bind].
  rewrite (getitem_total st) by lia. cbn [mbind result_bind].
  rewrite (halo_at_tile x a HI) by auto. cbn [mbind result_bind].
  rewrite (setitem_lt st) by lia. cbn [mbind result_bind mret result_ret].
  eexists. split; [reflexivity|]. cbn [_beg _end].
  rewrite !length_insert. split; [lia|]. split; [lia|].
  intros i Hi. destruct (decide (i = a)) as [->|Hne].
  - rewrite !list_lookup_total_insert_eq by lia.
    rewrite Hsh_at, Hst_at by lia. unfold start_h_at, stop_h_at.
    rewrite wrap64_sub_add by (apply forallb_in_int64; auto).
    rewrite wrap64_add_sub
      by (apply forallb_in_int64; auto; unfold dend, dbeg in *; lia).
    reflexivity.
  - rewrite !list_lookup_total_insert_ne by auto.
    rewrite Hsh_at, Hst_at by lia. reflexivity.
Qed.

(** The with-halo box of [x], as [no_halo_extent(None)] gives it. *)
Lemma with_halo_extent_spec (x : DecompExtent) :
  tile_ok x ->
  exists s, no_halo_extent x None = Ok s /\
    length (_beg s) = length (dbeg x) /\ length (_end s) = length (dbeg x) /\
    forall i, (i < length (dbeg x))%nat ->
      (_beg s !!! i, _end s !!! i) = (start_h_at x i, stop_h_at x i).
Proof.
  intros Hok.
  destruct (start_h_tile x Hok) as (sh & Hsh & Hlsh & Hsh_at).
  destruct (stop_h_tile x Hok) as (st & Hst & Hlst & Hst_at).
  unfold no_halo_extent. rewrite Hsh, Hst. cbn [mbind result_bind mret result_ret].
  eexists. split; [reflexivity|]. cbn [_beg _end].
  split; [lia|]. split; [lia|]. intros i Hi.
  rewrite Hsh_at, Hst_at by lia. reflexivity.
Qed.

Lemma getitem_Ok {T : Type} (l : list T) (i : nat) (x : T) :
  getitem l i = Ok x -> l !! i = Some x.
Proof. unfold getitem. destruct (l !! i); intros H; inversion H; auto. Qed.

Lemma setitem_Ok {T : Type} (l r : list T) (i : nat) (x : T) :
  setitem l i x = Ok r -> r = <[i:=x]> l /\ (i < length l)%nat.
Proof.
  unfold setitem. destruct (decide _); intros H; inversion H; auto.
Qed.

(** Every record of a walk pairs [dst] with a neighbour on the walked line
    and carries their overlap. *)
Lemma walk_records_In (dst : DecompExtent) (cd : gmap (list Z) DecompExtent)
    (a : nat) (dir : Side) (steps : list Z) :
  forall (rs : list SingleExtentUpdate) (r : SingleExtentUpdate),
  walk_records dst cd a dir steps = Ok rs -> In r rs ->
  _dst_extent r = dst /\
  exists i, In i steps /\
    neighbour dst cd a i = Some (_src_extent r) /\
    calc_halo_intersection dst (_src_extent r) a dir
      = Ok (Some (_update_extent r)).
Proof.
  induction steps as [|i steps IH]; intros rs r Hrun Hin.
  - simpl in Hrun. injection Hrun as <-. destruct Hin.
  - cbn [walk_records] in Hrun.
    destruct (getitem (_cart_coord dst) a) as [c|] eqn:Hc; [|discriminate].
    cbn [mbind result_bind] in Hrun.
    destruct (setitem (_cart_coord dst) a (wrap64 (c + i))) as [sc|] eqn:Hsc;
      [|discriminate].
    cbn [mbind result_bind] in Hrun.
    destruct (cd !! sc) as [src|] eqn:Hsrc; [|discriminate].
    cbn [mbind result_bind] in Hrun.
    destruct (calc_halo_intersection dst src a dir) as [[h|]|] eqn:Hh;
      [| |discriminate]; cbn [mbind result_bind mret result_ret] in Hrun.
    + destruct (walk_records dst cd a dir steps) as [rest|] eqn:Hrest;
        [|discriminate].
      cbn [mbind result_bind mret result_ret] in Hrun.
      injection Hrun as <-. destruct Hin as [<-|Hin].
      * split; [reflexivity|]. exists i. split; [left; reflexivity|].
        cbn [_src_extent _update_extent]. split; [|exact Hh].
        unfold neighbour. apply getitem_Ok in Hc. rewrite Hc.
        apply setitem_Ok in Hsc as [-> _]. exact Hsrc.
      * destruct (IH rest r eq_refl Hin) as (Hd & j & Hj & Hn & Ho).
        split; [exact Hd|]. exists j. split; [right; exact Hj|]. auto.
    + injection Hrun as <-. destruct Hin.
Qed.

Lemma side_records_In (dst : DecompExtent) (cd : gmap (list Z) DecompExtent)
    (dir : Side) (axes : list nat) :
  forall (rs : list SingleExtentUpdate) (r : SingleExtentUpdate),
  side_records dst cd dir axes = Ok rs -> In r rs ->
  exists ax rs', In ax axes /\ axis_records dst cd dir ax = Ok rs' /\ In r rs'.
Proof.
  induction axes as [|a axes IH]; intros rs r Hrun Hin.
  - simpl in Hrun. injection Hrun as <-. destruct Hin.
  - cbn [side_records] in Hrun.
    destruct (axis_records dst cd dir a) as [ra|] eqn:Ha; [|discriminate].
    cbn [mbind result_bind] in Hrun.
    destruct (side_records dst cd dir axes) as [rest|] eqn:Hrest;
      [|discriminate].
    cbn [mbind result_bind mret result_ret] in Hrun. injection Hrun as <-.
    apply List.in_app_or in Hin as [Hin|Hin].
    + exists a, ra. split; [left; reflexivity|]. auto.
    + destruct (IH rest r eq_refl Hin) as (ax & rs' & Hax & Hrs' & Hr).
      exists ax, rs'. split; [right; exact Hax|]. auto.
Qed.

(** The coordinate dict holds tiles of the rank dict only. *)
Lemma cart_coord_to_extents_In (d : list (Z * DecompExtent)) (c : list Z)
    (v : DecompExtent) :
  cart_coord_to_extents d !! c = Some v -> exists k, In (k, v) d.
Proof.
  unfold cart_coord_to_extents.
  assert (Hgen : forall (m : gmap (list Z) DecompExtent),
            foldl (fun m kv => <[_cart_coord (snd kv) := snd kv]> m) m d !! c
              = Some v ->
            m !! c = Some v \/ exists k, In (k, v) d).
  { induction d as [|[k x] d IH]; intros m; simpl; [auto|].
    intros H. destruct (IH _ H) as [Hm|(k' & Hk')].
    - destruct (decide (_cart_coord x = c)) as [<-|Hne].
      + rewrite lookup_insert_eq in Hm. injection Hm as ->.
        right. exists k. left. reflexivity.
      + rewrite lookup_insert_ne in Hm by exact Hne. left. exact Hm.
    - right. exists k'. right. exact Hk'. }
  intros H. destruct (Hgen ∅ H) as [Hm|Hk]; [|exact Hk].
  rewrite lookup_empty in Hm. discriminate.
Qed.

Lemma neighbour_in_dict (dst : DecompExtent) (d : list (Z * DecompExtent))
    (a : nat) (i : Z) (s : DecompExtent) :
  neighbour dst (cart_coord_to_extents d) a i = Some s ->
  exists k, In (k, s) d.
Proof.
  unfold neighbour. destruct (_cart_coord dst !! a); [|discriminate].
  apply cart_coord_to_extents_In.
Qed.

(** The overlap of a slab with a trimmed neighbour, when present, is the
    set of indices common to both. *)
Lemma calc_halo_intersection_spec (dst src : DecompExtent) (a : nat)
    (dir : Side) :
  tile_ok dst -> tile_ok src -> length (dbeg src) = length (dbeg dst) ->
  (a < length (dbeg dst))%nat ->
  exists slab nh,
    halo_slab_extent dst a dir = Ok slab /\
    no_halo_extent src (Some a) = Ok nh /\
    well_formed slab /\ well_formed nh /\
    ndim slab = length (dbeg dst) /\ ndim nh = length (dbeg dst) /\
    calc_halo_intersection dst src a dir = calc_intersection slab nh /\
    (forall i, (i < length (dbeg dst))%nat ->
       (_beg slab !!! i, _end slab !!! i) =
       if decide (i = a) then
         match dir with
         | LO => (start_h_at dst a, dbeg dst !!! a)
         | HI => (dend dst !!! a, stop_h_at dst a)
         end
       else (start_h_at dst i, stop_h_at dst i)) /\
    (forall i, (i < length (dbeg dst))%nat ->
       (_beg nh !!! i, _end nh !!! i) =
       if decide (i = a) then (dbeg src !!! a, dend src !!! a)
       else (start_h_at src i, stop_h_at src i)).
Proof.
  intros Hd Hs Hlen Ha.
  destruct (halo_slab_extent_spec dst a dir Hd Ha)
    as (slab & Hslab & Hb1 & He1 & Hpt1).
  destruct (no_halo_extent_spec src a Hs ltac:(lia))
    as (nh & Hnh & Hb2 & He2 & Hpt2).
  exists slab, nh. split; [exact Hslab|]. split; [exact Hnh|].
  unfold well_formed, ndim.
  split; [lia|]. split; [lia|]. split; [lia|]. split; [lia|]. split.
  - unfold calc_halo_intersection. rewrite Hslab, Hnh. reflexivity.
  - split; [exact Hpt1|]. intros i Hi. apply Hpt2. lia.
Qed.

(** The overlap of a record lies in the halo region of the destination and
    in the neighbour's extent trimmed on the walked axis. *)
Lemma overlap_within (dst src : DecompExtent) (a : nat) (dir : Side)
    (h : IndexingExtent) :
  tile_ok dst -> tile_ok src -> length (dbeg src) = length (dbeg dst) ->
  (a < length (dbeg dst))%nat -> halo_around dst a ->
  calc_halo_intersection dst src a dir = Ok (Some h) ->
  exists wh nh,
    no_halo_extent dst None = Ok wh /\
    no_halo_extent src (Some a) = Ok nh /\
    forall p, contains h p = true ->
      contains wh p = true /\
      contains (extent (halo_extent dst)) p = false /\
      contains nh p = true.
Proof.
  intros Hd Hs Hlen Ha (Hr1 & Hr2 & Hr3) Hh.
  destruct (calc_halo_intersection_spec dst src a dir Hd Hs Hlen Ha)
    as (slab & nh & Hslab & Hnh & Hw1 & Hw2 & Hn1 & Hn2 & Hcalc & Hpt1 & Hpt2).
  destruct (with_halo_extent_spec dst Hd) as (wh & Hwh & Hbw & Hew & Hptw).
  exists wh, nh. split; [exact Hwh|]. split; [exact Hnh|].
  rewrite Hcalc in Hh.
  destruct (calc_intersection_Some slab nh h Hw1 Hw2 ltac:(lia) Hh) as [-> _].
  intros p Hp. apply contains_meet in Hp as [Hps Hpn]; auto; [|lia].
  split; [|split; [|exact Hpn]].
  - unfold contains in *. rewrite in_box_spec in *.
    destruct Hps as (Hl1 & Hl2 & Hps). unfold ndim in *.
    split; [lia|]. split; [lia|]. intros i Hi.
    specialize (Hps i ltac:(lia)).
    pose proof (Hpt1 i ltac:(lia)) as E1. pose proof (Hptw i ltac:(lia)) as Ew.
    injection Ew as -> ->.
    destruct (decide (i = a)) as [->|Hne].
    + destruct dir; injection E1 as Eb Ee; rewrite Eb, Ee in Hps; lia.
    + injection E1 as Eb Ee. rewrite Eb, Ee in Hps. exact Hps.
  - apply not_true_iff_false. intros Hint.
    unfold contains in *. rewrite in_box_spec in *.
    destruct Hps as (Hl1 & Hl2 & Hps). destruct Hint as (_ & _ & Hint).
    unfold ndim, dbeg, dend in *.
    specialize (Hps a ltac:(lia)). specialize (Hint a ltac:(lia)).
    pose proof (Hpt1 a ltac:(lia)) as E1. rewrite decide_True in E1 by auto.
    destruct dir; injection E1 as Eb Ee; rewrite Eb, Ee in Hps; lia.
Qed.

Lemma updates_get_shared_Ok (n a : nat) (dir : Side)
    (lo hi rs : list SingleExtentUpdate) :
  updates_get (shared_updates n lo hi) a dir = Ok rs ->
  (a < n)%nat /\ rs = match dir with LO => lo | HI => hi end.
Proof.
  intros H. destruct (decide (a < n)%nat) as [Ha|Ha].
  - rewrite updates_get_shared in H by exact Ha. injection H as <-. auto.
  - exfalso. unfold updates_get, shared_updates in H.
    assert (Hout : getitem (replicate n 0%nat) a = Raise IndexError).
    { unfold getitem.
      rewrite (proj1 (lookup_replicate_None n 0%nat a)) by lia. reflexivity. }
    cbn [outer] in H. rewrite Hout in H. discriminate.
Qed.

(** The records found in any bucket come from the walk of some axis. *)
Lemma bucket_record_origin (dst_rank : Z) (d : list (Z * DecompExtent))
    (hu : HalosUpdate) (a : nat) (dir : Side) (rs : list SingleExtentUpdate)
    (r : SingleExtentUpdate) :
  initialise dst_rank d = Ok hu ->
  updates_get (_updates hu) a dir = Ok rs -> In r rs ->
  dict_get d dst_rank = Ok (_dst hu) /\
  _dst_extent r = _dst hu /\
  exists (ax : nat) (i : Z),
    (ax < ndim (extent (halo_extent (_dst hu))))%nat /\
    neighbour (_dst hu) (cart_coord_to_extents d) ax i = Some (_src_extent r) /\
    calc_halo_intersection (_dst hu) (_src_extent r) ax dir
      = Ok (Some (_update_extent r)).
Proof.
  rewrite initialise_shared. intros Hinit Hget Hin.
  destruct (dict_get d dst_rank) as [dst|] eqn:Hdst; [|discriminate].
  cbn [mbind result_bind] in Hinit.
  destruct (side_records dst _ LO _) as [lo|] eqn:Hlo; [|discriminate].
  cbn [mbind result_bind] in Hinit.
  destruct (side_records dst _ HI _) as [hi|] eqn:Hhi; [|discriminate].
  cbn [mbind result_bind mret result_ret] in Hinit. injection Hinit as <-.
  cbn [_dst _updates] in *.
  apply updates_get_shared_Ok in Hget as [Ha ->].
  split; [reflexivity|].
  assert (Hside : side_records dst (cart_coord_to_extents d) dir
            (seq 0 (ndim (extent (halo_extent dst))))
            = Ok (match dir with LO => lo | HI => hi end))
    by (destruct dir; assumption).
  destruct (side_records_In _ _ _ _ _ r Hside Hin) as (ax & rs' & Hax & Hrs' & Hr).
  unfold axis_records in Hrs'.
  destruct (i_range dst ax dir) as [steps|]; [|discriminate].
  cbn [mbind result_bind] in Hrs'.
  destruct (walk_records_In _ _ _ _ _ _ r Hrs' Hr) as (Hd & i & _ & Hn & Ho).
  split; [exact Hd|]. exists ax, i.
  split; [apply list_elem_of_In, elem_of_seq in Hax; lia|]. auto.
Qed.

(** Along the walked axis an overlap lies in the interior of the source,
    and on every other axis inside the bounds of the source with its halo. *)
Lemma overlap_source_bounds (dst src : DecompExtent) (a : nat) (dir : Side)
    (h : IndexingExtent) (p : list Z) :
  tile_ok dst -> tile_ok src -> length (dbeg src) = length (dbeg dst) ->
  (a < length (dbeg dst))%nat ->
  calc_halo_intersection dst src a dir = Ok (Some h) ->
  contains h p = true ->
  dbeg src !!! a <= p !!! a < dend src !!! a /\
  forall j, (j < length (dbeg dst))%nat -> j <> a ->
    start_h_at src j <= p !!! j < stop_h_at src j.
Proof.
  intros Hd Hs Hlen Ha Hh Hp.
  destruct (calc_halo_intersection_spec dst src a dir Hd Hs Hlen Ha)
    as (slab & nh & Hslab & Hnh & Hw1 & Hw2 & Hn1 & Hn2 & Hcalc & Hpt1 & Hpt2).
  rewrite Hcalc in Hh.
  destruct (calc_intersection_Some slab nh h Hw1 Hw2 ltac:(lia) Hh) as [-> _].
  apply contains_meet in Hp as [_ Hpn]; auto; [|lia].
  unfold contains in Hpn. rewrite in_box_spec in Hpn. unfold ndim in *.
  destruct Hpn as (_ & _ & Hpn). split.
  - specialize (Hpn a ltac:(lia)). pose proof (Hpt2 a Ha) as E.
    rewrite decide_True in E by reflexivity.
    injection E as Eb Ee. rewrite Eb, Ee in Hpn. exact Hpn.
  - intros j Hj Hne. specialize (Hpn j ltac:(lia)).
    pose proof (Hpt2 j Hj) as E. rewrite decide_False in E by exact Hne.
    injection E as Eb Ee. rewrite Eb, Ee in Hpn. exact Hpn.
Qed.

(** A record found in any bucket was appended by the walk of some axis
    [ax]: it is one of the records of that walk, its source is the
    neighbour the walk visited at some offset, and its overlap is what
    [calc_halo_intersection] returned for the axis [ax]. *)
Lemma bucket_record_walk (dst_rank : Z) (d : list (Z * DecompExtent))
    (hu : HalosUpdate) (a : nat) (dir : Side) (rs : list SingleExtentUpdate)
    (r : SingleExtentUpdate) :
  initialise dst_rank d = Ok hu ->
  updates_get (_updates hu) a dir = Ok rs -> In r rs ->
  _dst_extent r = _dst hu /\
  exists (ax : nat) (walk : list SingleExtentUpdate) (i : Z),
    (ax < ndim (extent (halo_extent (_dst hu))))%nat /\
    axis_records (_dst hu) (cart_coord_to_extents d) dir ax = Ok walk /\
    In r walk /\
    neighbour (_dst hu) (cart_coord_to_extents d) ax i = Some (_src_extent r) /\
    calc_halo_intersection (_dst hu) (_src_extent r) ax dir
      = Ok (Some (_update_extent r)).
Proof.
  rewrite initialise_shared. intros Hinit Hget Hin.
  destruct (dict_get d dst_rank) as [dst|] eqn:Hdst; [|discriminate].
  cbn [mbind result_bind] in Hinit.
  destruct (side_records dst _ LO _) as [lo|] eqn:Hlo; [|discriminate].
  cbn [mbind result_bind] in Hinit.
  destruct (side_records dst _ HI _) as [hi|] eqn:Hhi; [|discriminate].
  cbn [mbind result_bind mret result_ret] in Hinit. injection Hinit as <-.
  cbn [_dst _updates] in *.
  apply updates_get_shared_Ok in Hget as [Ha ->].
  assert (Hside : side_records dst (cart_coord_to_extents d) dir
            (seq 0 (ndim (extent (halo_extent dst))))
            = Ok (match dir with LO => lo | HI => hi end))
    by (destruct dir; assumption).
  destruct (side_records_In _ _ _ _ _ r Hside Hin)
    as (ax & walk & Hax & Hwalk & Hr).
  pose proof Hwalk as Hrun. unfold axis_records in Hrun.
  destruct (i_range dst ax dir) as [steps|]; [|discriminate].
  cbn [mbind result_bind] in Hrun.
  destruct (walk_records_In _ _ _ _ _ _ r Hrun Hr) as (Hd & i & _ & Hn & Ho).
  split; [exact Hd|]. exists ax, walk, i.
  split; [apply list_elem_of_In, elem_of_seq in Hax; lia|]. auto.
Qed.

(** C5, as amended: every update record found in a bucket was produced by
    the walk of some axis [ax], and its overlap lies in the halo region of
    the destination (inside its with-halo box, outside its interior) and in
    the source extent with the halo trimmed on the walked axis [ax] only:
    along [ax] the overlap stays within the interior bounds of the source,
    on every other axis within the bounds of the source with its halo. *)
Theorem update_extent_within (dst_rank : Z) (d : list (Z * DecompExtent))
    (hu : HalosUpdate) (a : nat) (dir : Side)
    (rs : list SingleExtentUpdate) (r : SingleExtentUpdate) :
  initialise dst_rank d = Ok hu ->
  (forall k v, In (k, v) d ->
     tile_ok v /\ length (dbeg v) = length (dbeg (_dst hu))) ->
  tile_ok (_dst hu) ->
  (forall ax, (ax < length (dbeg (_dst hu)))%nat -> halo_around (_dst hu) ax) ->
  updates_get (_updates hu) a dir = Ok rs -> In r rs ->
  _dst_extent r = _dst hu /\
  exists (ax : nat) (walk : list SingleExtentUpdate) (wh nh : IndexingExtent),
    (ax < length (dbeg (_dst hu)))%nat /\
    axis_records (_dst hu) (cart_coord_to_extents d) dir ax = Ok walk /\
    In r walk /\
    no_halo_extent (_dst hu) None = Ok wh /\
    no_halo_extent (_src_extent r) (Some ax) = Ok nh /\
    forall p, contains (_update_extent r) p = true ->
      contains wh p = true /\
      contains (extent (halo_extent (_dst hu))) p = false /\
      contains nh p = true /\
      dbeg (_src_extent r) !!! ax <= p !!! ax < dend (_src_extent r) !!! ax /\
      forall j, (j < length (dbeg (_dst hu)))%nat -> j <> ax ->
        start_h_at (_src_extent r) j <= p !!! j
          < stop_h_at (_src_extent r) j.
Proof.
  intros Hinit Htiles Hdst Hhalo Hget Hin.
  destruct (bucket_record_walk _ _ _ _ _ _ _ Hinit Hget Hin)
    as (Hd & ax & walk & i & Hax & Hwalk & Hr & Hn & Ho).
  split; [exact Hd|].
  destruct (neighbour_in_dict _ _ _ _ _ Hn) as (k & Hk).
  destruct (Htiles k _ Hk) as [Hsrc Hlen].
  destruct (overlap_within (_dst hu) (_src_extent r) ax dir (_update_extent r)
              Hdst Hsrc Hlen Hax (Hhalo ax Hax) Ho)
    as (wh & nh & Hwh & Hnh & Hp).
  exists ax, walk, wh, nh.
  split; [exact Hax|]. split; [exact Hwalk|]. split; [exact Hr|].
  split; [exact Hwh|]. split; [exact Hnh|].
  intros p Hpin. destruct (Hp p Hpin) as (H1 & H2 & H3).
  destruct (overlap_source_bounds (_dst hu) (_src_extent r) ax dir
              (_update_extent r) p Hdst Hsrc Hlen Hax Ho Hpin) as [H4 H5].
  auto.
Qed.

(** *** The plan of the 2 x 2 grid *)

(** The tiles of the example grid are those [DecompExtent.__init__] builds
    from the block split of shape (4, 4) with requested halo 1. *)
Lemma grid_2x2_built :
  DecompExtent_init 0 [0; 0] [2; 2] [4; 4] [(0, 2); (0, 2)] (HaloInt 1)
    ARRAY_BOUNDS = Ok Examples.tile_00 /\
  DecompExtent_init 1 [0; 1] [2; 2] [4; 4] [(0, 2); (2, 4)] (HaloInt 1)
    ARRAY_BOUNDS = Ok Examples.tile_01 /\
  DecompExtent_init 2 [1; 0] [2; 2] [4; 4] [(2, 4); (0, 2)] (HaloInt 1)
    ARRAY_BOUNDS = Ok Examples.tile_10 /\
  DecompExtent_init 3 [1; 1] [2; 2] [4; 4] [(2, 4); (2, 4)] (HaloInt 1)
    ARRAY_BOUNDS = Ok Examples.tile_11.
Proof. repeat split; reflexivity. Qed.

Lemma grid_2x2_plan_11 :
  initialise 3 Examples.grid_2x2 =
    Ok (mkHalosUpdate 3 Examples.tile_11
          (shared_updates 2
             [Examples.update_11_from_01; Examples.update_11_from_10] [])).
Proof. vm_compute. reflexivity. Qed.

(** After [initialise] the bucket of any axis on a side holds the records of
    that side for all axes. *)
Lemma buckets_hold_all_axes (dst_rank : Z) (d : list (Z * DecompExtent))
    (hu : HalosUpdate) (a : nat) (dir : Side) :
  initialise dst_rank d = Ok hu ->
  (a < ndim (extent (halo_extent (_dst hu))))%nat ->
  updates_get (_updates hu) a dir =
    side_records (_dst hu) (cart_coord_to_extents d) dir
      (seq 0 (ndim (extent (halo_extent (_dst hu))))).
Proof.
  rewrite initialise_shared. intros Hinit Ha.
  destruct (dict_get d dst_rank) as [dst|]; [|discriminate].
  cbn [mbind result_bind] in Hinit.
  destruct (side_records dst _ LO _) as [lo|] eqn:Hlo; [|discriminate].
  cbn [mbind result_bind] in Hinit.
  destruct (side_records dst _ HI _) as [hi|] eqn:Hhi; [|discriminate].
  cbn [mbind result_bind mret result_ret] in Hinit. injection Hinit as <-.
  cbn [_dst _updates] in *. rewrite updates_get_shared by exact Ha.
  destruct dir; auto.
Qed.

(** C1 on the 2 x 2 grid: for the tile at (1, 1), walking axis 0 on the low
    side produces one record and walking axis 1 produces another, yet the
    bucket of axis 0 holds both of them, and the bucket of axis 1 is the
    same list. *)
Theorem updates_buckets_shared :
  axis_records Examples.tile_11 (cart_coord_to_extents Examples.grid_2x2) LO 0
    = Ok [Examples.update_11_from_01] /\
  axis_records Examples.tile_11 (cart_coord_to_extents Examples.grid_2x2) LO 1
    = Ok [Examples.update_11_from_10] /\
  (hu ← initialise 3 Examples.grid_2x2; updates_get (_updates hu) 0 LO)
    = Ok [Examples.update_11_from_01; Examples.update_11_from_10] /\
  (hu ← initialise 3 Examples.grid_2x2; updates_get (_updates hu) 1 LO)
    = Ok [Examples.update_11_from_01; Examples.update_11_from_10].
Proof. repeat split; vm_compute; reflexivity. Qed.

(** C4 fails on the 2 x 2 grid: the two records planned for the tile at
    (1, 1) both cover the corner index (1, 1). *)
Lemma overlaps_disjoint_counterexample :
  (hu ← initialise 3 Examples.grid_2x2; updates_get (_updates hu) 0 LO)
    = Ok [Examples.update_11_from_01; Examples.update_11_from_10] /\
  ~ disjoint (_update_extent Examples.update_11_from_01)
             (_update_extent Examples.update_11_from_10).
Proof.
  split; [vm_compute; reflexivity|].
  intros H. apply (H [1; 1]). split; reflexivity.
Qed.

(** C5 fails on the 2 x 2 grid: the record planned for the tile at (1, 1)
    from its neighbour at (0, 1) covers the index (1, 1), which is not in
    the interior [0,2) x [2,4) of that neighbour. *)
Lemma update_extent_within_counterexample :
  (hu ← initialise 3 Examples.grid_2x2; updates_get (_updates hu) 0 LO)
    = Ok [Examples.update_11_from_01; Examples.update_11_from_10] /\
  contains (_update_extent Examples.update_11_from_01) [1; 1] = true /\
  contains (extent (halo_extent (_src_extent Examples.update_11_from_01)))
    [1; 1] = false.
Proof. split; [vm_compute; reflexivity|]. split; reflexivity. Qed.

Lemma grid_2x2_tiles_ok (k : Z) (v : DecompExtent) :
  In (k, v) Examples.grid_2x2 -> tile_ok v /\ length (dbeg v) = 2%nat.
Proof.
  intros [H|[H|[H|[H|[]]]]]; injection H as _ <-;
    (split; [repeat split|]); reflexivity.
Defined.

Lemma update_extent_within_witness :
  _dst_extent Examples.update_11_from_01 = Examples.tile_11 /\
  exists (ax : nat) (walk : list SingleExtentUpdate) (wh nh : IndexingExtent),
    (ax < 2)%nat /\
    axis_records Examples.tile_11 (cart_coord_to_extents Examples.grid_2x2)
      LO ax = Ok walk /\
    In Examples.update_11_from_01 walk /\
    no_halo_extent Examples.tile_11 None = Ok wh /\
    no_halo_extent Examples.tile_01 (Some ax) = Ok nh /\
    forall p, contains (mkIndexingExtent [1; 1] [2; 4]) p = true ->
      contains wh p = true /\
      contains (mkIndexingExtent [2; 2] [4; 4]) p = false /\
      contains nh p = true /\
      dbeg Examples.tile_01 !!! ax <= p !!! ax < dend Examples.tile_01 !!! ax /\
      forall j, (j < 2)%nat -> j <> ax ->
        start_h_at Examples.tile_01 j <= p !!! j
          < stop_h_at Examples.tile_01 j.
Proof.
  apply (update_extent_within 3 Examples.grid_2x2
           (mkHalosUpdate 3 Examples.tile_11
              (shared_updates 2
                 [Examples.update_11_from_01; Examples.update_11_from_10] []))
           0%nat LO [Examples.update_11_from_01; Examples.update_11_from_10]
           Examples.update_11_from_01).
  - vm_compute. reflexivity.
  - exact grid_2x2_tiles_ok.
  - repeat split; reflexivity.
  - intros [|[|ax]] Hax; [| |simpl in Hax; lia];
      unfold halo_around; vm_compute; repeat split; discriminate.
  - reflexivity.
  - left. reflexivity.
Defined.

(** *** Overlaps along one axis *)

(** Along the walked axis an overlap lies in the interior of the neighbour
    and on the halo side of the interior of the destination. *)
Lemma overlap_axis_bounds (dst src : DecompExtent) (a : nat) (dir : Side)
    (h : IndexingExtent) (p : list Z) :
  tile_ok dst -> tile_ok src -> length (dbeg src) = length (dbeg dst) ->
  (a < length (dbeg dst))%nat ->
  calc_halo_intersection dst src a dir = Ok (Some h) ->
  contains h p = true ->
  dbeg src !!! a <= p !!! a < dend src !!! a /\
  match dir with
  | LO => p !!! a < dbeg dst !!! a
  | HI => dend dst !!! a <= p !!! a
  end.
Proof.
  intros Hd Hs Hlen Ha Hh Hp.
  destruct (calc_halo_intersection_spec dst src a dir Hd Hs Hlen Ha)
    as (slab & nh & Hslab & Hnh & Hw1 & Hw2 & Hn1 & Hn2 & Hcalc & Hpt1 & Hpt2).
  rewrite Hcalc in Hh.
  destruct (calc_intersection_Some slab nh h Hw1 Hw2 ltac:(lia) Hh) as [-> _].
  apply contains_meet in Hp as [Hps Hpn]; auto; [|lia].
  unfold contains in *. rewrite in_box_spec in *. unfold ndim in *.
  destruct Hps as (_ & _ & Hps). destruct Hpn as (_ & _ & Hpn).
  specialize (Hps a ltac:(lia)). specialize (Hpn a ltac:(lia)).
  pose proof (Hpt1 a Ha) as E1. pose proof (Hpt2 a Ha) as E2.
  rewrite decide_True in E1, E2 by auto.
  injection E2 as Eb2 Ee2. rewrite Eb2, Ee2 in Hpn. split; [exact Hpn|].
  destruct dir; injection E1 as Eb1 Ee1; rewrite Eb1, Ee1 in Hps; lia.
Qed.

Lemma py_range_NoDup (start stop step : Z) :
  step <> 0 -> NoDup (py_range start stop step).
Proof.
  intros Hstep. unfold py_range. apply NoDup_fmap_2; [|apply NoDup_seq].
  intros x y Hxy. nia.
Qed.

Lemma i_range_NoDup (dst : DecompExtent) (a : nat) (dir : Side)
    (steps : list Z) :
  i_range dst a dir = Ok steps -> NoDup steps.
Proof.
  unfold i_range. destruct dir.
  - destruct (getitem (_cart_coord dst) a); [|discriminate].
    cbn [mbind result_bind mret result_ret]. intros H. injection H as <-.
    apply py_range_NoDup. lia.
  - destruct (getitem (_cart_shape dst) a); [|discriminate].
    cbn [mbind result_bind].
    destruct (getitem (_cart_coord dst) a); [|discriminate].
    cbn [mbind result_bind mret result_ret]. intros H. injection H as <-.
    apply py_range_NoDup. lia.
Qed.

(** Records of one walk are pairwise related as soon as the overlaps of any
    two different neighbours are. *)
Lemma walk_records_pairwise (dst : DecompExtent)
    (cd : gmap (list Z) DecompExtent) (a : nat) (dir : Side)
    (R : IndexingExtent -> IndexingExtent -> Prop) (steps : list Z) :
  (forall i j si sj hi hj, i <> j -> In i steps -> In j steps ->
     neighbour dst cd a i = Some si -> neighbour dst cd a j = Some sj ->
     calc_halo_intersection dst si a dir = Ok (Some hi) ->
     calc_halo_intersection dst sj a dir = Ok (Some hj) -> R hi hj) ->
  NoDup steps ->
  forall rs, walk_records dst cd a dir steps = Ok rs ->
  ForallOrdPairs (fun r1 r2 => R (_update_extent r1) (_update_extent r2)) rs.
Proof.
  induction steps as [|i steps IH]; intros HR Hnd rs Hrun.
  - simpl in Hrun. injection Hrun as <-. constructor.
  - apply NoDup_cons in Hnd as [Hni Hnd].
    pose proof (walk_records_In dst cd a dir (i :: steps) rs) as Hhead.
    cbn [walk_records] in Hrun.
    destruct (getitem (_cart_coord dst) a) as [c|] eqn:Hc; [|discriminate].
    cbn [mbind result_bind] in Hrun.
    destruct (setitem (_cart_coord dst) a (wrap64 (c + i))) as [sc|] eqn:Hsc;
      [|discriminate].
    cbn [mbind result_bind] in Hrun.
    destruct (cd !! sc) as [src|] eqn:Hsrc; [|discriminate].
    cbn [mbind result_bind] in Hrun.
    destruct (calc_halo_intersection dst src a dir) as [[h|]|] eqn:Hh;
      [| |discriminate]; cbn [mbind result_bind mret result_ret] in Hrun.
    + destruct (walk_records dst cd a dir steps) as [rest|] eqn:Hrest;
        [|discriminate].
      cbn [mbind result_bind mret result_ret] in Hrun. injection Hrun as <-.
      assert (Hn : neighbour dst cd a i = Some src).
      { unfold neighbour. apply getitem_Ok in Hc. rewrite Hc.
        apply setitem_Ok in Hsc as [-> _]. exact Hsrc. }
      constructor.
      * apply List.Forall_forall. intros r Hr.
        destruct (walk_records_In dst cd a dir steps rest r Hrest Hr)
          as (_ & j & Hj & Hnj & Hoj).
        cbn [_update_extent].
        apply (HR i j src (_src_extent r) h (_update_extent r)); auto.
        -- intros ->. apply Hni. apply list_elem_of_In. exact Hj.
        -- left. reflexivity.
        -- right. exact Hj.
      * apply IH; auto. intros i' j' si sj hi hj Hij Hi' Hj'.
        apply HR; auto; right; assumption.
    + injection Hrun as <-. constructor.
Qed.

Lemma side_records_incl (dst : DecompExtent) (cd : gmap (list Z) DecompExtent)
    (dir : Side) (axes : list nat) (a : nat) :
  forall rs, side_records dst cd dir axes = Ok rs -> In a axes ->
  exists ra, axis_records dst cd dir a = Ok ra /\
    forall r, In r ra -> In r rs.
Proof.
  induction axes as [|x axes IH]; intros rs Hrun Hin; [destruct Hin|].
  cbn [side_records] in Hrun.
  destruct (axis_records dst cd dir x) as [rx|] eqn:Hx; [|discriminate].
  cbn [mbind result_bind] in Hrun.
  destruct (side_records dst cd dir axes) as [rest|] eqn:Hrest;
    [|discriminate].
  cbn [mbind result_bind mret result_ret] in Hrun. injection Hrun as <-.
  destruct Hin as [->|Hin].
  - exists rx. split; [exact Hx|]. intros r Hr. apply List.in_or_app. auto.
  - destruct (IH rest eq_refl Hin) as (ra & Hra & Hsub).
    exists ra. split; [exact Hra|]. intros r Hr. apply List.in_or_app. auto.
Qed.


Lemma py_range_up (start stop i : Z) :
  In i (py_range start stop 1) <-> start <= i < stop.
Proof.
  unfold py_range. cbn [Z.ltb Z.compare].
  rewrite <- list_elem_of_In, list_elem_of_fmap. split.
  - intros (k & -> & Hk). apply elem_of_seq in Hk.
    rewrite Z.div_1_r in Hk. lia.
  - intros Hi. exists (Z.to_nat (i - start)). split; [lia|].
    apply elem_of_seq. rewrite Z.div_1_r. lia.
Qed.

Lemma py_range_down (start stop i : Z) :
  In i (py_range start stop (-1)) <-> stop < i <= start.
Proof.
  unfold py_range. cbn [Z.ltb Z.compare Z.opp].
  rewrite <- list_elem_of_In, list_elem_of_fmap. split.
  - intros (k & -> & Hk). apply elem_of_seq in Hk.
    rewrite Z.div_1_r in Hk. lia.
  - intros Hi. exists (Z.to_nat (start - i)). split; [lia|].
    apply elem_of_seq. rewrite Z.div_1_r. lia.
Qed.

(** The offsets of a walk stay on their side of [dst] and inside the grid,
    so the neighbour coordinates do not wrap around. *)
Lemma i_range_steps (dst : DecompExtent) (a : nat) (dir : Side)
    (steps : list Z) (c n : Z) :
  _cart_coord dst !! a = Some c -> _cart_shape dst !! a = Some n ->
  - 2 ^ 63 <= c < 2 ^ 63 -> 0 <= n < 2 ^ 63 ->
  i_range dst a dir = Ok steps ->
  forall i, In i steps ->
    wrap64 (c + i) = c + i /\
    match dir with LO => i < 0 | HI => 0 < i end.
Proof.
  intros Hc Hn Rc Rn. unfold i_range.
  rewrite (getitem_lookup _ _ _ Hc). destruct dir.
  - cbn [mbind result_bind mret result_ret]. intros H. injection H as <-.
    intros i Hi. apply py_range_down in Hi.
    destruct (wrap64_cases (- c)) as (k1 & Hk1 & Hr1).
    destruct (wrap64_cases (wrap64 (- c) - 1)) as (k2 & Hk2 & Hr2).
    split; [apply wrap64_id|]; lia.
  - rewrite (getitem_lookup _ _ _ Hn).
    cbn [mbind result_bind mret result_ret]. intros H. injection H as <-.
    intros i Hi. apply py_range_up in Hi.
    destruct (wrap64_cases (n - c)) as (k1 & Hk1 & Hr1).
    split; [apply wrap64_id|]; lia.
Qed.

Lemma neighbour_tile_at (dst : DecompExtent) (cd : gmap (list Z) DecompExtent)
    (a : nat) (c i : Z) :
  _cart_coord dst !! a = Some c ->
  neighbour dst cd a i = tile_at dst cd a (wrap64 (c + i)).
Proof. intros Hc. unfold neighbour, tile_at. rewrite Hc. reflexivity. Qed.

(** C4, as amended: the overlaps of the update records produced for a
    destination while walking one axis, on both sides, are pairwise
    disjoint. *)
Theorem overlaps_disjoint_per_axis (dst_rank : Z)
    (d : list (Z * DecompExtent)) (hu : HalosUpdate) (a : nat) :
  initialise dst_rank d = Ok hu ->
  (forall k v, In (k, v) d ->
     tile_ok v /\ length (dbeg v) = length (dbeg (_dst hu))) ->
  tile_ok (_dst hu) ->
  (a < length (dbeg (_dst hu)))%nat ->
  grid_axis_ok (_dst hu) a ->
  dbeg (_dst hu) !!! a <= dend (_dst hu) !!! a ->
  line_ordered (_dst hu) (cart_coord_to_extents d) a ->
  exists lo hi blo bhi,
    axis_records (_dst hu) (cart_coord_to_extents d) LO a = Ok lo /\
    axis_records (_dst hu) (cart_coord_to_extents d) HI a = Ok hi /\
    updates_get (_updates hu) a LO = Ok blo /\
    updates_get (_updates hu) a HI = Ok bhi /\
    (forall r, In r lo -> In r blo) /\ (forall r, In r hi -> In r bhi) /\
    ForallOrdPairs
      (fun r1 r2 => disjoint (_update_extent r1) (_update_extent r2))
      (lo ++ hi).
Proof.
  intros Hinit Htiles Hdst Ha (c & n & Hc & Hn & Rc & Rn) Hbe Hord.
  pose proof Hinit as Hinit'. rewrite initialise_shared in Hinit'.
  destruct (dict_get d dst_rank) as [dst|] eqn:Hget; [|discriminate].
  cbn [mbind result_bind] in Hinit'.
  destruct (side_records dst _ LO _) as [slo|] eqn:Hlo; [|discriminate].
  cbn [mbind result_bind] in Hinit'.
  destruct (side_records dst _ HI _) as [shi|] eqn:Hhi; [|discriminate].
  cbn [mbind result_bind mret result_ret] in Hinit'. injection Hinit' as <-.
  cbn [_dst _updates] in *.
  set (cd := cart_coord_to_extents d) in *.
  assert (Han : (a < ndim (extent (halo_extent dst)))%nat) by exact Ha.
  assert (Hseq : In a (seq 0 (ndim (extent (halo_extent dst))))).
  { apply list_elem_of_In, elem_of_seq. lia. }
  destruct (side_records_incl dst cd LO _ a slo Hlo Hseq) as (lo & Halo & Hsublo).
  destruct (side_records_incl dst cd HI _ a shi Hhi Hseq) as (hi & Hahi & Hsubhi).
  exists lo, hi, slo, shi.
  split; [exact Halo|]. split; [exact Hahi|].
  split; [apply (updates_get_shared _ a LO); exact Han|].
  split; [apply (updates_get_shared _ a HI); exact Han|].
  split; [exact Hsublo|]. split; [exact Hsubhi|].
  assert (Hnb : forall i s, neighbour dst cd a i = Some s ->
            tile_ok s /\ length (dbeg s) = length (dbeg dst)).
  { intros i s Hs. destruct (neighbour_in_dict _ _ _ _ _ Hs) as (k & Hk).
    apply (Htiles k s Hk). }
  unfold axis_records in Halo, Hahi.
  destruct (i_range dst a LO) as [steps_lo|] eqn:Hrlo; [|discriminate].
  destruct (i_range dst a HI) as [steps_hi|] eqn:Hrhi; [|discriminate].
  cbn [mbind result_bind] in Halo, Hahi.
  assert (Hsame : forall dir steps, i_range dst a dir = Ok steps ->
            forall i j si sj hi' hj, i <> j -> In i steps -> In j steps ->
            neighbour dst cd a i = Some si -> neighbour dst cd a j = Some sj ->
            calc_halo_intersection dst si a dir = Ok (Some hi') ->
            calc_halo_intersection dst sj a dir = Ok (Some hj) ->
            disjoint hi' hj).
  { intros dir steps Hsteps i j si sj hi' hj Hij Hi Hj Hsi Hsj Hoi Hoj p
      [Hpi Hpj].
    destruct (Hnb i si Hsi) as [Hoki Hleni].
    destruct (Hnb j sj Hsj) as [Hokj Hlenj].
    destruct (overlap_axis_bounds dst si a dir hi' p Hdst Hoki Hleni Ha Hoi Hpi)
      as [Hbi _].
    destruct (overlap_axis_bounds dst sj a dir hj p Hdst Hokj Hlenj Ha Hoj Hpj)
      as [Hbj _].
    destruct (i_range_steps dst a dir steps c n Hc Hn Rc Rn Hsteps i Hi)
      as [Hwi _].
    destruct (i_range_steps dst a dir steps c n Hc Hn Rc Rn Hsteps j Hj)
      as [Hwj _].
    rewrite (neighbour_tile_at dst cd a c) in Hsi, Hsj by exact Hc.
    rewrite Hwi in Hsi. rewrite Hwj in Hsj.
    destruct (Z.lt_total i j) as [Hlt|[Heq|Hgt]]; [|contradiction|].
    - pose proof (Hord (c + i) (c + j) si sj ltac:(lia) Hsi Hsj). lia.
    - pose proof (Hord (c + j) (c + i) sj si ltac:(lia) Hsj Hsi). lia. }
  apply ForallOrdPairs_app.
  - apply (walk_records_pairwise dst cd a LO disjoint steps_lo
             (Hsame LO steps_lo Hrlo) (i_range_NoDup _ _ _ _ Hrlo) lo Halo).
  - apply (walk_records_pairwise dst cd a HI disjoint steps_hi
             (Hsame HI steps_hi Hrhi) (i_range_NoDup _ _ _ _ Hrhi) hi Hahi).
  - intros r1 r2 Hr1 Hr2 p [Hp1 Hp2].
    destruct (walk_records_In _ _ _ _ _ _ r1 Halo Hr1) as (_ & i & _ & Hn1 & Ho1).
    destruct (walk_records_In _ _ _ _ _ _ r2 Hahi Hr2) as (_ & j & _ & Hn2 & Ho2).
    destruct (Hnb i _ Hn1) as [Hok1 Hlen1].
    destruct (Hnb j _ Hn2) as [Hok2 Hlen2].
    destruct (overlap_axis_bounds dst _ a LO _ p Hdst Hok1 Hlen1 Ha Ho1 Hp1)
      as [_ Hlo1].
    destruct (overlap_axis_bounds dst _ a HI _ p Hdst Hok2 Hlen2 Ha Ho2 Hp2)
      as [_ Hhi2].
    lia.
Qed.

(** *** The early break of the walk *)

Lemma calc_halo_intersection_None_iff (dst src : DecompExtent) (a : nat)
    (dir : Side) :
  tile_ok dst -> tile_ok src -> length (dbeg src) = length (dbeg dst) ->
  (a < length (dbeg dst))%nat ->
  (exists r, calc_halo_intersection dst src a dir = Ok r) /\
  (calc_halo_intersection dst src a dir = Ok None <->
   match dir with
   | LO => Z.max (start_h_at dst a) (dbeg src !!! a) >=
           Z.min (dbeg dst !!! a) (dend src !!! a)
   | HI => Z.max (dend dst !!! a) (dbeg src !!! a) >=
           Z.min (stop_h_at dst a) (dend src !!! a)
   end \/
   exists i, (i < length (dbeg dst))%nat /\ i <> a /\
     Z.max (start_h_at dst i) (start_h_at src i) >=
     Z.min (stop_h_at dst i) (stop_h_at src i)).
Proof.
  intros Hd Hs Hlen Ha.
  destruct (calc_halo_intersection_spec dst src a dir Hd Hs Hlen Ha)
    as (slab & nh & Hslab & Hnh & Hw1 & Hw2 & Hn1 & Hn2 & Hcalc & Hpt1 & Hpt2).
  rewrite Hcalc. split.
  - rewrite calc_intersection_same_ndim by (auto; lia). eauto.
  - rewrite calc_intersection_None_iff by (auto; lia). rewrite Hn1. split.
    + intros (i & Hi & Hge).
      pose proof (Hpt1 i Hi) as E1. pose proof (Hpt2 i Hi) as E2.
      destruct (decide (i = a)) as [->|Hne].
      * left. injection E2 as Eb2 Ee2. rewrite Eb2, Ee2 in Hge.
        destruct dir; injection E1 as Eb1 Ee1; rewrite Eb1, Ee1 in Hge;
          exact Hge.
      * right. exists i. injection E1 as Eb1 Ee1. injection E2 as Eb2 Ee2.
        rewrite Eb1, Ee1, Eb2, Ee2 in Hge. auto.
    + intros [Hge|(i & Hi & Hne & Hge)].
      * exists a. split; [exact Ha|].
        pose proof (Hpt1 a Ha) as E1. pose proof (Hpt2 a Ha) as E2.
        rewrite decide_True in E1, E2 by auto.
        injection E2 as Eb2 Ee2. rewrite Eb2, Ee2.
        destruct dir; injection E1 as Eb1 Ee1; rewrite Eb1, Ee1; exact Hge.
      * exists i. split; [exact Hi|].
        pose proof (Hpt1 i Hi) as E1. pose proof (Hpt2 i Hi) as E2.
        rewrite decide_False in E1, E2 by auto.
        injection E1 as Eb1 Ee1. injection E2 as Eb2 Ee2.
        rewrite Eb1, Ee1, Eb2, Ee2. exact Hge.
Qed.

(** A neighbour that is not empty along the walked axis and has no overlap
    with the slab shields every tile behind it. *)
Lemma farther_absent (dst sj sk : DecompExtent)
    (cd : gmap (list Z) DecompExtent) (a : nat) (dir : Side) (c xj xk : Z) :
  tile_ok dst -> tile_ok sj -> tile_ok sk ->
  length (dbeg sj) = length (dbeg dst) ->
  length (dbeg sk) = length (dbeg dst) ->
  (a < length (dbeg dst))%nat ->
  tile_at dst cd a c = Some dst ->
  tile_at dst cd a xj = Some sj -> tile_at dst cd a xk = Some sk ->
  match dir with LO => xk < xj /\ xj < c | HI => c < xj /\ xj < xk end ->
  line_ordered dst cd a -> line_aligned dst cd a ->
  dbeg sj !!! a < dend sj !!! a ->
  calc_halo_intersection dst sj a dir = Ok None ->
  calc_halo_intersection dst sk a dir = Ok None.
Proof.
  intros Hd Hj Hk Hlj Hlk Ha Hc Hxj Hxk Hside Hord Hal Hne Habs.
  destruct (calc_halo_intersection_None_iff dst sj a dir Hd Hj Hlj Ha)
    as [_ Hiffj].
  destruct (calc_halo_intersection_None_iff dst sk a dir Hd Hk Hlk Ha)
    as [_ Hiffk].
  apply Hiffk. apply Hiffj in Habs as [Hge|(i & Hi & Hia & Hge)].
  - left. destruct dir; destruct Hside as [H1 H2].
    + pose proof (Hord xj c sj dst H2 Hxj Hc).
      pose proof (Hord xk xj sk sj H1 Hxk Hxj). lia.
    + pose proof (Hord c xj dst sj H1 Hc Hxj).
      pose proof (Hord xj xk sj sk H2 Hxj Hxk). lia.
  - right. exists i. split; [exact Hi|]. split; [exact Hia|].
    destruct (Hal xj sj i Hxj Hia Hi) as [Ej1 Ej2].
    destruct (Hal xk sk i Hxk Hia Hi) as [Ek1 Ek2].
    rewrite Ek1, Ek2. rewrite Ej1, Ej2 in Hge. exact Hge.
Qed.

(** Without the [break] a walk whose neighbours all exist and have no
    overlap yields no record either. *)
Lemma all_records_absent (dst : DecompExtent) (cd : gmap (list Z) DecompExtent)
    (a : nat) (dir : Side) (c : Z) (steps : list Z) :
  _cart_coord dst !! a = Some c ->
  (forall k, In k steps -> exists sk,
     neighbour dst cd a k = Some sk /\
     calc_halo_intersection dst sk a dir = Ok None) ->
  all_records dst cd a dir steps = Ok [].
Proof.
  intros Hc. induction steps as [|k steps IH]; intros Hall; [reflexivity|].
  destruct (Hall k (or_introl eq_refl)) as (sk & Hsk & Habs).
  cbn [all_records]. rewrite (getitem_lookup _ _ _ Hc).
  cbn [mbind result_bind].
  rewrite setitem_lt by (apply lookup_lt_Some in Hc; exact Hc).
  cbn [mbind result_bind]. unfold neighbour in Hsk. rewrite Hc in Hsk.
  rewrite Hsk. cbn [mbind result_bind]. rewrite Habs.
  cbn [mbind result_bind]. rewrite IH; [reflexivity|].
  intros k' Hk'. apply Hall. right. exact Hk'.
Qed.

Lemma py_range_head (start stop step i : Z) (rest : list Z) :
  py_range start stop step = i :: rest -> i = start.
Proof.
  unfold py_range. destruct (Z.to_nat _); simpl; [discriminate|].
  intros H. injection H as <- _. lia.
Qed.

(** The first offset of a walk is the nearest one: the others are farther
    away on the same side. *)
Lemma i_range_nearest (dst : DecompExtent) (a : nat) (dir : Side)
    (i1 : Z) (rest : list Z) :
  i_range dst a dir = Ok (i1 :: rest) ->
  i1 = side_sign dir /\ forall k, In k rest -> farther dir i1 k.
Proof.
  intros Hr. pose proof (i_range_NoDup _ _ _ _ Hr) as Hnd.
  apply NoDup_cons in Hnd as [Hni _].
  assert (Hnot : forall k, In k rest -> k <> i1).
  { intros k Hk ->. apply Hni, list_elem_of_In, Hk. }
  unfold i_range in Hr. destruct dir.
  - destruct (getitem (_cart_coord dst) a) as [c|]; [|discriminate].
    cbn [mbind result_bind mret result_ret] in Hr. injection Hr as Hr.
    pose proof (py_range_head _ _ _ _ _ Hr) as ->.
    split; [reflexivity|]. intros k Hk. specialize (Hnot k Hk).
    assert (Hin : In k (py_range (-1) (wrap64 (wrap64 (- c) - 1)) (-1)))
      by (rewrite Hr; right; exact Hk).
    apply py_range_down in Hin. unfold farther. lia.
  - destruct (getitem (_cart_shape dst) a) as [n|]; [|discriminate].
    cbn [mbind result_bind] in Hr.
    destruct (getitem (_cart_coord dst) a) as [c|]; [|discriminate].
    cbn [mbind result_bind mret result_ret] in Hr. injection Hr as Hr.
    pose proof (py_range_head _ _ _ _ _ Hr) as ->.
    split; [reflexivity|]. intros k Hk. specialize (Hnot k Hk).
    assert (Hin : In k (py_range 1 (wrap64 (n - c)) 1))
      by (rewrite Hr; right; exact Hk).
    apply py_range_up in Hin. unfold farther. lia.
Qed.

(** Where the [break] is harmless: in a block-partition family, when the
    nearest neighbour along an axis and side is not empty along that axis
    and has no overlap with the halo slab, no farther neighbour has one; the
    walk then yields no record, and neither does the walk without the
    [break]. *)
Lemma short_circuit_nearest (dst : DecompExtent)
    (cd : gmap (list Z) DecompExtent) (a : nat) (dir : Side) (c : Z)
    (i1 : Z) (rest : list Z) (s1 : DecompExtent) :
  tile_ok dst ->
  (forall x s, tile_at dst cd a x = Some s ->
     tile_ok s /\ length (dbeg s) = length (dbeg dst)) ->
  (a < length (dbeg dst))%nat ->
  grid_axis_ok dst a ->
  _cart_coord dst !! a = Some c -> tile_at dst cd a c = Some dst ->
  line_ordered dst cd a -> line_aligned dst cd a ->
  i_range dst a dir = Ok (i1 :: rest) ->
  neighbour dst cd a i1 = Some s1 ->
  dbeg s1 !!! a < dend s1 !!! a ->
  calc_halo_intersection dst s1 a dir = Ok None ->
  i1 = side_sign dir /\
  (forall k sk, In k rest -> neighbour dst cd a k = Some sk ->
     farther dir i1 k /\ calc_halo_intersection dst sk a dir = Ok None) /\
  axis_records dst cd dir a = Ok [] /\
  ((forall k, In k rest -> is_Some (neighbour dst cd a k)) ->
   all_records dst cd a dir (i1 :: rest) = Ok []).
Proof.
  intros Hd Htiles Ha (c' & n & Hc' & Hn & Rc & Rn) Hc Hself Hord Hal Hr Hs1
    Hne Habs.
  assert (c' = c) as -> by congruence.
  destruct (i_range_nearest dst a dir i1 rest Hr) as [Hi1 Hfar].
  pose proof (i_range_steps dst a dir _ c n Hc Hn Rc Rn Hr) as Hsteps.
  destruct (Hsteps i1 (or_introl eq_refl)) as [Hw1 Hsg1].
  rewrite (neighbour_tile_at dst cd a c i1 Hc), Hw1 in Hs1.
  destruct (Htiles _ _ Hs1) as [Hok1 Hlen1].
  assert (Hfarther : forall k sk, In k rest ->
            neighbour dst cd a k = Some sk ->
            calc_halo_intersection dst sk a dir = Ok None).
  { intros k sk Hk Hsk.
    destruct (Hsteps k (or_intror Hk)) as [Hwk Hsgk].
    rewrite (neighbour_tile_at dst cd a c k Hc), Hwk in Hsk.
    destruct (Htiles _ _ Hsk) as [Hokk Hlenk].
    apply (farther_absent dst s1 sk cd a dir c (c + i1) (c + k)); auto.
    specialize (Hfar k Hk). unfold farther in Hfar. destruct dir; lia. }
  split; [exact Hi1|]. split; [|split].
  - intros k sk Hk Hsk. split; [apply Hfar; exact Hk|]. eauto.
  - unfold axis_records. rewrite Hr. cbn [mbind result_bind walk_records].
    rewrite (getitem_lookup _ _ _ Hc). cbn [mbind result_bind].
    rewrite setitem_lt by (apply lookup_lt_Some in Hc; exact Hc).
    cbn [mbind result_bind]. unfold tile_at in Hs1. rewrite Hw1, Hs1.
    cbn [mbind result_bind]. rewrite Habs. reflexivity.
  - intros Hex. apply (all_records_absent dst cd a dir c); [exact Hc|].
    intros k [<-|Hk].
    + exists s1. split; [|exact Habs].
      rewrite (neighbour_tile_at dst cd a c i1 Hc), Hw1. exact Hs1.
    + destruct (Hex k Hk) as [sk Hsk]. exists sk. split; [exact Hsk|]. eauto.
Qed.

Lemma fmap_seq_sorted (R : Z -> Z -> Prop) (f : nat -> Z) (n : nat) :
  forall s : nat,
  (forall i j : nat, (s <= i < j)%nat -> (j < s + n)%nat -> R (f i) (f j)) ->
  StronglySorted R (f <$> seq s n).
Proof.
  induction n as [|n IH]; intros s HR; [constructor|].
  cbn [seq fmap list_fmap]. constructor.
  - apply IH. intros i j Hij Hj. apply HR; lia.
  - apply List.Forall_forall. intros y Hy.
    apply list_elem_of_In, list_elem_of_fmap in Hy as (j & -> & Hj).
    apply elem_of_seq in Hj. apply HR; lia.
Qed.

(** The offsets of a walk move away from [dst]. *)
Lemma i_range_sorted (dst : DecompExtent) (a : nat) (dir : Side)
    (steps : list Z) :
  i_range dst a dir = Ok steps -> StronglySorted (farther dir) steps.
Proof.
  unfold i_range. destruct dir.
  - destruct (getitem (_cart_coord dst) a) as [c|]; [|discriminate].
    cbn [mbind result_bind mret result_ret]. intros H. injection H as <-.
    unfold py_range. apply fmap_seq_sorted. intros i j Hij _.
    unfold farther. lia.
  - destruct (getitem (_cart_shape dst) a) as [n|]; [|discriminate].
    cbn [mbind result_bind].
    destruct (getitem (_cart_coord dst) a) as [c|]; [|discriminate].
    cbn [mbind result_bind mret result_ret]. intros H. injection H as <-.
    unfold py_range. apply fmap_seq_sorted. intros i j Hij _.
    unfold farther. lia.
Qed.

(** When no tile along the walk is empty along the walked axis, the walk
    with its [break] finds every record there is. *)
Lemma walk_records_complete (dst : DecompExtent)
    (cd : gmap (list Z) DecompExtent) (a : nat) (dir : Side) (c : Z)
    (steps : list Z) :
  tile_ok dst ->
  (forall x s, tile_at dst cd a x = Some s ->
     tile_ok s /\ length (dbeg s) = length (dbeg dst)) ->
  (a < length (dbeg dst))%nat ->
  grid_axis_ok dst a ->
  _cart_coord dst !! a = Some c -> tile_at dst cd a c = Some dst ->
  line_ordered dst cd a -> line_aligned dst cd a ->
  i_range dst a dir = Ok steps ->
  (forall k, In k steps -> exists sk,
     neighbour dst cd a k = Some sk /\ dbeg sk !!! a < dend sk !!! a) ->
  axis_records dst cd dir a = all_records dst cd a dir steps.
Proof.
  intros Hd Htiles Ha (c' & n & Hc' & Hn & Rc & Rn) Hc Hself Hord Hal Hr Hex.
  assert (c' = c) as -> by congruence.
  pose proof (i_range_steps dst a dir _ c n Hc Hn Rc Rn Hr) as Hsteps.
  pose proof (i_range_sorted dst a dir steps Hr) as Hsorted.
  unfold axis_records. rewrite Hr. cbn [mbind result_bind].
  clear Hr. induction steps as [|i steps IH]; [reflexivity|].
  apply StronglySorted_inv in Hsorted as [Hsorted Hfar].
  rewrite List.Forall_forall in Hfar.
  destruct (Hex i (or_introl eq_refl)) as (si & Hsi & Hnei).
  destruct (Hsteps i (or_introl eq_refl)) as [Hwi _].
  pose proof Hsi as Hti.
  rewrite (neighbour_tile_at dst cd a c i Hc), Hwi in Hti.
  destruct (Htiles _ _ Hti) as [Hoki Hleni].
  destruct (calc_halo_intersection_None_iff dst si a dir Hd Hoki Hleni Ha)
    as [[r Hcalc] _].
  cbn [walk_records all_records]. rewrite (getitem_lookup _ _ _ Hc).
  cbn [mbind result_bind].
  rewrite setitem_lt by (apply lookup_lt_Some in Hc; exact Hc).
  cbn [mbind result_bind]. unfold tile_at in Hti. rewrite Hwi, Hti.
  cbn [mbind result_bind]. rewrite Hcalc. cbn [mbind result_bind].
  destruct r as [h|].
  - rewrite IH; auto.
    + intros k Hk. apply Hex. right. exact Hk.
    + intros k Hk. apply Hsteps. right. exact Hk.
  - rewrite (all_records_absent dst cd a dir c steps Hc); [reflexivity|].
    intros k Hk. destruct (Hex k (or_intror Hk)) as (sk & Hsk & _).
    exists sk. split; [exact Hsk|].
    destruct (Hsteps k (or_intror Hk)) as [Hwk _].
    pose proof Hsk as Htk.
    rewrite (neighbour_tile_at dst cd a c k Hc), Hwk in Htk.
    destruct (Htiles _ _ Htk) as [Hokk Hlenk].
    apply (farther_absent dst si sk cd a dir c (c + i) (c + k)); auto.
    specialize (Hfar k Hk). unfold farther in Hfar. destruct dir; lia.
Qed.

(** *** The example lines *)

Ltac dict_cases H :=
  repeat (apply lookup_insert_Some in H; destruct H as [[? ?]|[_ H]]);
  try (rewrite lookup_empty in H; discriminate);
  repeat match goal with
         | E : _ = [_] |- _ => vm_compute in E; injection E as <-
         end;
  subst.

Lemma line_3_tile_at (dst : DecompExtent) (c x : Z) (s : DecompExtent) :
  _cart_coord dst = [c] ->
  tile_at dst (cart_coord_to_extents Examples.line_3) 0 x = Some s ->
  (x = 0 /\ s = Examples.third 0 0 2 0 1) \/
  (x = 1 /\ s = Examples.third 1 2 4 1 1) \/
  (x = 2 /\ s = Examples.third 2 4 6 1 0).
Proof.
  intros Hc H. unfold tile_at in H. rewrite Hc in H.
  change (<[0%nat:=x]> [c]) with [x] in H.
  unfold cart_coord_to_extents, Examples.line_3 in H. cbn [foldl snd] in H.
  dict_cases H; auto.
Qed.

Lemma line_4_tile_at (dst : DecompExtent) (c x : Z) (s : DecompExtent) :
  _cart_coord dst = [c] ->
  tile_at dst (cart_coord_to_extents Examples.line_4) 0 x = Some s ->
  (x = 0 /\ s = Examples.piece 0 0 1 0 1) \/
  (x = 1 /\ s = Examples.piece 1 1 2 1 0) \/
  (x = 2 /\ s = Examples.piece 2 2 2 2 0) \/
  (x = 3 /\ s = Examples.piece 3 2 2 2 0).
Proof.
  intros Hc H. unfold tile_at in H. rewrite Hc in H.
  change (<[0%nat:=x]> [c]) with [x] in H.
  unfold cart_coord_to_extents, Examples.line_4 in H. cbn [foldl snd] in H.
  dict_cases H; auto 6.
Qed.

Lemma line_3_tiles_ok (k : Z) (v : DecompExtent) :
  In (k, v) Examples.line_3 -> tile_ok v /\ length (dbeg v) = 1%nat.
Proof.
  intros [H|[H|[H|[]]]]; injection H as _ <-;
    (split; [repeat split|]); reflexivity.
Defined.

Lemma line_3_ordered (dst : DecompExtent) (c : Z) :
  _cart_coord dst = [c] ->
  line_ordered dst (cart_coord_to_extents Examples.line_3) 0.
Proof.
  intros Hc x y sx sy Hxy Hx Hy.
  destruct (line_3_tile_at dst c x sx Hc Hx) as [[-> ->]|[[-> ->]|[-> ->]]];
    destruct (line_3_tile_at dst c y sy Hc Hy) as [[-> ->]|[[-> ->]|[-> ->]]];
    try lia; vm_compute; discriminate.
Defined.

Lemma overlaps_disjoint_per_axis_witness :
  exists lo hi blo bhi,
    axis_records (Examples.third 1 2 4 1 1)
      (cart_coord_to_extents Examples.line_3) LO 0 = Ok lo /\
    axis_records (Examples.third 1 2 4 1 1)
      (cart_coord_to_extents Examples.line_3) HI 0 = Ok hi /\
    updates_get
      (shared_updates 1 [Examples.update_mid_from_0]
         [Examples.update_mid_from_2]) 0 LO = Ok blo /\
    updates_get
      (shared_updates 1 [Examples.update_mid_from_0]
         [Examples.update_mid_from_2]) 0 HI = Ok bhi /\
    (forall r, In r lo -> In r blo) /\ (forall r, In r hi -> In r bhi) /\
    ForallOrdPairs
      (fun r1 r2 => disjoint (_update_extent r1) (_update_extent r2))
      (lo ++ hi).
Proof.
  apply (overlaps_disjoint_per_axis 1 Examples.line_3
           (mkHalosUpdate 1 (Examples.third 1 2 4 1 1)
              (shared_updates 1 [Examples.update_mid_from_0]
                 [Examples.update_mid_from_2])) 0%nat).
  - vm_compute. reflexivity.
  - exact line_3_tiles_ok.
  - repeat split; reflexivity.
  - simpl. lia.
  - exists 1, 3. repeat split; try reflexivity; lia.
  - vm_compute. discriminate.
  - apply (line_3_ordered _ 1). reflexivity.
Defined.

(** C7 fails in the code: the [break] of [initialise] loses update
    records.  On the extent of shape (2,) cut into 4 balanced pieces with
    requested halo 2, the pieces [0,1), [1,2), [2,2), [2,2) are those of the
    balanced split, built by [DecompExtent.__init__] and ordered along the
    axis.  The last piece has the halo slab [0,2) on its low side.  Its
    nearest neighbour there, the empty piece [2,2), has no overlap with the
    slab, while the two pieces farther away have the overlaps [1,2) and
    [0,1).  [initialise] stops at the nearest neighbour and records nothing
    for the last piece, though the walk without the [break] finds the two
    records; for the piece before it, which has the same bounds and the
    same halo, [initialise] records both. *)
Theorem short_circuit_drops_records :
  block_bounds 2 4 <$> [0; 1; 2; 3] = [(0, 1); (1, 2); (2, 2); (2, 2)] /\
  DecompExtent_init 0 [0] [4] [2] [(0, 1)] (HaloInt 2) ARRAY_BOUNDS
    = Ok (Examples.piece 0 0 1 0 1) /\
  DecompExtent_init 1 [1] [4] [2] [(1, 2)] (HaloInt 2) ARRAY_BOUNDS
    = Ok (Examples.piece 1 1 2 1 0) /\
  DecompExtent_init 2 [2] [4] [2] [(2, 2)] (HaloInt 2) ARRAY_BOUNDS
    = Ok (Examples.piece 2 2 2 2 0) /\
  DecompExtent_init 3 [3] [4] [2] [(2, 2)] (HaloInt 2) ARRAY_BOUNDS
    = Ok (Examples.piece 3 2 2 2 0) /\
  line_ordered (Examples.piece 3 2 2 2 0)
    (cart_coord_to_extents Examples.line_4) 0 /\
  line_aligned (Examples.piece 3 2 2 2 0)
    (cart_coord_to_extents Examples.line_4) 0 /\
  halo_slab_extent (Examples.piece 3 2 2 2 0) 0 LO
    = Ok (mkIndexingExtent [0] [2]) /\
  i_range (Examples.piece 3 2 2 2 0) 0 LO = Ok [-1; -2; -3] /\
  neighbour (Examples.piece 3 2 2 2 0)
    (cart_coord_to_extents Examples.line_4) 0 (-1)
    = Some (Examples.piece 2 2 2 2 0) /\
  calc_halo_intersection (Examples.piece 3 2 2 2 0)
    (Examples.piece 2 2 2 2 0) 0 LO = Ok None /\
  neighbour (Examples.piece 3 2 2 2 0)
    (cart_coord_to_extents Examples.line_4) 0 (-2)
    = Some (Examples.piece 1 1 2 1 0) /\
  calc_halo_intersection (Examples.piece 3 2 2 2 0)
    (Examples.piece 1 1 2 1 0) 0 LO = Ok (Some (mkIndexingExtent [1] [2])) /\
  neighbour (Examples.piece 3 2 2 2 0)
    (cart_coord_to_extents Examples.line_4) 0 (-3)
    = Some (Examples.piece 0 0 1 0 1) /\
  calc_halo_intersection (Examples.piece 3 2 2 2 0)
    (Examples.piece 0 0 1 0 1) 0 LO = Ok (Some (mkIndexingExtent [0] [1])) /\
  (hu ← initialise 3 Examples.line_4; updates_get (_updates hu) 0 LO)
    = Ok [] /\
  all_records (Examples.piece 3 2 2 2 0)
    (cart_coord_to_extents Examples.line_4) 0 LO [-1; -2; -3]
    = Ok [mkSingleExtentUpdate (Examples.piece 3 2 2 2 0)
            (Examples.piece 1 1 2 1 0) (mkIndexingExtent [1] [2]);
          mkSingleExtentUpdate (Examples.piece 3 2 2 2 0)
            (Examples.piece 0 0 1 0 1) (mkIndexingExtent [0] [1])] /\
  (hu ← initialise 2 Examples.line_4; updates_get (_updates hu) 0 LO)
    = Ok [mkSingleExtentUpdate (Examples.piece 2 2 2 2 0)
            (Examples.piece 1 1 2 1 0) (mkIndexingExtent [1] [2]);
          mkSingleExtentUpdate (Examples.piece 2 2 2 2 0)
            (Examples.piece 0 0 1 0 1) (mkIndexingExtent [0] [1])].
Proof.
  split; [reflexivity|]. split; [reflexivity|]. split; [reflexivity|].
  split; [reflexivity|]. split; [reflexivity|]. split.
  { intros x y sx sy Hxy Hx Hy.
    destruct (line_4_tile_at (Examples.piece 3 2 2 2 0) 3 x sx eq_refl Hx)
      as [[-> ->]|[[-> ->]|[[-> ->]|[-> ->]]]];
      destruct (line_4_tile_at (Examples.piece 3 2 2 2 0) 3 y sy eq_refl Hy)
        as [[-> ->]|[[-> ->]|[[-> ->]|[-> ->]]]];
      try lia; vm_compute; discriminate. }
  split.
  { intros x sx ax _ Hne Hax. simpl in Hax. lia. }
  repeat split; vm_compute; reflexivity.
Qed.

(** * Further properties *)

(** ** [IndexingExtent]: cuts and intersections *)

(** X1: [split] cuts a well-formed extent along axis [a] into the part
    below [index] and the part from [index] on: every index of the extent
    lies in exactly one of the two pieces, a piece is absent exactly when
    the cut falls outside the extent on that side, and the low piece is the
    absent one when the extent is empty along [a]. *)
Theorem split_partitions (x : IndexingExtent) (a : nat) (index : Z) :
  well_formed x -> (a < ndim x)%nat ->
  exists lo hi, split x a index = Ok (lo, hi) /\
    (lo = None <-> index <= _beg x !!! a) /\
    (hi = None <-> _beg x !!! a < index /\ _end x !!! a <= index) /\
    (forall p, contains x p = true <->
       (exists l, lo = Some l /\ contains l p = true) \/
       (exists h, hi = Some h /\ contains h p = true)) /\
    (forall l p, lo = Some l -> contains l p = true -> p !!! a < index) /\
    (forall h p, hi = Some h -> contains h p = true -> index <= p !!! a).
Proof.
  intros Hwf Ha. rewrite split_spec by auto.
  assert (Ha' : (a < length (_beg x))%nat) by exact Ha.
  destruct (Z.leb_spec index (_beg x !!! a)) as [Hle|Hgt].
  - exists None, (Some x). split; [reflexivity|].
    split; [tauto|]. split; [split; [discriminate|lia]|].
    split; [|split].
    + intros p. split.
      * intros Hp. right. eauto.
      * intros [(l & Hl & _)|(h & Hh & Hp)]; [discriminate|].
        injection Hh as <-. exact Hp.
    + discriminate.
    + intros h p Hh Hp. injection Hh as <-.
      apply (contains_axis x a p Ha') in Hp. lia.
  - destruct (Z.geb_spec index (_end x !!! a)) as [Hge|Hlt].
    + exists (Some x), None. split; [reflexivity|].
      split; [split; [discriminate|lia]|]. split; [split; [lia|reflexivity]|].
      split; [|split].
      * intros p. split.
        -- intros Hp. left. eauto.
        -- intros [(l & Hl & Hp)|(h & Hh & _)]; [|discriminate].
           injection Hl as <-. exact Hp.
      * intros l p Hl Hp. injection Hl as <-.
        apply (contains_axis x a p Ha') in Hp. lia.
      * discriminate.
    + eexists _, _. split; [reflexivity|].
      split; [split; [discriminate|lia]|]. split; [split; [discriminate|lia]|].
      split; [|split].
      * intros p. rewrite (contains_axis x a p Ha'). split.
        -- intros [Hoff Hp].
           destruct (Z.lt_ge_cases (p !!! a) index).
           ++ left. eexists. split; [reflexivity|].
              apply contains_with_axis; auto. split; [exact Hoff|lia].
           ++ right. eexists. split; [reflexivity|].
              apply contains_with_axis; auto. split; [exact Hoff|lia].
        -- intros [(l & Hl & Hp)|(h & Hh & Hp)].
           ++ injection Hl as <-. apply contains_with_axis in Hp; auto.
              split; [tauto|lia].
           ++ injection Hh as <-. apply contains_with_axis in Hp; auto.
              split; [tauto|lia].
      * intros l p Hl Hp. injection Hl as <-.
        apply contains_with_axis in Hp; auto. lia.
      * intros h p Hh Hp. injection Hh as <-.
        apply contains_with_axis in Hp; auto. lia.
Qed.

Lemma split_partitions_witness :
  exists lo hi, split Examples.box_0_10 1 4 = Ok (lo, hi) /\
    (lo = None <-> 4 <= _beg Examples.box_0_10 !!! 1%nat) /\
    (hi = None <-> _beg Examples.box_0_10 !!! 1%nat < 4 /\
                   _end Examples.box_0_10 !!! 1%nat <= 4) /\
    (forall p, contains Examples.box_0_10 p = true <->
       (exists l, lo = Some l /\ contains l p = true) \/
       (exists h, hi = Some h /\ contains h p = true)) /\
    (forall l p, lo = Some l -> contains l p = true -> p !!! 1%nat < 4) /\
    (forall h p, hi = Some h -> contains h p = true -> 4 <= p !!! 1%nat).
Proof.
  apply (split_partitions Examples.box_0_10 1 4).
  - reflexivity.
  - vm_compute. lia.
Defined.

Lemma zip_with_comm_Z (f : Z -> Z -> Z) (l k : list Z) :
  (forall x y, f x y = f y x) -> zip_with f l k = zip_with f k l.
Proof.
  intros Hf. revert k. induction l as [|x l IH]; intros [|y k]; simpl;
    try reflexivity. rewrite IH, Hf. reflexivity.
Qed.

Lemma meet_comm (x y : IndexingExtent) : meet x y = meet y x.
Proof.
  unfold meet. f_equal; apply zip_with_comm_Z; [apply Z.max_comm|apply Z.min_comm].
Qed.

(** X2: the intersection of two well-formed extents of one dimension does
    not depend on the order of the operands. *)
Theorem calc_intersection_comm (x y : IndexingExtent) :
  well_formed x -> well_formed y -> ndim x = ndim y ->
  calc_intersection x y = calc_intersection y x.
Proof.
  intros Hx Hy Hn. rewrite !calc_intersection_same_ndim by auto.
  rewrite (meet_comm y x). reflexivity.
Qed.

Lemma calc_intersection_comm_witness :
  calc_intersection Examples.box_0_10 Examples.box_3_7 =
  calc_intersection Examples.box_3_7 Examples.box_0_10.
Proof.
  apply (calc_intersection_comm Examples.box_0_10 Examples.box_3_7);
    reflexivity.
Defined.

Lemma meet_well_formed (x y : IndexingExtent) :
  well_formed x -> well_formed y -> ndim x = ndim y ->
  well_formed (meet x y) /\ ndim (meet x y) = ndim x.
Proof.
  unfold well_formed, ndim. simpl. rewrite !length_zip_with. lia.
Qed.

Lemma nonempty_contains_beg (x : IndexingExtent) :
  well_formed x ->
  (forall i, (i < ndim x)%nat -> _beg x !!! i < _end x !!! i) ->
  contains x (_beg x) = true.
Proof.
  unfold well_formed, ndim, contains. intros Hwf H. apply in_box_spec.
  split; [exact Hwf|]. split; [reflexivity|].
  intros i Hi. specialize (H i Hi). lia.
Qed.

(** X3: on well-formed extents of one dimension [calc_intersection] always
    returns; its result is absent exactly when the two extents have no index
    in common, and otherwise it is the extent of exactly the common
    indices. *)
Theorem calc_intersection_common_indices (x y : IndexingExtent) :
  well_formed x -> well_formed y -> ndim x = ndim y ->
  exists r, calc_intersection x y = Ok r /\
    (r = None <-> disjoint x y) /\
    (forall I, r = Some I ->
       well_formed I /\ ndim I = ndim x /\
       forall p, contains I p = true <->
         contains x p = true /\ contains y p = true).
Proof.
  intros Hx Hy Hn.
  destruct (meet_well_formed x y Hx Hy Hn) as [Hwm Hnm].
  rewrite calc_intersection_same_ndim by auto.
  destruct (np_any _) eqn:Hany.
  - exists None. split; [reflexivity|]. split; [|discriminate].
    split; [|reflexivity]. intros _ p [Hpx Hpy].
    assert (Hpm : contains (meet x y) p = true) by (apply contains_meet; auto).
    apply np_any_zip_ge in Hany; [|exact Hwm].
    destruct Hany as (i & Hi & Hge).
    unfold contains in Hpm. apply in_box_spec in Hpm.
    destruct Hpm as (_ & _ & Hp). specialize (Hp i Hi). lia.
  - exists (Some (meet x y)). split; [reflexivity|]. split.
    + split; [discriminate|]. intros Hd. exfalso.
      apply (Hd (_beg (meet x y))). apply contains_meet; auto.
      apply nonempty_contains_beg; [exact Hwm|].
      apply np_any_zip_ge_false; exact Hany || exact Hwm.
    + intros I HI. injection HI as <-. split; [exact Hwm|].
      split; [exact Hnm|]. intros p. apply contains_meet; auto.
Qed.

Lemma calc_intersection_common_indices_witness :
  exists r, calc_intersection Examples.box_0_10 Examples.box_3_7 = Ok r /\
    (r = None <-> disjoint Examples.box_0_10 Examples.box_3_7) /\
    (forall I, r = Some I ->
       well_formed I /\ ndim I = ndim Examples.box_0_10 /\
       forall p, contains I p = true <->
         contains Examples.box_0_10 p = true /\
         contains Examples.box_3_7 p = true).
Proof.
  apply (calc_intersection_common_indices Examples.box_0_10 Examples.box_3_7);
    reflexivity.
Defined.

Lemma Forall_zip_with_choice (P : Z -> Prop) (f : Z -> Z -> Z) (l k : list Z) :
  (forall x y, P x -> P y -> P (f x y)) ->
  Forall P l -> Forall P k -> Forall P (zip_with f l k).
Proof.
  intros Hf Hl. revert k. induction Hl as [|x l Hx Hl IH]; intros k Hk.
  - constructor.
  - destruct Hk as [|y k Hy Hk]; simpl; constructor; auto.
Qed.

Lemma nonemptyb_spec (x : IndexingExtent) :
  well_formed x ->
  nonemptyb x = true <->
  forall i, (i < ndim x)%nat -> _beg x !!! i < _end x !!! i.
Proof.
  intros Hwf. unfold nonemptyb.
  rewrite <- (np_any_zip_ge_false _ _ Hwf), np_any_ge_nonemptyb.
  destruct (forallb _ _); simpl; split; congruence.
Qed.

Lemma axis_leftovers_size (P : Z -> Prop) (I C : IndexingExtent) (a : nat) :
  well_formed C -> (a < ndim C)%nat ->
  (forall i, (i < ndim C)%nat -> i <> a -> _beg C !!! i < _end C !!! i) ->
  Forall P (_beg C) -> Forall P (_end C) ->
  P (_beg C !!! a) -> P (_end C !!! a) ->
  P (_beg I !!! a) -> P (_end I !!! a) ->
  (length (axis_leftovers C I a) <= 2)%nat /\
  Forall (fun E => nonemptyb E = true /\ well_formed E /\ ndim E = ndim C /\
                   Forall P (_beg E) /\ Forall P (_end E))
    (axis_leftovers C I a).
Proof.
  intros Hwf Ha Hne HPb HPe HPcb HPce HPib HPie.
  assert (Hpiece : forall lo hi, lo < hi -> P lo -> P hi ->
            nonemptyb (with_axis C a lo hi) = true /\
            well_formed (with_axis C a lo hi) /\
            ndim (with_axis C a lo hi) = ndim C /\
            Forall P (_beg (with_axis C a lo hi)) /\
            Forall P (_end (with_axis C a lo hi))).
  { intros lo hi Hlt Hlo Hhi. split; [|split; [|split; [|split]]].
    - apply nonemptyb_spec; [apply with_axis_well_formed; exact Hwf|].
      rewrite with_axis_ndim. intros i Hi. simpl.
      destruct (decide (i = a)) as [->|Hia].
      + unfold well_formed, ndim in *.
        rewrite !list_lookup_total_insert_eq by lia. exact Hlt.
      + rewrite !list_lookup_total_insert_ne by auto. apply Hne; auto.
    - apply with_axis_well_formed. exact Hwf.
    - apply with_axis_ndim.
    - simpl. apply Forall_insert; assumption.
    - simpl. apply Forall_insert; assumption. }
  unfold axis_leftovers.
  destruct (Z.ltb_spec (_beg C !!! a) (_beg I !!! a));
    destruct (Z.ltb_spec (_end I !!! a) (_end C !!! a)); simpl;
    (split; [lia|]);
    repeat (apply List.Forall_cons; [apply Hpiece; (lia || assumption)|]);
    apply List.Forall_nil.
Qed.

(** The loop over the axes [a, a + k) appends at most two pieces per axis,
    and none of them is empty. *)
Lemma intersection_split_loop_size (P : Z -> Prop) (I : IndexingExtent)
    (n k : nat) :
  forall (a : nat) (C : IndexingExtent) (lv : list IndexingExtent),
  well_formed C -> ndim C = n ->
  length (_beg I) = n -> length (_end I) = n -> (a + k <= n)%nat ->
  (forall i, (a <= i < a + k)%nat ->
     _beg C !!! i <= _beg I !!! i < _end I !!! i /\
     _end I !!! i <= _end C !!! i) ->
  (forall i, (i < n)%nat -> _beg C !!! i < _end C !!! i) ->
  Forall P (_beg C) -> Forall P (_end C) ->
  Forall P (_beg I) -> Forall P (_end I) ->
  exists C' N,
    for_each (intersection_split_body I) (seq a k) ([C], lv)
      = Ok ([C'], lv ++ N) /\
    (length N <= 2 * k)%nat /\
    Forall (fun E => nonemptyb E = true /\ well_formed E /\ ndim E = n /\
                     Forall P (_beg E) /\ Forall P (_end E)) N.
Proof.
  induction k as [|k IH];
    intros a C lv Hwf Hn HbI HeI Hak Hin Hne HPb HPe HPIb HPIe.
  - exists C, []. simpl. rewrite app_nil_r. split; [reflexivity|].
    split; [lia|constructor].
  - destruct (Hin a ltac:(lia)) as ((Hlo & Hlt) & Hhi).
    assert (HPa : P (_beg C !!! a) /\ P (_end C !!! a) /\
                  P (_beg I !!! a) /\ P (_end I !!! a)).
    { unfold well_formed, ndim in *.
      repeat split; apply Forall_lookup_total_1; auto; lia. }
    destruct HPa as (HPcb & HPce & HPib & HPie).
    set (C1 := with_axis C a (_beg I !!! a) (_end I !!! a)).
    assert (Hwf1 : well_formed C1) by (apply with_axis_well_formed; auto).
    assert (Hn1 : ndim C1 = n) by (unfold C1; rewrite with_axis_ndim; auto).
    assert (Hother : forall i, i <> a ->
              _beg C1 !!! i = _beg C !!! i /\ _end C1 !!! i = _end C !!! i).
    { intros i Hi. unfold C1. simpl.
      rewrite !list_lookup_total_insert_ne by auto. auto. }
    assert (Hat : _beg C1 !!! a = _beg I !!! a /\ _end C1 !!! a = _end I !!! a).
    { unfold C1. simpl. unfold well_formed, ndim in *.
      rewrite !list_lookup_total_insert_eq by lia. auto. }
    destruct (IH (S a) C1 (lv ++ axis_leftovers C I a) Hwf1 Hn1 HbI HeI
                ltac:(lia)) as (C' & N2 & Hrun & Hlen & Hall).
    { intros i Hi. destruct (Hother i ltac:(lia)) as [-> ->].
      apply Hin. lia. }
    { intros i Hi. destruct (decide (i = a)) as [->|Hia].
      - destruct Hat as [-> ->]. exact Hlt.
      - destruct (Hother i Hia) as [-> ->]. apply Hne. exact Hi. }
    { unfold C1. simpl. apply Forall_insert; assumption. }
    { unfold C1. simpl. apply Forall_insert; assumption. }
    { exact HPIb. }
    { exact HPIe. }
    destruct (axis_leftovers_size P I C a Hwf ltac:(lia)) as [Hl2 Hf2]; auto.
    { intros i Hi _. apply Hne. lia. }
    exists C', (axis_leftovers C I a ++ N2). split; [|split].
    + change (seq a (S k)) with (a :: seq (S a) k). cbn [for_each].
      rewrite intersection_split_body_spec by (auto; lia).
      cbn [mbind result_bind]. fold C1. rewrite Hrun, app_assoc.
      reflexivity.
    + rewrite length_app. lia.
    + apply List.Forall_app. split; [|exact Hall].
      rewrite Hn in Hf2. exact Hf2.
Qed.

(** The leftovers of [calc_intersection_split]: their number, and the
    bounds they carry. *)
Lemma calc_intersection_split_pieces (P : Z -> Prop)
    (self other I : IndexingExtent) :
  ndim self = ndim other -> well_formed self -> well_formed other ->
  calc_intersection self other = Ok (Some I) ->
  Forall P (_beg self) -> Forall P (_end self) ->
  Forall P (_beg other) -> Forall P (_end other) ->
  exists leftovers,
    calc_intersection_split self other = Ok (leftovers, Some I) /\
    (length leftovers <= 2 * ndim self)%nat /\
    Forall (fun E => nonemptyb E = true /\ well_formed E /\
                     ndim E = ndim self /\
                     Forall P (_beg E) /\ Forall P (_end E)) leftovers.
Proof.
  intros Hn Hs Ho HI HPsb HPse HPob HPoe.
  destruct (calc_intersection_Some self other I Hs Ho Hn HI) as [HIeq Hne].
  assert (HbI : length (_beg I) = ndim self).
  { subst I. simpl. rewrite length_zip_with. unfold ndim in *. lia. }
  assert (HeI : length (_end I) = ndim self).
  { subst I. simpl. rewrite length_zip_with.
    unfold ndim, well_formed in *. lia. }
  assert (Hin : forall i, (i < ndim self)%nat ->
            _beg self !!! i <= _beg I !!! i < _end I !!! i /\
            _end I !!! i <= _end self !!! i).
  { intros i Hi. specialize (Hne i Hi).
    assert (Hb : _beg I !!! i = Z.max (_beg self !!! i) (_beg other !!! i)).
    { subst I. apply meet_beg_total; auto. }
    assert (He : _end I !!! i = Z.min (_end self !!! i) (_end other !!! i)).
    { subst I. apply meet_end_total; unfold ndim, well_formed in *; lia. }
    lia. }
  assert (HPI : Forall P (_beg I) /\ Forall P (_end I)).
  { subst I. simpl. split; apply Forall_zip_with_choice; auto; intros x y;
      [destruct (Z.max_spec x y) as [[_ ->]|[_ ->]]
      |destruct (Z.min_spec x y) as [[_ ->]|[_ ->]]]; auto. }
  destruct HPI as [HPIb HPIe].
  destruct (intersection_split_loop_size P I (ndim self) (ndim self) 0 self []
              Hs eq_refl HbI HeI ltac:(lia))
    as (C' & N & Hrun & Hlen & Hall); auto.
  { intros i Hi. apply Hin. lia. }
  { intros i Hi. specialize (Hin i Hi). lia. }
  exists N. split; [|split; assumption].
  unfold calc_intersection_split. rewrite HI. simpl. rewrite Hrun.
  reflexivity.
Qed.

(** X4: when the intersection is present, [calc_intersection_split] returns
    at most two leftovers per axis, and every leftover is a well-formed
    extent of the dimension of [self] that is not empty. *)
Theorem calc_intersection_split_leftovers (self other I : IndexingExtent) :
  ndim self = ndim other -> well_formed self -> well_formed other ->
  calc_intersection self other = Ok (Some I) ->
  exists leftovers,
    calc_intersection_split self other = Ok (leftovers, Some I) /\
    (length leftovers <= 2 * ndim self)%nat /\
    Forall (fun E => nonemptyb E = true /\ well_formed E /\
                     ndim E = ndim self) leftovers.
Proof.
  intros Hn Hs Ho HI.
  destruct (calc_intersection_split_pieces (fun _ => True) self other I
              Hn Hs Ho HI) as (lv & Hrun & Hlen & Hall);
    try (apply List.Forall_forall; intros; exact Logic.I).
  exists lv. split; [exact Hrun|]. split; [exact Hlen|].
  eapply List.Forall_impl; [|exact Hall]. cbv beta. tauto.
Qed.

Lemma calc_intersection_split_leftovers_witness :
  exists leftovers,
    calc_intersection_split Examples.box_0_10 Examples.box_3_7
      = Ok (leftovers, Some Examples.box_3_7) /\
    (length leftovers <= 2 * ndim Examples.box_0_10)%nat /\
    Forall (fun E => nonemptyb E = true /\ well_formed E /\
                     ndim E = ndim Examples.box_0_10) leftovers.
Proof.
  apply (calc_intersection_split_leftovers Examples.box_0_10 Examples.box_3_7
           Examples.box_3_7); reflexivity.
Defined.

Lemma intersection_split_loop_same (I : IndexingExtent) (k : nat) :
  forall (a : nat) (lv : list IndexingExtent),
  well_formed I -> (a + k <= ndim I)%nat ->
  (forall i, (a <= i < a + k)%nat -> _beg I !!! i < _end I !!! i) ->
  for_each (intersection_split_body I) (seq a k) ([I], lv) = Ok ([I], lv).
Proof.
  induction k as [|k IH]; intros a lv Hwf Hak Hne; [reflexivity|].
  change (seq a (S k)) with (a :: seq (S a) k). cbn [for_each].
  rewrite intersection_split_body_spec;
    try (unfold well_formed, ndim in *; auto; lia).
  - rewrite with_axis_same by (auto; lia). unfold axis_leftovers.
    rewrite !Z.ltb_irrefl. simpl. rewrite app_nil_r.
    apply IH; auto; [lia|]. intros i Hi. apply Hne. lia.
  - apply Hne. lia.
Qed.

Lemma zip_with_max_le (l k : list Z) :
  length l = length k ->
  (forall i, (i < length l)%nat -> k !!! i <= l !!! i) ->
  zip_with Z.max l k = l.
Proof.
  revert k. induction l as [|x l IH]; intros [|y k] Hlen H; simpl in *;
    try reflexivity; try discriminate.
  f_equal.
  - specialize (H 0%nat ltac:(lia)). simpl in H. lia.
  - apply IH; [lia|]. intros i Hi. apply (H (S i)). lia.
Qed.

Lemma zip_with_min_le (l k : list Z) :
  length l = length k ->
  (forall i, (i < length l)%nat -> l !!! i <= k !!! i) ->
  zip_with Z.min l k = l.
Proof.
  revert k. induction l as [|x l IH]; intros [|y k] Hlen H; simpl in *;
    try reflexivity; try discriminate.
  f_equal.
  - specialize (H 0%nat ltac:(lia)). simpl in H. lia.
  - apply IH; [lia|]. intros i Hi. apply (H (S i)). lia.
Qed.

(** X5: an extent without an empty axis that lies inside [other] is its own
    intersection with [other], and [calc_intersection_split] leaves nothing
    over. *)
Theorem calc_intersection_split_inside (self other : IndexingExtent) :
  ndim self = ndim other -> well_formed self -> well_formed other ->
  (forall i, (i < ndim self)%nat ->
     _beg other !!! i <= _beg self !!! i /\
     _beg self !!! i < _end self !!! i /\
     _end self !!! i <= _end other !!! i) ->
  calc_intersection_split self other = Ok ([], Some self).
Proof.
  intros Hn Hs Ho Hin.
  assert (Hmeet : meet self other = self).
  { unfold meet. destruct self as [b e]. unfold well_formed, ndim in *.
    simpl in *. f_equal.
    - apply zip_with_max_le; [lia|]. intros i Hi. apply Hin. exact Hi.
    - apply zip_with_min_le; [lia|]. intros i Hi. apply Hin. lia. }
  unfold calc_intersection_split.
  rewrite calc_intersection_same_ndim, Hmeet by auto.
  replace (np_any (zip_with Z.geb (_beg self) (_end self))) with false.
  - cbn [mbind result_bind].
    rewrite intersection_split_loop_same; auto.
    intros i Hi. apply Hin. lia.
  - symmetry. apply np_any_zip_ge_false; [exact Hs|].
    intros i Hi. apply Hin. exact Hi.
Qed.

Lemma calc_intersection_split_inside_witness :
  calc_intersection_split Examples.box_3_7 Examples.box_0_10
    = Ok ([], Some Examples.box_3_7).
Proof.
  apply (calc_intersection_split_inside Examples.box_3_7 Examples.box_0_10);
    try reflexivity.
  intros i Hi. change (ndim Examples.box_3_7) with 2%nat in Hi.
  destruct i as [|[|i]]; [vm_compute; intuition discriminate..|lia].
Defined.

(** ** [indexing.py]: slices and index frames *)

Lemma collect_ext {X A : Type} (f : X -> result A) (g : X -> A) (xs : list X) :
  (forall x, In x xs -> f x = Ok (g x)) -> collect f xs = Ok (g <$> xs).
Proof.
  induction xs as [|x xs IH]; intros H; [reflexivity|].
  cbn [collect]. rewrite (H x) by (left; reflexivity).
  cbn [mbind result_bind]. rewrite IH by (intros y Hy; apply H; right; exact Hy).
  reflexivity.
Qed.

Lemma collect_raise {X A : Type} (f : X -> result A) (xs ys : list X) (y : X)
    (e : exn) :
  (forall x, In x xs -> exists v, f x = Ok v) -> f y = Raise e ->
  collect f (xs ++ y :: ys) = Raise e.
Proof.
  induction xs as [|x xs IH]; intros H Hy; simpl.
  - rewrite Hy. reflexivity.
  - destruct (H x ltac:(left; reflexivity)) as [v ->]. simpl.
    rewrite IH; [reflexivity| |exact Hy].
    intros z Hz. apply H. right. exact Hz.
Qed.

Lemma fmap_seq_lookup_total {A : Type} `{Inhabited A} (l : list A) :
  (fun i : nat => l !!! i) <$> seq 0 (length l) = l.
Proof.
  induction l as [|x l IH]; [reflexivity|].
  simpl. f_equal. rewrite <- fmap_S_seq, <- list_fmap_compose. exact IH.
Qed.

Lemma seq_In_lt (n i : nat) : In i (seq 0 n) -> (i < n)%nat.
Proof. rewrite in_seq. lia. Qed.

Lemma getitem_total_pair (l : list (Z * Z)) (i : nat) :
  (i < length l)%nat -> getitem l i = Ok (l !!! i).
Proof.
  intros Hi. apply getitem_lookup. apply list_lookup_lookup_total_lt. exact Hi.
Qed.

Lemma fmap_lookup_total_seq {A : Type} `{Inhabited A} (g : nat -> A)
    (n i : nat) :
  (i < n)%nat -> (g <$> seq 0 n) !!! i = g i.
Proof.
  intros Hi. apply list_lookup_total_correct.
  rewrite list_lookup_fmap, lookup_seq_lt by exact Hi. reflexivity.
Qed.

Lemma zip_as_fmap_seq (b e : list Z) :
  length b = length e ->
  (fun i : nat => (b !!! i, e !!! i)) <$> seq 0 (length b) = zip b e.
Proof.
  intros Hlen.
  rewrite <- (fmap_seq_lookup_total (zip b e)) at 1.
  rewrite length_zip_with.
  replace (length b `min` length e)%nat with (length b) by lia.
  apply list_fmap_ext. intros j i Hi.
  apply lookup_seq in Hi. symmetry. apply zip_lookup_total; lia.
Qed.

Import Frames.

(** X6: [to_slice] of a well-formed extent with int64 bounds returns one
    slice per axis, pairing the bounds, and constructing an extent from
    these slices gives the extent back. *)
Theorem to_slice_round_trip (x : IndexingExtent) :
  well_formed x ->
  forallb in_int64 (_beg x) = true -> forallb in_int64 (_end x) = true ->
  to_slice x = Ok (zip (_beg x) (_end x)) /\
  IndexingExtent_init (Some (zip (_beg x) (_end x))) None None = Ok x.
Proof.
  unfold well_formed. intros Hwf Hb He. split.
  - unfold to_slice. rewrite <- zip_as_fmap_seq by exact Hwf.
    apply collect_ext. intros i Hi. apply seq_In_lt in Hi.
    rewrite !getitem_total by lia. reflexivity.
  - unfold IndexingExtent_init, np_array_int64.
    rewrite fst_zip, snd_zip by lia. rewrite Hb, He. destruct x; reflexivity.
Qed.

Lemma to_slice_round_trip_witness :
  to_slice Examples.box_3_7 = Ok [(3, 7); (2, 8)] /\
  IndexingExtent_init (Some [(3, 7); (2, 8)]) None None = Ok Examples.box_3_7.
Proof.
  apply (to_slice_round_trip Examples.box_3_7); reflexivity.
Defined.

Lemma wrap64_frame_back (x g : Z) :
  - 2 ^ 63 <= g < 2 ^ 63 -> wrap64 (x + wrap64 (wrap64 (- x) + g)) = g.
Proof.
  intros Hg.
  destruct (wrap64_cases (- x)) as (k1 & -> & _).
  destruct (wrap64_cases (- x + k1 * 2 ^ 64 + g)) as (k2 & -> & _).
  destruct (wrap64_cases (x + (- x + k1 * 2 ^ 64 + g + k2 * 2 ^ 64)))
    as (k3 & -> & H3). lia.
Qed.

Lemma wrap64_frame_forth (x l : Z) :
  - 2 ^ 63 <= l < 2 ^ 63 -> wrap64 (wrap64 (- x) + wrap64 (x + l)) = l.
Proof.
  intros Hl.
  destruct (wrap64_cases (- x)) as (k1 & -> & _).
  destruct (wrap64_cases (x + l)) as (k2 & -> & _).
  destruct (wrap64_cases (- x + k1 * 2 ^ 64 + (x + l + k2 * 2 ^ 64)))
    as (k3 & -> & H3). lia.
Qed.

Lemma zip_with_round_trip (f h : Z -> Z -> Z) (l g : list Z) :
  length l = length g -> forallb in_int64 g = true ->
  (forall x y, - 2 ^ 63 <= y < 2 ^ 63 -> f x (h x y) = y) ->
  zip_with f l (zip_with h l g) = g.
Proof.
  intros Hlen Hg Hfh. revert g Hlen Hg.
  induction l as [|x l IH]; intros [|y g] Hlen Hg; simpl in *;
    try reflexivity; try discriminate.
  apply andb_true_iff in Hg. destruct Hg as [Hy Hg].
  rewrite Hfh by (apply in_int64_range; exact Hy).
  rewrite IH by (auto; lia). reflexivity.
Qed.

Lemma np_add_same (l k : list Z) :
  length l = length k ->
  np_add l k = Ok (zip_with (fun x y => wrap64 (x + y)) l k).
Proof. intros H. unfold np_add. apply broadcast2_same. exact H. Qed.

Lemma frame_there_and_back (s g : list Z) :
  length s = length g -> forallb in_int64 g = true ->
  exists l, np_add (np_negative s) g = Ok l /\ length l = length g /\
    np_add s l = Ok g.
Proof.
  intros Hlen Hg. unfold np_negative.
  rewrite np_add_same by (rewrite length_fmap; exact Hlen).
  eexists. split; [reflexivity|]. split.
  - rewrite length_zip_with, length_fmap. lia.
  - rewrite np_add_same by (rewrite length_zip_with, length_fmap; lia).
    f_equal. rewrite zip_with_fmap_l.
    apply (zip_with_round_trip (fun x y => wrap64 (x + y))
             (fun x y => wrap64 (wrap64 (- x) + y))); auto.
    intros x y Hy. apply wrap64_frame_back. exact Hy.
Qed.

Lemma frame_back_and_there (s l : list Z) :
  length s = length l -> forallb in_int64 l = true ->
  exists g, np_add s l = Ok g /\ length g = length l /\
    np_add (np_negative s) g = Ok l.
Proof.
  intros Hlen Hl. rewrite np_add_same by exact Hlen.
  eexists. split; [reflexivity|]. split.
  - rewrite length_zip_with. lia.
  - unfold np_negative.
    rewrite np_add_same by (rewrite length_zip_with, length_fmap; lia).
    f_equal. rewrite zip_with_fmap_l.
    apply (zip_with_round_trip (fun x y => wrap64 (wrap64 (- x) + y))
             (fun x y => wrap64 (x + y))); auto.
    intros x y Hy. apply wrap64_frame_forth. exact Hy.
Qed.

Lemma start_h_length (self : HaloIndexingExtent) :
  length (Indexing._halo self) = ndim (extent self) ->
  exists s, start_h self = Ok s /\ length s = ndim (extent self).
Proof.
  unfold ndim, start_h, np_sub. intros Hh.
  rewrite broadcast2_same
    by (destruct (Indexing._halo self); simpl in *; rewrite ?length_fmap; lia).
  eexists. split; [reflexivity|].
  rewrite length_zip_with. simpl. rewrite length_fmap. lia.
Qed.

(** X7: the two index frames of an extent are inverse to each other.  For
    an int64 index vector of the dimension of the extent,
    [locale_to_globale_h] undoes [globale_to_locale_h] and the other way
    round, and so do the [_n] conversions, whatever the bounds and the halo
    of the extent are. *)
Theorem frame_round_trip (self : HaloIndexingExtent) (idx : list Z) :
  length (Indexing._halo self) = ndim (extent self) ->
  length idx = ndim (extent self) -> forallb in_int64 idx = true ->
  (exists l, globale_to_locale_h self idx = Ok l /\
             locale_to_globale_h self l = Ok idx) /\
  (exists g, locale_to_globale_h self idx = Ok g /\
             globale_to_locale_h self g = Ok idx) /\
  (exists l, globale_to_locale_n self idx = Ok l /\
             locale_to_globale_n self l = Ok idx) /\
  (exists g, locale_to_globale_n self idx = Ok g /\
             globale_to_locale_n self g = Ok idx).
Proof.
  intros Hh Hlen Hidx.
  destruct (start_h_length self Hh) as (s & Hs & Hsl).
  unfold globale_to_locale_h, locale_to_globale_h, globale_to_locale_n,
    locale_to_globale_n, start_n. rewrite Hs. cbn [mbind result_bind].
  split; [|split; [|split]].
  - destruct (frame_there_and_back s idx ltac:(lia) Hidx) as (l & H1 & _ & H2).
    exists l. split; assumption.
  - destruct (frame_back_and_there s idx ltac:(lia) Hidx) as (g & H1 & _ & H2).
    exists g. split; assumption.
  - destruct (frame_there_and_back (_beg (extent self)) idx
                ltac:(unfold ndim in *; lia) Hidx) as (l & H1 & _ & H2).
    exists l. split; assumption.
  - destruct (frame_back_and_there (_beg (extent self)) idx
                ltac:(unfold ndim in *; lia) Hidx) as (g & H1 & _ & H2).
    exists g. split; assumption.
Qed.

Lemma frame_round_trip_witness :
  (exists l, globale_to_locale_h MoreExamples.hie_10_20 [13] = Ok l /\
             locale_to_globale_h MoreExamples.hie_10_20 l = Ok [13]) /\
  (exists g, locale_to_globale_h MoreExamples.hie_10_20 [13] = Ok g /\
             globale_to_locale_h MoreExamples.hie_10_20 g = Ok [13]) /\
  (exists l, globale_to_locale_n MoreExamples.hie_10_20 [13] = Ok l /\
             locale_to_globale_n MoreExamples.hie_10_20 l = Ok [13]) /\
  (exists g, locale_to_globale_n MoreExamples.hie_10_20 [13] = Ok g /\
             globale_to_locale_n MoreExamples.hie_10_20 g = Ok [13]).
Proof.
  apply (frame_round_trip MoreExamples.hie_10_20 [13]); reflexivity.
Defined.

Lemma wrap64_slice_back (x b h : Z) :
  - 2 ^ 63 <= x < 2 ^ 63 ->
  wrap64 (wrap64 (wrap64 (wrap64 (x - b) + h) + b) - h) = x.
Proof.
  intros Hx.
  destruct (wrap64_cases (x - b)) as (k1 & -> & _).
  destruct (wrap64_cases (x - b + k1 * 2 ^ 64 + h)) as (k2 & -> & _).
  destruct (wrap64_cases (x - b + k1 * 2 ^ 64 + h + k2 * 2 ^ 64 + b))
    as (k3 & -> & _).
  destruct (wrap64_cases
              (x - b + k1 * 2 ^ 64 + h + k2 * 2 ^ 64 + b + k3 * 2 ^ 64 - h))
    as (k4 & -> & H4). lia.
Qed.

Lemma wrap64_slice_back_n (x b : Z) :
  - 2 ^ 63 <= x < 2 ^ 63 -> wrap64 (wrap64 (x - b) + b) = x.
Proof. apply wrap64_sub_add. Qed.

Lemma slices_int64_lookup (sl : list (Z * Z)) (i : nat) :
  slices_int64 sl = true -> (i < length sl)%nat ->
  - 2 ^ 63 <= fst (sl !!! i) < 2 ^ 63 /\ - 2 ^ 63 <= snd (sl !!! i) < 2 ^ 63.
Proof.
  unfold slices_int64. intros H Hi.
  rewrite forallb_forall in H.
  specialize (H (sl !!! i)).
  rewrite andb_true_iff, !in_int64_range in H. apply H.
  apply list_elem_of_In. apply list_elem_of_lookup. exists i.
  apply list_lookup_lookup_total_lt. exact Hi.
Qed.

Lemma halo_at_total (h : halo_matrix) (i : nat) (d : Side) :
  (i < length h)%nat ->
  halo_at h i d = Ok (match d with LO => fst (h !!! i) | HI => snd (h !!! i) end).
Proof.
  intros Hi. unfold halo_at. rewrite getitem_total_pair by exact Hi.
  reflexivity.
Qed.

(** X8: the slice conversions between the two index frames.  A tuple of
    int64 slices that is not longer than the dimension of the extent is
    converted slice by slice, and [locale_to_globale_slice_h] undoes
    [globale_to_locale_slice_h]; a tuple that is longer is not cut short, it
    raises [IndexError]. *)
Theorem slice_frame_round_trip (self : HaloIndexingExtent)
    (gslice : list (Z * Z)) :
  length (Indexing._halo self) = ndim (extent self) ->
  slices_int64 gslice = true ->
  if decide (length gslice <= ndim (extent self))%nat then
    exists lslice,
      globale_to_locale_slice_h self gslice = Ok lslice /\
      length lslice = length gslice /\
      locale_to_globale_slice_h self lslice = Ok gslice
  else globale_to_locale_slice_h self gslice = Raise IndexError.
Proof.
  unfold ndim. intros Hh Hg.
  set (b := _beg (extent self)) in *. set (hm := Indexing._halo self) in *.
  set (g := fun i : nat =>
         (wrap64 (wrap64 (fst (gslice !!! i) - b !!! i) + fst (hm !!! i)),
          wrap64 (wrap64 (snd (gslice !!! i) - b !!! i) + fst (hm !!! i)))).
  destruct (decide (length gslice <= length b)%nat) as [Hle|Hgt].
  - assert (H1 : globale_to_locale_slice_h self gslice
                 = Ok (g <$> seq 0 (length gslice))).
    { unfold globale_to_locale_slice_h. apply collect_ext.
      intros i Hi. apply seq_In_lt in Hi. fold b hm.
      rewrite getitem_total_pair by exact Hi. cbn [mbind result_bind].
      rewrite (getitem_total b) by lia. cbn [mbind result_bind].
      rewrite (halo_at_total hm i LO) by lia. reflexivity. }
    exists (g <$> seq 0 (length gslice)). split; [exact H1|].
    split; [rewrite length_fmap, length_seq; reflexivity|].
    unfold locale_to_globale_slice_h. fold b hm.
    rewrite length_fmap, length_seq.
    replace (Ok gslice : result (list (Z * Z)))
      with (Ok ((fun i : nat => gslice !!! i) <$> seq 0 (length gslice))
              : result (list (Z * Z)))
      by (rewrite fmap_seq_lookup_total; reflexivity).
    apply collect_ext. intros i Hi. apply seq_In_lt in Hi.
    rewrite getitem_total_pair by (rewrite length_fmap, length_seq; exact Hi).
    cbn [mbind result_bind].
    rewrite (getitem_total b) by lia. cbn [mbind result_bind].
    rewrite (halo_at_total hm i LO) by lia. cbn [mbind result_bind mret result_ret].
    rewrite fmap_lookup_total_seq by exact Hi. unfold g. cbn [fst snd].
    destruct (slices_int64_lookup gslice i Hg Hi) as [Hf Hs].
    rewrite !wrap64_slice_back by assumption.
    destruct (gslice !!! i); reflexivity.
  - unfold globale_to_locale_slice_h. fold b hm.
    replace (length gslice) with (length b + S (length gslice - length b - 1))%nat
      by lia.
    rewrite seq_app. cbn [seq]. apply collect_raise.
    + intros i Hi. apply in_seq in Hi.
      rewrite getitem_total_pair by lia. cbn [mbind result_bind].
      rewrite (getitem_total b) by lia. cbn [mbind result_bind].
      rewrite (halo_at_total hm i LO) by lia. eexists. reflexivity.
    + rewrite getitem_total_pair by lia. cbn [mbind result_bind].
      unfold getitem. rewrite lookup_ge_None_2 by lia. reflexivity.
Qed.

Lemma slice_frame_round_trip_witness :
  exists lslice,
    globale_to_locale_slice_h MoreExamples.hie_4_8 [(5, 7)] = Ok lslice /\
    length lslice = 1%nat /\
    locale_to_globale_slice_h MoreExamples.hie_4_8 lslice = Ok [(5, 7)].
Proof.
  apply (slice_frame_round_trip MoreExamples.hie_4_8 [(5, 7)]); reflexivity.
Defined.

Lemma list_eq_total (l k : list Z) :
  length l = length k ->
  (forall i, (i < length l)%nat -> l !!! i = k !!! i) -> l = k.
Proof.
  revert k. induction l as [|x l IH]; intros [|y k] Hlen H; simpl in *;
    try reflexivity; try discriminate.
  f_equal.
  - apply (H 0%nat). lia.
  - apply IH; [lia|]. intros i Hi. apply (H (S i)). lia.
Qed.

Lemma fmap_lookup_total_Z (f : Z -> Z) (l : list Z) (i : nat) :
  (i < length l)%nat -> (f <$> l) !!! i = f (l !!! i).
Proof. apply list_lookup_total_fmap. Qed.

Lemma np_sub_same (l k : list Z) :
  length l = length k ->
  np_sub l k = Ok (zip_with (fun x y => wrap64 (x - y)) l k).
Proof. intros H. unfold np_sub. apply broadcast2_same. exact H. Qed.

Lemma wrap64_shape_h (e b hl hh : Z) :
  wrap64 (wrap64 (wrap64 (e + hh) - b) + hl)
    = wrap64 (wrap64 (e + hh) - wrap64 (b - hl)) /\
  wrap64 (wrap64 (wrap64 (e + hh) - b) + hl)
    = wrap64 (wrap64 (wrap64 (e - b) + hl) + hh).
Proof.
  destruct (wrap64_cases (e + hh)) as (k1 & E1 & _).
  destruct (wrap64_cases (wrap64 (e + hh) - b)) as (k2 & E2 & _).
  destruct (wrap64_cases (wrap64 (wrap64 (e + hh) - b) + hl)) as (k3 & E3 & R3).
  destruct (wrap64_cases (b - hl)) as (k4 & E4 & _).
  destruct (wrap64_cases (wrap64 (e + hh) - wrap64 (b - hl))) as (k5 & E5 & R5).
  destruct (wrap64_cases (e - b)) as (k6 & E6 & _).
  destruct (wrap64_cases (wrap64 (e - b) + hl)) as (k7 & E7 & _).
  destruct (wrap64_cases (wrap64 (wrap64 (e - b) + hl) + hh)) as (k8 & E8 & R8).
  lia.
Qed.

(** X9: the shape with halo is consistent with the bounds with halo and
    with the shape without halo.  On each axis [shape_h] is
    [stop_h - start_h] and is [shape_n] plus the two halo widths, in int64
    arithmetic, although the code computes it in another order. *)
Theorem shape_h_consistent (self : HaloIndexingExtent) :
  well_formed (extent self) ->
  length (Indexing._halo self) = ndim (extent self) ->
  exists sh sn s t,
    shape_h self = Ok sh /\ shape_n self = Ok sn /\
    start_h self = Ok s /\ stop_h self = Ok t /\
    length sh = ndim (extent self) /\
    forall i, (i < ndim (extent self))%nat ->
      sh !!! i = wrap64 (t !!! i - s !!! i) /\
      sh !!! i = wrap64 (wrap64 (sn !!! i + fst (Indexing._halo self !!! i))
                         + snd (Indexing._halo self !!! i)).
Proof.
  unfold well_formed, ndim. intros Hwf Hh.
  destruct self as [[b e] hm]. simpl in *.
  unfold shape_h, shape_n, start_h, stop_h. simpl.
  rewrite (np_add_same e) by (rewrite length_fmap; lia).
  cbn [mbind result_bind].
  rewrite np_sub_same by (rewrite length_zip_with, length_fmap; lia).
  cbn [mbind result_bind].
  rewrite np_add_same by (rewrite !length_zip_with, !length_fmap; lia).
  rewrite (np_sub_same e) by lia.
  rewrite (np_sub_same b) by (rewrite length_fmap; lia).
  do 4 eexists. repeat (split; [reflexivity|]).
  split; [rewrite !length_zip_with, !length_fmap; lia|].
  intros i Hi.
  rewrite !zip_with_lookup_total_Z, !fmap_lookup_total_col;
    rewrite ?length_zip_with, ?length_fmap; try lia.
  apply wrap64_shape_h.
Qed.

Lemma shape_h_consistent_witness :
  exists sh sn s t,
    shape_h MoreExamples.hie_10_20 = Ok sh /\
    shape_n MoreExamples.hie_10_20 = Ok sn /\
    start_h MoreExamples.hie_10_20 = Ok s /\
    stop_h MoreExamples.hie_10_20 = Ok t /\
    length sh = ndim (extent MoreExamples.hie_10_20) /\
    forall i, (i < ndim (extent MoreExamples.hie_10_20))%nat ->
      sh !!! i = wrap64 (t !!! i - s !!! i) /\
      sh !!! i = wrap64 (wrap64 (sn !!! i +
                                 fst (Indexing._halo MoreExamples.hie_10_20 !!! i))
                         + snd (Indexing._halo MoreExamples.hie_10_20 !!! i)).
Proof.
  apply (shape_h_consistent MoreExamples.hie_10_20); reflexivity.
Defined.

Lemma wrap64_shift_diff (s e b : Z) :
  wrap64 (wrap64 (wrap64 (- s) + e) - wrap64 (wrap64 (- s) + b))
    = wrap64 (e - b).
Proof.
  destruct (wrap64_cases (- s)) as (k1 & E1 & _).
  destruct (wrap64_cases (wrap64 (- s) + e)) as (k2 & E2 & _).
  destruct (wrap64_cases (wrap64 (- s) + b)) as (k3 & E3 & _).
  destruct (wrap64_cases (wrap64 (wrap64 (- s) + e) - wrap64 (wrap64 (- s) + b)))
    as (k4 & E4 & R4).
  destruct (wrap64_cases (e - b)) as (k5 & E5 & R5).
  lia.
Qed.

(** X10: [globale_to_locale_extent_h] translates an extent into the locale
    frame.  The result keeps the halo and the shape of the argument, and
    [locale_to_globale_h] maps its bounds back to the bounds of the
    argument. *)
Theorem globale_to_locale_extent_h_translates (self gext : HaloIndexingExtent) :
  length (Indexing._halo self) = ndim (extent self) ->
  well_formed (extent gext) -> ndim (extent gext) = ndim (extent self) ->
  forallb in_int64 (start_n gext) = true ->
  forallb in_int64 (stop_n gext) = true ->
  exists lext,
    globale_to_locale_extent_h self gext = Ok lext /\
    Indexing._halo lext = Indexing._halo gext /\
    shape_n lext = shape_n gext /\
    locale_to_globale_h self (start_n lext) = Ok (start_n gext) /\
    locale_to_globale_h self (stop_n lext) = Ok (stop_n gext).
Proof.
  unfold well_formed, ndim, start_n, stop_n. intros Hh Hwf Hn Hb He.
  destruct (start_h_length self Hh) as (s & Hs & Hsl). unfold ndim in Hsl.
  destruct (frame_there_and_back s (_beg (extent gext)) ltac:(lia) Hb)
    as (lb & Hlb & Hlbl & Hlb').
  destruct (frame_there_and_back s (_end (extent gext)) ltac:(lia) He)
    as (le & Hle & Hlel & Hle').
  assert (Rlb : forallb in_int64 lb = true).
  { apply forallb_forall. intros x Hx. apply list_elem_of_In in Hx.
    apply list_elem_of_lookup in Hx as [i Hi].
    unfold np_add in Hlb.
    pose proof (broadcast2_wrap_range Z.add _ _ _ i Hlb
                  ltac:(apply lookup_lt_Some in Hi; exact Hi)) as R.
    rewrite (list_lookup_total_correct _ _ _ Hi) in R.
    apply in_int64_range. exact R. }
  assert (Rle : forallb in_int64 le = true).
  { apply forallb_forall. intros x Hx. apply list_elem_of_In in Hx.
    apply list_elem_of_lookup in Hx as [i Hi].
    unfold np_add in Hle.
    pose proof (broadcast2_wrap_range Z.add _ _ _ i Hle
                  ltac:(apply lookup_lt_Some in Hi; exact Hi)) as R.
    rewrite (list_lookup_total_correct _ _ _ Hi) in R.
    apply in_int64_range. exact R. }
  exists (mkHaloIndexingExtent (mkIndexingExtent lb le) (Indexing._halo gext)).
  split; [|split; [reflexivity|split; [|split]]].
  - unfold globale_to_locale_extent_h, globale_to_locale_h, start_n, stop_n.
    rewrite Hs. cbn [mbind result_bind]. rewrite Hlb. cbn [mbind result_bind].
    unfold np_array_int64. rewrite Rlb. cbn [mbind result_bind].
    rewrite Hle. cbn [mbind result_bind]. rewrite Rle. reflexivity.
  - unfold shape_n. cbn [extent _beg _end].
    rewrite !np_sub_same by lia. f_equal.
    unfold np_negative in Hlb, Hle.
    rewrite np_add_same in Hlb, Hle by (rewrite length_fmap; lia).
    injection Hlb as <-. injection Hle as <-.
    apply list_eq_total.
    + rewrite !length_zip_with, !length_fmap. lia.
    + intros i Hi. rewrite !length_zip_with, !length_fmap in Hi.
      rewrite !zip_with_lookup_total_Z, !fmap_lookup_total_Z;
        rewrite ?length_zip_with, ?length_fmap; try lia.
      apply wrap64_shift_diff.
  - unfold locale_to_globale_h. rewrite Hs. exact Hlb'.
  - unfold locale_to_globale_h. rewrite Hs. exact Hle'.
Qed.

Lemma globale_to_locale_extent_h_translates_witness :
  exists lext,
    globale_to_locale_extent_h MoreExamples.hie_10_20 MoreExamples.hie_12_18
      = Ok lext /\
    Indexing._halo lext = Indexing._halo MoreExamples.hie_12_18 /\
    shape_n lext = shape_n MoreExamples.hie_12_18 /\
    locale_to_globale_h MoreExamples.hie_10_20 (start_n lext)
      = Ok (start_n MoreExamples.hie_12_18) /\
    locale_to_globale_h MoreExamples.hie_10_20 (stop_n lext)
      = Ok (stop_n MoreExamples.hie_12_18).
Proof.
  apply (globale_to_locale_extent_h_translates MoreExamples.hie_10_20
           MoreExamples.hie_12_18); reflexivity.
Defined.

(** ** [indexing.py]: the module-level [calc_intersection_split] *)

Lemma broadcast2_wrap_forallb (f : Z -> Z -> Z) (a b r : list Z) :
  broadcast2 (fun x y => wrap64 (f x y)) a b = Ok r ->
  forallb in_int64 r = true.
Proof.
  intros Hr. apply forallb_forall. intros x Hx. apply list_elem_of_In in Hx.
  apply list_elem_of_lookup in Hx as [i Hi].
  pose proof (broadcast2_wrap_range f _ _ _ i Hr
                ltac:(apply lookup_lt_Some in Hi; exact Hi)) as R.
  rewrite (list_lookup_total_correct _ _ _ Hi) in R.
  apply in_int64_range. exact R.
Qed.

Lemma forallb_int64_Forall (l : list Z) :
  forallb in_int64 l = true <-> Forall (fun z => in_int64 z = true) l.
Proof.
  rewrite forallb_forall, List.Forall_forall. reflexivity.
Qed.

Lemma calc_intersection_disjoint (x y : IndexingExtent) :
  well_formed x -> well_formed y -> ndim x = ndim y ->
  disjoint x y -> calc_intersection x y = Ok None.
Proof.
  intros Hx Hy Hn Hd.
  destruct (meet_well_formed x y Hx Hy Hn) as [Hwm Hnm].
  rewrite calc_intersection_same_ndim by auto.
  destruct (np_any _) eqn:Hany; [reflexivity|]. exfalso.
  apply (Hd (_beg (meet x y))). apply contains_meet; auto.
  apply nonempty_contains_beg; [exact Hwm|].
  apply np_any_zip_ge_false; exact Hany || exact Hwm.
Qed.

Lemma IndexingExtent_init_bounds (b e : list Z) :
  forallb in_int64 b = true -> forallb in_int64 e = true ->
  IndexingExtent_init None (Some b) (Some e) = Ok (mkIndexingExtent b e).
Proof.
  intros Hb He. unfold IndexingExtent_init, np_array_int64.
  rewrite Hb, He. reflexivity.
Qed.

(** The first step of the module-level [calc_intersection_split]: the box
    to cut and the halo the leftovers receive. *)
Lemma dst_box_first (dst : HaloIndexingExtent) (flag : bool)
    (B : IndexingExtent) :
  halo_extent_ok dst -> ExtentSplit.dst_box dst flag = Ok B ->
  (if flag then
     s ← start_h dst; t ← stop_h dst;
     ie ← IndexingExtent_init None (Some s) (Some t);
     mret (ie, HaloInt 0)
   else
     ie ← IndexingExtent_init None (Some (start_n dst)) (Some (stop_n dst));
     mret (ie, HaloMat (Indexing._halo dst)))
  = Ok (B, if flag then HaloInt 0 else HaloMat (Indexing._halo dst)) /\
  well_formed B /\ ndim B = ndim (extent dst) /\
  forallb in_int64 (_beg B) = true /\ forallb in_int64 (_end B) = true.
Proof.
  intros (Hwf & Hh & Hb & He & Hl & Hu). unfold ExtentSplit.dst_box.
  destruct flag.
  - unfold start_h, stop_h, np_sub, np_add.
    rewrite !broadcast2_same by (cbn [halo_col]; rewrite length_fmap; lia).
    cbn [mbind result_bind mret result_ret]. intros HB. injection HB as <-.
    rewrite IndexingExtent_init_bounds.
    + split; [reflexivity|]. unfold well_formed, ndim. cbn [_beg _end].
      rewrite !length_zip_with. cbn [halo_col]. rewrite !length_fmap.
      split; [lia|]. split; [lia|]. split.
      * eapply (broadcast2_wrap_forallb Z.sub). apply broadcast2_same.
        rewrite length_fmap. lia.
      * eapply (broadcast2_wrap_forallb Z.add). apply broadcast2_same.
        rewrite length_fmap. lia.
    + eapply (broadcast2_wrap_forallb Z.sub). apply broadcast2_same.
      cbn [halo_col]. rewrite length_fmap. lia.
    + eapply (broadcast2_wrap_forallb Z.add). apply broadcast2_same.
      cbn [halo_col]. rewrite length_fmap. lia.
  - cbn [mret result_ret]. intros HB. injection HB as <-.
    unfold start_n, stop_n. rewrite IndexingExtent_init_bounds by assumption.
    destruct (extent dst) as [b e]. split; [reflexivity|].
    unfold well_formed, ndim. simpl in *. auto.
Qed.

Lemma leftover_extent_ok (dst : HaloIndexingExtent) (flag : bool)
    (E : IndexingExtent) :
  halo_extent_ok dst -> ndim E = ndim (extent dst) ->
  forallb in_int64 (_beg E) = true -> forallb in_int64 (_end E) = true ->
  ExtentSplit.leftover_extent dst
    (if flag then HaloInt 0 else HaloMat (Indexing._halo dst)) E
  = Ok (mkHaloIndexingExtent E
          (if flag then replicate (ndim (extent dst)) (0, 0)
           else Indexing._halo dst)).
Proof.
  intros (Hwf & Hh & Hb & He & Hl & Hu) Hn HEb HEe.
  unfold ExtentSplit.leftover_extent, np_array_int64. rewrite HEb, HEe.
  cbn [mbind result_bind]. unfold set_halo. cbn [extent].
  replace (ndim {| _beg := _beg E; _end := _end E |}) with (ndim (extent dst))
    by (rewrite <- Hn; reflexivity).
  destruct E as [b e]. destruct flag; cbn [convert_halo_to_array_form].
  - reflexivity.
  - rewrite decide_True by exact Hh. unfold np_array_int64.
    cbn [halo_col] in Hl, Hu. rewrite Hl, Hu. reflexivity.
Qed.

Lemma collect_leftovers (dst : HaloIndexingExtent) (flag : bool)
    (lv : list IndexingExtent) :
  halo_extent_ok dst ->
  Forall (fun E => ndim E = ndim (extent dst) /\
                   forallb in_int64 (_beg E) = true /\
                   forallb in_int64 (_end E) = true) lv ->
  collect (ExtentSplit.leftover_extent dst
             (if flag then HaloInt 0 else HaloMat (Indexing._halo dst))) lv
  = Ok ((fun E => mkHaloIndexingExtent E
                    (if flag then replicate (ndim (extent dst)) (0, 0)
                     else Indexing._halo dst)) <$> lv).
Proof.
  intros Hd Hall. apply collect_ext. intros E HE.
  rewrite List.Forall_forall in Hall. destruct (Hall E HE) as (Hn & Hb & He).
  apply leftover_extent_ok; assumption.
Qed.

(** X11: without an overlap the module-level [calc_intersection_split]
    returns the destination extent itself as the only leftover, and no
    update: the extent that the method put into its leftovers list (the
    source box) does not reach the caller. *)
Theorem extent_split_no_overlap {U : Type} (dst src : HaloIndexingExtent)
    (update_factory : HaloIndexingExtent -> HaloIndexingExtent ->
                      IndexingExtent -> result (list U))
    (update_dst_halo : bool) (B : IndexingExtent) :
  halo_extent_ok dst -> halo_extent_ok src ->
  ndim (extent src) = ndim (extent dst) ->
  ExtentSplit.dst_box dst update_dst_halo = Ok B ->
  disjoint B (extent src) ->
  ExtentSplit.calc_intersection_split dst src update_factory update_dst_halo
    = Ok ([dst], []).
Proof.
  intros Hd Hs Hn HB Hdis.
  destruct (dst_box_first dst update_dst_halo B Hd HB)
    as (Hfirst & HwB & HnB & HBb & HBe).
  pose proof Hs as (Hwf & _ & Hsb & Hse & _).
  unfold ExtentSplit.calc_intersection_split. rewrite Hfirst.
  cbn [mbind result_bind]. unfold start_n, stop_n.
  rewrite IndexingExtent_init_bounds by assumption.
  cbn [mbind result_bind].
  replace {| _beg := _beg (extent src); _end := _end (extent src) |}
    with (extent src) by (destruct (extent src); reflexivity).
  unfold calc_intersection_split.
  rewrite (calc_intersection_disjoint B (extent src)); auto;
    [|unfold well_formed; lia|lia].
  cbn [mbind result_bind mret result_ret].
  rewrite (collect_leftovers dst update_dst_halo [extent src] Hd).
  - reflexivity.
  - repeat constructor; assumption.
Qed.

Lemma extent_split_no_overlap_witness :
  ExtentSplit.calc_intersection_split MoreExamples.hie_10_20
    (mkHaloIndexingExtent (mkIndexingExtent [30] [40]) [(0, 0)])
    MoreExamples.keep_intersection true
    = Ok ([MoreExamples.hie_10_20], []).
Proof.
  apply (extent_split_no_overlap MoreExamples.hie_10_20
           (mkHaloIndexingExtent (mkIndexingExtent [30] [40]) [(0, 0)])
           MoreExamples.keep_intersection true (mkIndexingExtent [8] [24])).
  - repeat split.
  - repeat split.
  - reflexivity.
  - reflexivity.
  - intros p [Hp Hq]. destruct p as [|x [|y p]]; unfold contains in Hp, Hq;
      simpl in Hp, Hq; rewrite ?andb_true_iff, ?Z.leb_le, ?Z.ltb_lt in Hp, Hq;
      intuition (try discriminate; lia).
Defined.

(** X12: with an overlap [I] of the destination box and the source
    interior, the module-level [calc_intersection_split] hands exactly [I]
    to the update factory, and its leftovers are copies of the destination
    whose interiors tile the rest of the destination box: they are pairwise
    disjoint, disjoint from [I], and together with [I] they cover the box.
    Each leftover carries a zero halo when the halo of the destination was
    part of the box, and the halo of the destination otherwise. *)
Theorem extent_split_tiles {U : Type} (dst src : HaloIndexingExtent)
    (update_factory : HaloIndexingExtent -> HaloIndexingExtent ->
                      IndexingExtent -> result (list U))
    (update_dst_halo : bool) (B I : IndexingExtent) :
  halo_extent_ok dst -> halo_extent_ok src ->
  ndim (extent src) = ndim (extent dst) ->
  ExtentSplit.dst_box dst update_dst_halo = Ok B ->
  calc_intersection B (extent src) = Ok (Some I) ->
  exists leftovers,
    ExtentSplit.calc_intersection_split dst src update_factory update_dst_halo
      = (us ← update_factory dst src I; mret (leftovers, us)) /\
    Forall (fun L => Indexing._halo L =
                     if update_dst_halo
                     then replicate (ndim (extent dst)) (0, 0)
                     else Indexing._halo dst) leftovers /\
    ForallOrdPairs disjoint (extent <$> leftovers) /\
    Forall (fun E => disjoint E I) (extent <$> leftovers) /\
    forall p, contains B p = true <->
      contains I p = true \/
      Exists (fun E => contains E p = true) (extent <$> leftovers).
Proof.
  intros Hd Hs Hn HB HI.
  destruct (dst_box_first dst update_dst_halo B Hd HB)
    as (Hfirst & HwB & HnB & HBb & HBe).
  pose proof Hs as (Hwf & _ & Hsb & Hse & _).
  assert (Hws : well_formed (extent src)) by (unfold well_formed; lia).
  assert (Hnn : ndim B = ndim (extent src)) by lia.
  destruct (calc_intersection_split_tiles B (extent src) I Hnn HwB Hws HI)
    as (lv & Hrun & Hpw & Hdis & Hcov).
  destruct (calc_intersection_split_pieces (fun z => in_int64 z = true)
              B (extent src) I Hnn HwB Hws HI)
    as (lv' & Hrun' & _ & Hall); try (apply forallb_int64_Forall; assumption).
  assert (lv' = lv) as -> by congruence.
  set (H := if update_dst_halo then replicate (ndim (extent dst)) (0, 0)
            else Indexing._halo dst).
  exists ((fun E => mkHaloIndexingExtent E H) <$> lv).
  assert (Hext : extent <$> ((fun E => mkHaloIndexingExtent E H) <$> lv) = lv).
  { rewrite <- list_fmap_compose. apply list_fmap_id. }
  rewrite Hext. split; [|split; [|auto]].
  - unfold ExtentSplit.calc_intersection_split. rewrite Hfirst.
    cbn [mbind result_bind]. unfold start_n, stop_n.
    rewrite IndexingExtent_init_bounds by assumption.
    cbn [mbind result_bind].
    replace {| _beg := _beg (extent src); _end := _end (extent src) |}
      with (extent src) by (destruct (extent src); reflexivity).
    rewrite Hrun. cbn [mbind result_bind].
    rewrite (collect_leftovers dst update_dst_halo lv Hd).
    + reflexivity.
    + eapply List.Forall_impl; [|exact Hall]. cbv beta.
      intros E (_ & _ & HnE & HEb & HEe).
      rewrite !forallb_int64_Forall. split; [lia|]. split; assumption.
  - apply List.Forall_forall. intros L HL.
    apply list_elem_of_In, list_elem_of_fmap in HL as (E & -> & _).
    reflexivity.
Qed.

Lemma extent_split_tiles_witness :
  exists leftovers,
    ExtentSplit.calc_intersection_split MoreExamples.hie_10_20
      MoreExamples.hie_16_30 MoreExamples.keep_intersection true
      = (us ← MoreExamples.keep_intersection MoreExamples.hie_10_20
                MoreExamples.hie_16_30 (mkIndexingExtent [16] [24]);
         mret (leftovers, us)) /\
    Forall (fun L => Indexing._halo L =
                     replicate (ndim (extent MoreExamples.hie_10_20)) (0, 0))
      leftovers /\
    ForallOrdPairs disjoint (extent <$> leftovers) /\
    Forall (fun E => disjoint E (mkIndexingExtent [16] [24]))
      (extent <$> leftovers) /\
    forall p, contains (mkIndexingExtent [8] [24]) p = true <->
      contains (mkIndexingExtent [16] [24]) p = true \/
      Exists (fun E => contains E p = true) (extent <$> leftovers).
Proof.
  apply (extent_split_tiles MoreExamples.hie_10_20 MoreExamples.hie_16_30
           MoreExamples.keep_intersection true (mkIndexingExtent [8] [24])
           (mkIndexingExtent [16] [24])).
  - repeat split.
  - repeat split.
  - reflexivity.
  - reflexivity.
  - reflexivity.
Defined.

(** ** [decomposition.py]: tiles and their halo *)

Lemma forallb_int64_lookup (l : list Z) :
  (forall i, (i < length l)%nat -> - 2 ^ 63 <= l !!! i < 2 ^ 63) ->
  forallb in_int64 l = true.
Proof.
  intros H. apply forallb_forall. intros x Hx. apply list_elem_of_In in Hx.
  apply list_elem_of_lookup in Hx as [i Hi]. apply in_int64_range.
  rewrite <- (list_lookup_total_correct _ _ _ Hi). apply H.
  apply lookup_lt_Some in Hi. exact Hi.
Qed.

(** X13: [DecompExtent.__init__] with [ARRAY_BOUNDS].  For a tile that lies
    inside the array and a requested halo that is not negative, the tile is
    constructed; on every axis its stored halo is the smaller of the
    requested width and the room up to the array bound, so it is between
    zero and the requested width, and the tile with its halo stays inside
    the array [[0, array_shape)]. *)
Theorem decomp_halo_within_array (cart_rank : Z)
    (cart_coord cart_shape array_shape : list Z) (slice : list (Z * Z))
    (halo : HaloSpec) (h : halo_matrix) :
  forallb in_int64 cart_coord = true -> forallb in_int64 cart_shape = true ->
  forallb in_int64 array_shape = true ->
  length slice = length cart_coord -> length array_shape = length cart_coord ->
  convert_halo_to_array_form halo (length cart_coord) = Ok h ->
  (forall i, (i < length cart_coord)%nat ->
     0 <= fst (slice !!! i) <= snd (slice !!! i) /\
     snd (slice !!! i) <= array_shape !!! i /\
     0 <= fst (h !!! i) /\ 0 <= snd (h !!! i)) ->
  exists x,
    DecompExtent_init cart_rank cart_coord cart_shape array_shape slice halo
      ARRAY_BOUNDS = Ok x /\
    dbeg x = fst <$> slice /\ dend x = snd <$> slice /\ tile_ok x /\
    forall i, (i < length cart_coord)%nat ->
      dhalo x !!! i =
        (Z.min (fst (slice !!! i)) (fst (h !!! i)),
         Z.min (array_shape !!! i - snd (slice !!! i)) (snd (h !!! i))) /\
      0 <= fst (dhalo x !!! i) <= fst (h !!! i) /\
      0 <= snd (dhalo x !!! i) <= snd (h !!! i) /\
      0 <= start_h_at x i /\ start_h_at x i <= dbeg x !!! i /\
      dend x !!! i <= stop_h_at x i /\ stop_h_at x i <= array_shape !!! i.
Proof.
  intros Hcc Hcs Hash Hls Hla Hh Hin.
  pose proof (convert_halo_length _ _ _ Hh) as Hlh.
  set (n := length cart_coord) in *.
  assert (Rash : forall i, (i < n)%nat ->
            - 2 ^ 63 <= array_shape !!! i < 2 ^ 63).
  { intros i Hi. apply forallb_in_int64; auto. lia. }
  assert (Hb : forallb in_int64 (slice.*1) = true).
  { apply forallb_int64_lookup. intros i Hi. rewrite length_fmap in Hi.
    rewrite fmap_lookup_total_col by exact Hi.
    specialize (Hin i ltac:(lia)). specialize (Rash i ltac:(lia)). lia. }
  assert (He : forallb in_int64 (slice.*2) = true).
  { apply forallb_int64_lookup. intros i Hi. rewrite length_fmap in Hi.
    rewrite fmap_lookup_total_col by exact Hi.
    specialize (Hin i ltac:(lia)). specialize (Rash i ltac:(lia)). lia. }
  set (lo := zip_with Z.min (slice.*1) (h.*1)).
  set (room := zip_with (fun x y => wrap64 (x - y)) array_shape (slice.*2)).
  set (hi := zip_with Z.min room (h.*2)).
  exists (mkDecompExtent
            (mkHaloIndexingExtent (mkIndexingExtent (slice.*1) (slice.*2))
               (zip lo hi))
            cart_rank cart_coord cart_shape array_shape).
  assert (Hllo : length lo = n)
    by (unfold lo; rewrite length_zip_with, !length_fmap; lia).
  assert (Hlroom : length room = n)
    by (unfold room; rewrite length_zip_with, !length_fmap; lia).
  assert (Hlhi : length hi = n)
    by (unfold hi; rewrite length_zip_with, !length_fmap; lia).
  split; [|split; [reflexivity|split; [reflexivity|split]]].
  - unfold DecompExtent_init, np_array_int64. rewrite Hcc, Hcs, Hash.
    cbn [mbind result_bind]. unfold IndexingExtent_init, np_array_int64.
    rewrite Hb, He. cbn [mbind result_bind mret result_ret]. fold n.
    rewrite Hh. cbn [mbind result_bind _beg _end halo_col].
    unfold np_minimum, np_sub.
    rewrite (broadcast2_same Z.min (slice.*1)) by (rewrite !length_fmap; lia).
    cbn [mbind result_bind]. fold lo.
    rewrite (broadcast2_same _ array_shape) by (rewrite !length_fmap; lia).
    cbn [mbind result_bind]. fold room.
    rewrite (broadcast2_same Z.min room) by (rewrite !length_fmap; lia).
    cbn [mbind result_bind]. fold hi. unfold halo_of_cols.
    rewrite decide_True by lia. reflexivity.
  - unfold tile_ok, dbeg, dend, dhalo. cbn [halo_extent extent _beg _end
      Indexing._halo]. rewrite !length_fmap, length_zip.
    split; [reflexivity|]. split; [lia|]. split; assumption.
  - intros i Hi. destruct (Hin i Hi) as ((H0 & Hbe) & Hea & Hhl & Hhh).
    specialize (Rash i Hi).
    assert (Hrow : zip lo hi !!! i =
              (Z.min (fst (slice !!! i)) (fst (h !!! i)),
               Z.min (array_shape !!! i - snd (slice !!! i)) (snd (h !!! i)))).
    { rewrite zip_lookup_total by lia. unfold lo, hi, room.
      rewrite !zip_with_lookup_total_Z, !fmap_lookup_total_col;
        rewrite ?length_zip_with, ?length_fmap; try lia.
      rewrite (wrap64_id (array_shape !!! i - snd (slice !!! i))) by lia.
      reflexivity. }
    unfold start_h_at, stop_h_at, dbeg, dend, dhalo.
    cbn [halo_extent extent _beg _end Indexing._halo].
    rewrite Hrow. cbn [fst snd].
    rewrite !fmap_lookup_total_col by lia.
    rewrite !wrap64_id by lia. split; [reflexivity|lia].
Qed.

Lemma decomp_halo_within_array_witness :
  exists x,
    DecompExtent_init 3 [1; 1] [2; 2] [4; 4] [(2, 4); (2, 4)] (HaloInt 1)
      ARRAY_BOUNDS = Ok x /\
    dbeg x = fst <$> [(2, 4); (2, 4)] /\ dend x = snd <$> [(2, 4); (2, 4)] /\
    tile_ok x /\
    forall i, (i < length [1; 1])%nat ->
      dhalo x !!! i =
        (Z.min (fst ([(2, 4); (2, 4)] !!! i)) (fst ([(1, 1); (1, 1)] !!! i)),
         Z.min ([4; 4] !!! i - snd ([(2, 4); (2, 4)] !!! i))
               (snd ([(1, 1); (1, 1)] !!! i))) /\
      0 <= fst (dhalo x !!! i) <= fst ([(1, 1); (1, 1)] !!! i) /\
      0 <= snd (dhalo x !!! i) <= snd ([(1, 1); (1, 1)] !!! i) /\
      0 <= start_h_at x i /\ start_h_at x i <= dbeg x !!! i /\
      dend x !!! i <= stop_h_at x i /\ stop_h_at x i <= [4; 4] !!! i.
Proof.
  apply (decomp_halo_within_array 3 [1; 1] [2; 2] [4; 4] [(2, 4); (2, 4)]
           (HaloInt 1) [(1, 1); (1, 1)]); try reflexivity.
  intros i Hi. destruct i as [|[|i]]; [vm_compute; intuition discriminate..|].
  simpl in Hi. lia.
Defined.

Lemma contains_bounds (s : IndexingExtent) (n : nat) (p : list Z) :
  length (_beg s) = n -> length (_end s) = n ->
  contains s p = true <->
  length p = n /\
  forall i, (i < n)%nat -> _beg s !!! i <= p !!! i < _end s !!! i.
Proof.
  intros Hb He. unfold contains. rewrite in_box_spec, Hb, He. tauto.
Qed.

(** Along one axis the two halo slabs and the extent trimmed on that axis
    tile the with-halo box. *)
Lemma slabs_tile_axis (x : DecompExtent) (a : nat) :
  tile_ok x -> (a < length (dbeg x))%nat -> halo_around x a ->
  exists lo hi inner wh,
    halo_slab_extent x a LO = Ok lo /\ halo_slab_extent x a HI = Ok hi /\
    no_halo_extent x (Some a) = Ok inner /\ no_halo_extent x None = Ok wh /\
    (forall p, contains wh p = true <->
       contains lo p = true \/ contains inner p = true \/
       contains hi p = true) /\
    disjoint lo inner /\ disjoint inner hi /\ disjoint lo hi.
Proof.
  intros Hok Ha (H1 & H2 & H3).
  destruct (halo_slab_extent_spec x a LO Hok Ha) as (lo & Hlo & Llb & Lle & Lat).
  destruct (halo_slab_extent_spec x a HI Hok Ha) as (hi & Hhi & Hlb & Hle & Hat).
  destruct (no_halo_extent_spec x a Hok Ha) as (inner & Hinn & Ilb & Ile & Iat).
  destruct (with_halo_extent_spec x Hok) as (wh & Hwh & Wlb & Wle & Wat).
  exists lo, hi, inner, wh. repeat (split; [assumption|]).
  set (n := length (dbeg x)) in *.
  assert (Hoff : forall (p : list Z) (i : nat), (i < n)%nat -> i <> a ->
            (_beg lo !!! i <= p !!! i < _end lo !!! i <->
             _beg wh !!! i <= p !!! i < _end wh !!! i) /\
            (_beg hi !!! i <= p !!! i < _end hi !!! i <->
             _beg wh !!! i <= p !!! i < _end wh !!! i) /\
            (_beg inner !!! i <= p !!! i < _end inner !!! i <->
             _beg wh !!! i <= p !!! i < _end wh !!! i)).
  { intros p i Hi Hne.
    pose proof (Lat i Hi) as E1. pose proof (Hat i Hi) as E2.
    pose proof (Iat i Hi) as E3. pose proof (Wat i Hi) as E4.
    rewrite decide_False in E1, E2, E3 by exact Hne.
    inversion E1. inversion E2. inversion E3. inversion E4. lia. }
  pose proof (Lat a Ha) as La. pose proof (Hat a Ha) as Ha'.
  pose proof (Iat a Ha) as Ia. pose proof (Wat a Ha) as Wa.
  rewrite decide_True in La, Ha', Ia by reflexivity.
  inversion La as [[La1 La2]]. inversion Ha' as [[Ha1 Ha2]].
  inversion Ia as [[Ia1 Ia2]]. inversion Wa as [[Wa1 Wa2]].
  clear La Ha' Ia Wa.
  split; [|split; [|split]].
  - intros p.
    rewrite (contains_bounds wh n), (contains_bounds lo n),
      (contains_bounds inner n), (contains_bounds hi n) by assumption.
    split.
    + intros [Hlen Hp]. pose proof (Hp a Ha) as Hpa.
      rewrite Wa1, Wa2 in Hpa.
      destruct (Z.lt_ge_cases (p !!! a) (dbeg x !!! a));
        [left|destruct (Z.lt_ge_cases (p !!! a) (dend x !!! a)); [right; left|right; right]];
        (split; [exact Hlen|]); intros i Hi;
        (destruct (decide (i = a)) as [->|Hne];
         [rewrite ?La1, ?La2, ?Ia1, ?Ia2, ?Ha1, ?Ha2; lia
         |destruct (Hoff p i Hi Hne) as (O1 & O2 & O3); specialize (Hp i Hi); tauto]).
    + intros [[Hlen Hp]|[[Hlen Hp]|[Hlen Hp]]]; (split; [exact Hlen|]);
        intros i Hi; (destruct (decide (i = a)) as [->|Hne];
         [specialize (Hp a Ha);
          rewrite ?La1, ?La2, ?Ia1, ?Ia2, ?Ha1, ?Ha2 in Hp;
          rewrite Wa1, Wa2; lia
         |destruct (Hoff p i Hi Hne) as (O1 & O2 & O3); specialize (Hp i Hi); tauto]).
  - intros p.
    rewrite (contains_bounds lo n), (contains_bounds inner n) by assumption.
    intros [[_ Hp] [_ Hq]]. specialize (Hp a Ha). specialize (Hq a Ha).
    rewrite La1, La2 in Hp. rewrite Ia1, Ia2 in Hq. lia.
  - intros p.
    rewrite (contains_bounds hi n), (contains_bounds inner n) by assumption.
    intros [[_ Hq] [_ Hp]]. specialize (Hp a Ha). specialize (Hq a Ha).
    rewrite Ha1, Ha2 in Hp. rewrite Ia1, Ia2 in Hq. lia.
  - intros p.
    rewrite (contains_bounds lo n), (contains_bounds hi n) by assumption.
    intros [[_ Hp] [_ Hq]]. specialize (Hp a Ha). specialize (Hq a Ha).
    rewrite La1, La2 in Hp. rewrite Ha1, Ha2 in Hq. lia.
Qed.

(** X14: along one axis the two halo slabs and the extent trimmed on that
    axis tile the with-halo box of a tile.  For a tile whose interior lies
    inside its with-halo box on axis [a], every index of the with-halo box
    lies in exactly one of [halo_slab_extent(a, LO)], [no_halo_extent(a)]
    and [halo_slab_extent(a, HI)]. *)
Theorem halo_slabs_tile_axis (x : DecompExtent) (a : nat) :
  tile_ok x -> (a < length (dbeg x))%nat -> halo_around x a ->
  exists lo hi inner wh,
    halo_slab_extent x a LO = Ok lo /\ halo_slab_extent x a HI = Ok hi /\
    no_halo_extent x (Some a) = Ok inner /\ no_halo_extent x None = Ok wh /\
    (forall p, contains wh p = true <->
       contains lo p = true \/ contains inner p = true \/
       contains hi p = true) /\
    disjoint lo inner /\ disjoint inner hi /\ disjoint lo hi.
Proof. exact (slabs_tile_axis x a). Qed.

Lemma halo_slabs_tile_axis_witness :
  exists lo hi inner wh,
    halo_slab_extent Examples.tile_01 1 LO = Ok lo /\
    halo_slab_extent Examples.tile_01 1 HI = Ok hi /\
    no_halo_extent Examples.tile_01 (Some 1%nat) = Ok inner /\
    no_halo_extent Examples.tile_01 None = Ok wh /\
    (forall p, contains wh p = true <->
       contains lo p = true \/ contains inner p = true \/
       contains hi p = true) /\
    disjoint lo inner /\ disjoint inner hi /\ disjoint lo hi.
Proof.
  apply (halo_slabs_tile_axis Examples.tile_01 1).
  - repeat split.
  - vm_compute. lia.
  - vm_compute. intuition discriminate.
Defined.

(** ** [decomposition.py]: the update records of [initialise] *)

(** Every tile of the coordinate dict is stored under its own coordinate. *)
Lemma cart_coord_to_extents_key (d : list (Z * DecompExtent)) (c : list Z)
    (v : DecompExtent) :
  cart_coord_to_extents d !! c = Some v -> _cart_coord v = c.
Proof.
  unfold cart_coord_to_extents.
  assert (Hgen : forall (m : gmap (list Z) DecompExtent),
            (forall c' v', m !! c' = Some v' -> _cart_coord v' = c') ->
            foldl (fun m kv => <[_cart_coord (snd kv) := snd kv]> m) m d !! c
              = Some v -> _cart_coord v = c).
  { induction d as [|[k x] d IH]; intros m Hm; simpl; [apply Hm|].
    apply IH. intros c' v'.
    destruct (decide (_cart_coord x = c')) as [<-|Hne].
    - rewrite lookup_insert_eq. intros H. injection H as <-. reflexivity.
    - rewrite lookup_insert_ne by exact Hne. apply Hm. }
  apply Hgen. intros c' v'. rewrite lookup_empty. discriminate.
Qed.

Lemma dict_get_In (d : list (Z * DecompExtent)) (r : Z) (v : DecompExtent) :
  dict_get d r = Ok v -> In (r, v) d.
Proof.
  induction d as [|[k x] d IH]; simpl; [discriminate|].
  destruct (decide (k = r)) as [->|Hne].
  - intros H. injection H as ->. left. reflexivity.
  - intros H. right. apply IH. exact H.
Qed.

(** A record of a bucket was appended at some step of the walk along some
    axis. *)
Lemma bucket_record_step (dst_rank : Z) (d : list (Z * DecompExtent))
    (hu : HalosUpdate) (a : nat) (dir : Side) (rs : list SingleExtentUpdate)
    (r : SingleExtentUpdate) :
  initialise dst_rank d = Ok hu ->
  updates_get (_updates hu) a dir = Ok rs -> In r rs ->
  dict_get d dst_rank = Ok (_dst hu) /\
  _dst_extent r = _dst hu /\
  exists (ax : nat) (steps : list Z) (i : Z),
    (ax < ndim (extent (halo_extent (_dst hu))))%nat /\
    i_range (_dst hu) ax dir = Ok steps /\ In i steps /\
    neighbour (_dst hu) (cart_coord_to_extents d) ax i = Some (_src_extent r) /\
    calc_halo_intersection (_dst hu) (_src_extent r) ax dir
      = Ok (Some (_update_extent r)).
Proof.
  rewrite initialise_shared. intros Hinit Hget Hin.
  destruct (dict_get d dst_rank) as [dst|] eqn:Hdst; [|discriminate].
  cbn [mbind result_bind] in Hinit.
  destruct (side_records dst _ LO _) as [lo|] eqn:Hlo; [|discriminate].
  cbn [mbind result_bind] in Hinit.
  destruct (side_records dst _ HI _) as [hi|] eqn:Hhi; [|discriminate].
  cbn [mbind result_bind mret result_ret] in Hinit. injection Hinit as <-.
  cbn [_dst _updates] in *.
  apply updates_get_shared_Ok in Hget as [Ha ->].
  split; [reflexivity|].
  assert (Hside : side_records dst (cart_coord_to_extents d) dir
            (seq 0 (ndim (extent (halo_extent dst))))
            = Ok (match dir with LO => lo | HI => hi end))
    by (destruct dir; assumption).
  destruct (side_records_In _ _ _ _ _ r Hside Hin) as (ax & rs' & Hax & Hrs' & Hr).
  unfold axis_records in Hrs'.
  destruct (i_range dst ax dir) as [steps|] eqn:Hsteps; [|discriminate].
  cbn [mbind result_bind] in Hrs'.
  destruct (walk_records_In _ _ _ _ _ _ r Hrs' Hr) as (Hd & i & Hi & Hn & Ho).
  split; [exact Hd|]. exists ax, steps, i.
  split; [apply list_elem_of_In, elem_of_seq in Hax; lia|]. auto.
Qed.

Lemma i_range_offset (dst : DecompExtent) (a : nat) (dir : Side)
    (steps : list Z) (i : Z) :
  i_range dst a dir = Ok steps -> In i steps ->
  - 2 ^ 63 < i < 2 ^ 63 /\ i <> 0.
Proof.
  unfold i_range. destruct dir.
  - destruct (getitem (_cart_coord dst) a) as [c|]; [|discriminate].
    cbn [mbind result_bind mret result_ret]. intros H. injection H as <-.
    rewrite py_range_down.
    pose proof (wrap64_range (wrap64 (- c) - 1)). lia.
  - destruct (getitem (_cart_shape dst) a) as [n|]; [|discriminate].
    cbn [mbind result_bind].
    destruct (getitem (_cart_coord dst) a) as [c|]; [|discriminate].
    cbn [mbind result_bind mret result_ret]. intros H. injection H as <-.
    rewrite py_range_up.
    pose proof (wrap64_range (n - c)). lia.
Qed.

Lemma wrap64_shift_ne (c i : Z) :
  - 2 ^ 63 < i < 2 ^ 63 -> i <> 0 -> wrap64 (c + i) <> c.
Proof.
  intros Hi Hne Heq. destruct (wrap64_cases (c + i)) as (k & E & R).
  rewrite Heq in E. lia.
Qed.

Lemma overlap_nonempty (dst src : DecompExtent) (a : nat) (dir : Side)
    (h : IndexingExtent) :
  tile_ok dst -> tile_ok src -> length (dbeg src) = length (dbeg dst) ->
  (a < length (dbeg dst))%nat ->
  calc_halo_intersection dst src a dir = Ok (Some h) ->
  nonemptyb h = true /\ well_formed h /\ ndim h = length (dbeg dst).
Proof.
  intros Hd Hs Hlen Ha Hh.
  destruct (calc_halo_intersection_spec dst src a dir Hd Hs Hlen Ha)
    as (slab & nh & _ & _ & Hws & Hwn & Hns & Hnn & Heq & _).
  rewrite Heq in Hh.
  destruct (calc_intersection_Some slab nh h Hws Hwn ltac:(lia) Hh)
    as [-> Hne].
  destruct (meet_well_formed slab nh Hws Hwn ltac:(lia)) as [Hwm Hnm].
  split; [|split; [exact Hwm|lia]].
  apply nonemptyb_spec; [exact Hwm|]. rewrite Hnm. exact Hne.
Qed.

(** X15: every update record that [initialise] stores is sound.  Its
    destination is the tile of [dst_rank]; its source is a tile of the dict
    whose cartesian coordinate differs from that of the destination on
    exactly one axis, so a tile never updates from itself; and its overlap
    is a well-formed extent that is not empty. *)
Theorem update_record_source (dst_rank : Z) (d : list (Z * DecompExtent))
    (hu : HalosUpdate) (a : nat) (dir : Side)
    (rs : list SingleExtentUpdate) (r : SingleExtentUpdate) :
  initialise dst_rank d = Ok hu ->
  (forall k v, In (k, v) d ->
     tile_ok v /\ length (dbeg v) = length (dbeg (_dst hu))) ->
  updates_get (_updates hu) a dir = Ok rs -> In r rs ->
  _dst_extent r = _dst hu /\
  (exists k, In (k, _src_extent r) d) /\
  nonemptyb (_update_extent r) = true /\
  well_formed (_update_extent r) /\
  exists (ax : nat) (c v : Z),
    (ax < ndim (extent (halo_extent (_dst hu))))%nat /\
    _cart_coord (_dst hu) !! ax = Some c /\ v <> c /\
    _cart_coord (_src_extent r) = <[ax := v]> (_cart_coord (_dst hu)).
Proof.
  intros Hinit Htiles Hget Hin.
  destruct (bucket_record_step _ _ _ _ _ _ _ Hinit Hget Hin)
    as (Hdst & Hd & ax & steps & i & Hax & Hsteps & Hi & Hn & Ho).
  destruct (neighbour_in_dict _ _ _ _ _ Hn) as [k Hk].
  destruct (Htiles _ _ (dict_get_In _ _ _ Hdst)) as [Hokd _].
  destruct (Htiles _ _ Hk) as [Hoks Hlen].
  destruct (overlap_nonempty _ _ _ _ _ Hokd Hoks Hlen Hax Ho) as (Hne & Hwf & _).
  split; [exact Hd|]. split; [eauto|]. split; [exact Hne|].
  split; [exact Hwf|].
  unfold neighbour in Hn.
  destruct (_cart_coord (_dst hu) !! ax) as [c|] eqn:Hc; [|discriminate].
  exists ax, c, (wrap64 (c + i)). split; [exact Hax|]. split; [exact Hc|].
  split.
  - destruct (i_range_offset _ _ _ _ _ Hsteps Hi) as [Hr Hnz].
    apply wrap64_shift_ne; assumption.
  - apply cart_coord_to_extents_key in Hn. exact Hn.
Qed.

Lemma update_record_source_witness :
  _dst_extent Examples.update_11_from_01 = Examples.tile_11 /\
  (exists k, In (k, _src_extent Examples.update_11_from_01) Examples.grid_2x2) /\
  nonemptyb (_update_extent Examples.update_11_from_01) = true /\
  well_formed (_update_extent Examples.update_11_from_01) /\
  exists (ax : nat) (c v : Z),
    (ax < ndim (extent (halo_extent Examples.tile_11)))%nat /\
    _cart_coord Examples.tile_11 !! ax = Some c /\ v <> c /\
    _cart_coord (_src_extent Examples.update_11_from_01)
      = <[ax := v]> (_cart_coord Examples.tile_11).
Proof.
  apply (update_record_source 3 Examples.grid_2x2
           (mkHalosUpdate 3 Examples.tile_11
              (shared_updates 2
                 [Examples.update_11_from_01; Examples.update_11_from_10] []))
           0 LO [Examples.update_11_from_01; Examples.update_11_from_10]
           Examples.update_11_from_01).
  - vm_compute. reflexivity.
  - exact grid_2x2_tiles_ok.
  - reflexivity.
  - left. reflexivity.
Defined.

(** X16: a side without halo needs no updates.  When the stored halo of
    the destination is zero on side [dir] of every axis, the planner stores
    no record on that side, whatever the neighbours are. *)
Theorem no_halo_no_updates (dst_rank : Z) (d : list (Z * DecompExtent))
    (hu : HalosUpdate) (a : nat) (dir : Side) :
  initialise dst_rank d = Ok hu ->
  (forall k v, In (k, v) d ->
     tile_ok v /\ length (dbeg v) = length (dbeg (_dst hu))) ->
  (forall ax, (ax < length (dbeg (_dst hu)))%nat ->
     match dir with
     | LO => fst (dhalo (_dst hu) !!! ax)
     | HI => snd (dhalo (_dst hu) !!! ax)
     end = 0) ->
  (a < length (dbeg (_dst hu)))%nat ->
  updates_get (_updates hu) a dir = Ok [].
Proof.
  intros Hinit Htiles Hzero Ha.
  assert (Hget : exists rs, updates_get (_updates hu) a dir = Ok rs).
  { rewrite (buckets_hold_all_axes _ _ _ _ _ Hinit Ha).
    rewrite initialise_shared in Hinit.
    destruct (dict_get d dst_rank) as [dst|]; [|discriminate].
    cbn [mbind result_bind] in Hinit.
    destruct (side_records dst _ LO _) as [lo|] eqn:Hlo; [|discriminate].
    cbn [mbind result_bind] in Hinit.
    destruct (side_records dst _ HI _) as [hi|] eqn:Hhi; [|discriminate].
    cbn [mbind result_bind mret result_ret] in Hinit. injection Hinit as <-.
    cbn [_dst]. destruct dir; eauto. }
  destruct Hget as [rs Hget]. rewrite Hget. f_equal.
  destruct rs as [|r rs]; [reflexivity|]. exfalso.
  destruct (bucket_record_step _ _ _ _ _ _ r Hinit Hget (or_introl eq_refl))
    as (Hdst & Hd & ax & steps & i & Hax & Hsteps & Hi & Hn & Ho).
  destruct (neighbour_in_dict _ _ _ _ _ Hn) as [k Hk].
  destruct (Htiles _ _ (dict_get_In _ _ _ Hdst)) as [Hokd _].
  destruct (Htiles _ _ Hk) as [Hoks Hlen].
  destruct (calc_halo_intersection_None_iff (_dst hu) (_src_extent r) ax dir
              Hokd Hoks Hlen Hax) as [_ Hiff].
  assert (Hnone : calc_halo_intersection (_dst hu) (_src_extent r) ax dir
                  = Ok None).
  { apply Hiff. left. specialize (Hzero ax Hax).
    destruct Hokd as (He & _ & Rb & Re).
    pose proof (forallb_in_int64 _ ax Rb Hax) as Rba.
    pose proof (forallb_in_int64 _ ax Re
                  ltac:(unfold ndim, dend, dbeg in *; lia)) as Rea.
    destruct dir.
    - unfold start_h_at. rewrite Hzero, Z.sub_0_r, wrap64_id by exact Rba. lia.
    - unfold stop_h_at. rewrite Hzero, Z.add_0_r, wrap64_id by exact Rea. lia. }
  congruence.
Qed.

Lemma no_halo_no_updates_witness :
  updates_get
    (_updates (mkHalosUpdate 3 Examples.tile_11
                 (shared_updates 2
                    [Examples.update_11_from_01; Examples.update_11_from_10]
                    []))) 0 HI = Ok [].
Proof.
  apply (no_halo_no_updates 3 Examples.grid_2x2
           (mkHalosUpdate 3 Examples.tile_11
              (shared_updates 2
                 [Examples.update_11_from_01; Examples.update_11_from_10] []))
           0 HI).
  - vm_compute. reflexivity.
  - exact grid_2x2_tiles_ok.
  - intros [|[|ax]] Hax; [reflexivity..|simpl in Hax; lia].
  - vm_compute. lia.
Defined.

(** X17: for a one-dimensional decomposition the buckets are what the
    loops intend: the bucket of axis 0 on a side holds exactly the records
    of the walk along axis 0 on that side. *)
Theorem one_dimensional_buckets (dst_rank : Z) (d : list (Z * DecompExtent))
    (hu : HalosUpdate) (dir : Side) :
  initialise dst_rank d = Ok hu ->
  ndim (extent (halo_extent (_dst hu))) = 1%nat ->
  updates_get (_updates hu) 0 dir =
    axis_records (_dst hu) (cart_coord_to_extents d) dir 0.
Proof.
  intros Hinit Hn.
  rewrite (buckets_hold_all_axes _ _ _ 0%nat dir Hinit) by lia.
  rewrite Hn. cbn [seq side_records].
  destruct (axis_records _ _ dir 0) as [rs|e]; [|reflexivity].
  cbn [mbind result_bind mret result_ret]. rewrite app_nil_r. reflexivity.
Qed.

Lemma one_dimensional_buckets_witness :
  updates_get
    (_updates (mkHalosUpdate 1 (Examples.third 1 2 4 1 1)
                 (shared_updates 1 [Examples.update_mid_from_0]
                    [Examples.update_mid_from_2]))) 0 HI =
    axis_records (Examples.third 1 2 4 1 1)
      (cart_coord_to_extents Examples.line_3) HI 0.
Proof.
  apply (one_dimensional_buckets 1 Examples.line_3
           (mkHalosUpdate 1 (Examples.third 1 2 4 1 1)
              (shared_updates 1 [Examples.update_mid_from_0]
                 [Examples.update_mid_from_2])) HI).
  - vm_compute. reflexivity.
  - reflexivity.
Defined.

(** ** [distribution.py]: the [Distribution] factory *)

Lemma create_globale_extent_copy (g0 : GlobaleExtent) :
  create_globale_extent (GArgGlobale g0)
    = Ok (mkHaloIndexingExtent (extent g0)
            (replicate (ndim (extent g0)) (0, 0))).
Proof. reflexivity. Qed.

Lemma forallb_int64_zeros (l : list Z) :
  forallb in_int64 ((fun _ : Z => 0) <$> l) = true.
Proof. induction l; simpl; auto. Qed.

Lemma forallb_int64_wrap (l : list Z) :
  forallb in_int64 (wrap64 <$> l) = true.
Proof.
  induction l as [|x l IH]; [reflexivity|].
  cbn [fmap list_fmap forallb]. rewrite IH, andb_true_r.
  apply in_int64_range, wrap64_range.
Qed.

Lemma wrap64_fmap_id (l : list Z) :
  forallb in_int64 l = true -> wrap64 <$> l = l.
Proof.
  induction l as [|x l IH]; [reflexivity|].
  cbn [forallb fmap list_fmap]. rewrite andb_true_iff. intros [Hx Hl].
  rewrite wrap64_id by (apply in_int64_range; exact Hx).
  f_equal. apply IH, Hl.
Qed.

(** The int64 cast of [numpy.array(l)], when it returns, has the length of
    [l] and int64 entries. *)
Lemma ndarray_int64_range (l r : list Z) :
  ndarray_int64 (np_array l) = Ok r ->
  length r = length l /\ forallb in_int64 r = true.
Proof.
  unfold np_array.
  destruct (forallb in_int64 l) eqn:H1; cbn [ndarray_int64].
  { intros H. injection H as <-. auto. }
  destruct (forallb in_uint64 l) eqn:H2; cbn [ndarray_int64].
  { intros H. injection H as <-. rewrite length_fmap.
    split; [reflexivity|apply forallb_int64_wrap]. }
  destruct (forallb (fun z : Z => in_int64 z || in_uint64 z) l) eqn:H3;
    cbn [ndarray_int64].
  - intros H. injection H as <-. rewrite !length_fmap.
    split; [reflexivity|]. apply forallb_forall. intros x Hx.
    apply in_map_iff in Hx as (y & <- & _).
    destruct (in_int64 y) eqn:Hy; [exact Hy|reflexivity].
  - unfold np_array_int64. rewrite H1. discriminate.
Qed.

Lemma ndarray_int64_of_int64 (l : list Z) :
  forallb in_int64 l = true -> ndarray_int64 (np_array l) = Ok l.
Proof. intros H. unfold np_array. rewrite H. reflexivity. Qed.

(** A sequence of integers of [[0, 2 ^ 64)] becomes a uint64 array when one
    of them is outside int64, and its cast to int64 wraps. *)
Lemma ndarray_int64_of_uint64 (l : list Z) :
  forallb in_uint64 l = true -> ndarray_int64 (np_array l) = Ok (wrap64 <$> l).
Proof.
  intros H. unfold np_array. destruct (forallb in_int64 l) eqn:H1.
  - cbn [ndarray_int64]. rewrite wrap64_fmap_id by exact H1. reflexivity.
  - rewrite H. reflexivity.
Qed.

(** An integer that fits neither int64 nor uint64 makes the array one of
    objects, and its cast to int64 raises. *)
Lemma ndarray_int64_overflow (l : list Z) :
  forallb (fun z : Z => in_int64 z || in_uint64 z) l = false ->
  ndarray_int64 (np_array l) = Raise OverflowError.
Proof.
  intros H. unfold np_array.
  assert (H1 : forallb in_int64 l = false).
  { apply not_true_iff_false. intros H1. apply not_true_iff_false in H.
    apply H. rewrite forallb_forall in *. intros x Hx.
    rewrite (H1 x Hx). reflexivity. }
  assert (H2 : forallb in_uint64 l = false).
  { apply not_true_iff_false. intros H2. apply not_true_iff_false in H.
    apply H. rewrite forallb_forall in *. intros x Hx.
    rewrite (H2 x Hx). apply orb_true_r. }
  rewrite H1, H2, H. cbn [ndarray_int64]. unfold np_array_int64.
  rewrite H1. reflexivity.
Qed.

(** [create_globale_extent] on a shape, in terms of the int64 cast of the
    array made from the shape. *)
Lemma create_globale_extent_stop (shape : list Z) :
  create_globale_extent (GArgShape shape) =
    stop ← ndarray_int64 (np_array shape);
    mret (mkHaloIndexingExtent
            (mkIndexingExtent ((fun _ : Z => 0) <$> shape) stop)
            (replicate (length shape) (0, 0))).
Proof.
  cbn [create_globale_extent].
  destruct (ndarray_int64 (np_array shape)) as [stop|e] eqn:Hs;
    [|reflexivity].
  apply ndarray_int64_range in Hs as [Hlen Hr]. cbn [mbind result_bind].
  unfold HaloIndexingExtent_init, IndexingExtent_init, np_array_int64.
  rewrite forallb_int64_zeros, Hr.
  cbn [mbind result_bind mret result_ret convert_halo_to_array_form].
  change (in_int64 0) with true. cbn [mbind result_bind].
  unfold ndim. cbn [_beg]. rewrite length_fmap, Hlen. do 3 f_equal.
  apply list_eq_total; [rewrite !length_fmap; exact Hlen|].
  rewrite length_fmap. intros i Hi.
  rewrite !fmap_lookup_total_Z by lia. reflexivity.
Qed.

(** X18: the globale extent of a distribution never has a halo.  A
    [GlobaleExtent] argument is always accepted and copied with its halo
    replaced by zeros; for every accepted form of the argument the result
    has a zero halo matrix of its own dimension and the box the argument
    describes.  For a shape the box starts at zeros and stops at the shape
    cast to int64: the shape itself when its entries are int64 values, and
    the shape wrapped modulo [2 ^ 64] when its entries lie in [[0, 2 ^ 64)],
    which is accepted without an error; an entry that fits neither int64
    nor uint64 raises [OverflowError]. *)
Theorem create_globale_extent_zero_halo :
  (forall g0 : GlobaleExtent,
     create_globale_extent (GArgGlobale g0)
       = Ok (mkHaloIndexingExtent (extent g0)
               (replicate (ndim (extent g0)) (0, 0)))) /\
  (forall (arg : GlobaleArg) (g : GlobaleExtent),
     create_globale_extent arg = Ok g ->
     Indexing._halo g = replicate (ndim (extent g)) (0, 0) /\
     match arg with
     | GArgGlobale g0 => extent g = extent g0
     | GArgSlices sl => extent g = mkIndexingExtent (sl.*1) (sl.*2)
     | GArgShape shape =>
         _beg (extent g) = (fun _ : Z => 0) <$> shape /\
         length (_end (extent g)) = length shape /\
         forallb in_int64 (_end (extent g)) = true
     | GArgStartStop start stop => extent g = mkIndexingExtent start stop
     | GArgOther => False
     end) /\
  (forall shape : list Z,
     forallb in_int64 shape = true ->
     create_globale_extent (GArgShape shape)
       = Ok (mkHaloIndexingExtent
               (mkIndexingExtent ((fun _ : Z => 0) <$> shape) shape)
               (replicate (length shape) (0, 0)))) /\
  (forall shape : list Z,
     forallb in_uint64 shape = true ->
     create_globale_extent (GArgShape shape)
       = Ok (mkHaloIndexingExtent
               (mkIndexingExtent ((fun _ : Z => 0) <$> shape)
                  (wrap64 <$> shape))
               (replicate (length shape) (0, 0)))) /\
  (forall shape : list Z,
     forallb (fun z : Z => in_int64 z || in_uint64 z) shape = false ->
     create_globale_extent (GArgShape shape) = Raise OverflowError).
Proof.
  split; [reflexivity|]. split; [|split; [|split]].
  - intros arg g. destruct arg as [g0|sl|shape|start stop|].
    + cbn [create_globale_extent]. intros H. injection H as <-.
      split; reflexivity.
    + cbn [create_globale_extent].
      unfold HaloIndexingExtent_init, IndexingExtent_init.
      destruct (np_array_int64 (sl.*1)) as [b|] eqn:Eb; [|discriminate].
      cbn [mbind result_bind].
      destruct (np_array_int64 (sl.*2)) as [e|] eqn:Ee; [|discriminate].
      cbn [mbind result_bind mret result_ret convert_halo_to_array_form].
      change (in_int64 0) with true. cbn [mbind result_bind].
      intros H. injection H as <-.
      apply np_array_int64_Ok in Eb as [-> _], Ee as [-> _].
      split; reflexivity.
    + rewrite create_globale_extent_stop.
      destruct (ndarray_int64 (np_array shape)) as [stop|] eqn:Hs;
        [|discriminate].
      cbn [mbind result_bind mret result_ret]. intros H. injection H as <-.
      apply ndarray_int64_range in Hs as [Hlen Hr].
      cbn [extent Indexing._halo _beg _end]. unfold ndim. cbn [_beg].
      rewrite length_fmap. auto.
    + cbn [create_globale_extent].
      unfold HaloIndexingExtent_init, IndexingExtent_init.
      destruct (np_array_int64 start) as [b|] eqn:Eb; [|discriminate].
      cbn [mbind result_bind].
      destruct (np_array_int64 stop) as [e|] eqn:Ee; [|discriminate].
      cbn [mbind result_bind mret result_ret convert_halo_to_array_form].
      change (in_int64 0) with true. cbn [mbind result_bind].
      intros H. injection H as <-.
      apply np_array_int64_Ok in Eb as [-> _], Ee as [-> _].
      split; reflexivity.
    + discriminate.
  - intros shape H. rewrite create_globale_extent_stop.
    rewrite ndarray_int64_of_int64 by exact H. reflexivity.
  - intros shape H. rewrite create_globale_extent_stop.
    rewrite ndarray_int64_of_uint64 by exact H. reflexivity.
  - intros shape H. rewrite create_globale_extent_stop.
    rewrite ndarray_int64_overflow by exact H. reflexivity.
Qed.

Lemma create_globale_extent_zero_halo_witness :
  create_globale_extent (GArgShape [2 ^ 63; 5])
    = Ok (mkHaloIndexingExtent (mkIndexingExtent [0; 0] [- 2 ^ 63; 5])
            [(0, 0); (0, 0)]).
Proof.
  apply (proj1 (proj2 (proj2 (proj2 create_globale_extent_zero_halo)))
           [2 ^ 63; 5]).
  reflexivity.
Defined.

Section RankMap.

Variable UNDEFINED : Z.

Lemma create_locale_extent_map (self : DistributionConfig) (i : nat)
    (arg : LocaleArg) (G : GlobaleExtent) (halo : HaloSpec)
    (x : CreatedExtent) (m : list Z) :
  _inter_locale_rank_to_rank self = Some m ->
  create_locale_extent UNDEFINED self i arg G halo = Ok x ->
  m !! i = Some (_rank (created_locale x)) /\
  _inter_locale_rank (created_locale x) = Z.of_nat i.
Proof.
  intros Hm. unfold create_locale_extent, Distribution_create_locale_extent,
    get_rank. rewrite Hm.
  assert (Hcore : forall kw,
            (rank ← getitem m i;
             match arg with
             | ArgStartStop start stop =>
                 construct (_locale_extent_type self) rank (Z.of_nat i) G None
                   halo (Some start) (Some stop) kw
             | ArgSlices sl =>
                 construct (_locale_extent_type self) rank (Z.of_nat i) G
                   (Some sl) halo None None kw
             | ArgOther => Raise ValueError
             end) = Ok x ->
            m !! i = Some (_rank (created_locale x)) /\
            _inter_locale_rank (created_locale x) = Z.of_nat i).
  { intros kw. destruct (getitem m i) as [r|] eqn:Hr; [|discriminate].
    cbn [mbind result_bind]. apply getitem_Ok in Hr.
    destruct arg; try discriminate; intros H;
      apply construct_ranks in H as [-> ->]; auto. }
  destruct (_class self) as [|cm dims].
  - apply Hcore.
  - destruct (coord_of_rank cm i); [|discriminate].
    cbn [mbind result_bind]. apply Hcore.
Qed.

Lemma create_all_map (self : DistributionConfig) (G : GlobaleExtent)
    (halo : HaloSpec) (les : list LocaleArg) (m : list Z) :
  _inter_locale_rank_to_rank self = Some m ->
  forall (i : nat) (es : list CreatedExtent),
  create_all UNDEFINED self i les G halo = Ok es ->
  length es = length les /\
  forall j x, es !! j = Some x ->
    m !! (i + j)%nat = Some (_rank (created_locale x)) /\
    _inter_locale_rank (created_locale x) = Z.of_nat (i + j).
Proof.
  intros Hm. induction les as [|a les IH]; intros i es; simpl.
  - intros H. injection H as <-. split; [reflexivity|].
    intros j x Hj. discriminate.
  - destruct (create_locale_extent UNDEFINED self i a G halo) as [e|] eqn:Ee;
      simpl; [|discriminate].
    destruct (create_all UNDEFINED self (S i) les G halo) as [es'|] eqn:Es;
      simpl; [|discriminate].
    intros H. injection H as <-.
    destruct (IH (S i) es' Es) as [Hlen Hall].
    split; [simpl; congruence|].
    intros [|j] x Hj; simpl in Hj.
    + injection Hj as <-. rewrite Nat.add_0_r.
      apply (create_locale_extent_map self i a G halo); auto.
    + replace (i + S j)%nat with (S i + j)%nat by lia. apply Hall. exact Hj.
Qed.

End RankMap.

(** X19: with a rank map, [Distribution.__init__] gives the locale extent
    at position [i] the rank [inter_locale_rank_to_rank[i]] and the
    inter-locale rank [i]; it creates one extent per element of
    [locale_extents], so that [num_locales] is their number, and it cannot
    succeed with a map that is shorter than [locale_extents]. *)
Theorem rank_map_assigns_ranks (UNDEFINED : Z) (cls : DistributionClass)
    (g : GlobaleArg) (les : list LocaleArg) (halo : HaloSpec)
    (ty : ExtentType) (m : list Z) (d : Distribution) :
  Distribution_init UNDEFINED cls g les halo ty (Some m) = Ok d ->
  Partitions.num_locales d = length les /\
  (length les <= length m)%nat /\
  forall i x, Partitions.get_extent_for_rank d i = Ok x ->
    m !! i = Some (_rank (created_locale x)) /\
    _inter_locale_rank (created_locale x) = Z.of_nat i.
Proof.
  unfold Distribution_init.
  destruct (create_globale_extent g) as [G|]; simpl; [|discriminate].
  destruct (convert_halo_to_array_form halo (ndim (extent G))) as [h|];
    simpl; [|discriminate].
  destruct (create_all UNDEFINED _ 0 les G halo) as [es|] eqn:Es;
    simpl; [|discriminate].
  intros H. injection H as <-.
  unfold Partitions.num_locales, Partitions.get_extent_for_rank. simpl.
  destruct (create_all_map UNDEFINED (mkDistributionConfig cls ty (Some m))
              G halo les m eq_refl 0%nat es Es) as [Hlen Hall].
  split; [exact Hlen|]. split.
  - destruct les as [|a les]; [simpl; lia|].
    assert (Hlast : (length (a :: les) - 1 < length es)%nat)
      by (rewrite Hlen; simpl; lia).
    apply lookup_lt_is_Some in Hlast as [x Hx].
    destruct (Hall _ x Hx) as [Hm _]. apply lookup_lt_Some in Hm.
    simpl in *. lia.
  - intros i x Hx. apply getitem_Ok in Hx. apply (Hall i x Hx).
Qed.

Lemma rank_map_assigns_ranks_witness :
  Partitions.num_locales
    (mkDistribution
       (mkDistributionConfig PlainDistribution LocaleExtentT (Some [7; 9]))
       Examples.globale_12 [(2, 2)]
       [IsLocale (mkLocaleExtent
          (mkHaloIndexingExtent (mkIndexingExtent [0] [6]) [(0, 2)]) 7 0);
        IsLocale (mkLocaleExtent
          (mkHaloIndexingExtent (mkIndexingExtent [6] [12]) [(2, 0)]) 9 1)])
    = length Examples.halves_12 /\
  (length Examples.halves_12 <= length [7; 9])%nat /\
  forall i x,
    Partitions.get_extent_for_rank
      (mkDistribution
         (mkDistributionConfig PlainDistribution LocaleExtentT (Some [7; 9]))
         Examples.globale_12 [(2, 2)]
         [IsLocale (mkLocaleExtent
            (mkHaloIndexingExtent (mkIndexingExtent [0] [6]) [(0, 2)]) 7 0);
          IsLocale (mkLocaleExtent
            (mkHaloIndexingExtent (mkIndexingExtent [6] [12]) [(2, 0)]) 9 1)])
      i = Ok x ->
    [7; 9] !! i = Some (_rank (created_locale x)) /\
    _inter_locale_rank (created_locale x) = Z.of_nat i.
Proof.
  apply (rank_map_assigns_ranks Examples.mpi_undefined PlainDistribution
           (GArgShape [12]) Examples.halves_12 (HaloInt 2) LocaleExtentT
           [7; 9]).
  reflexivity.
Defined.

Lemma create_globale_extent_shape (shape : list Z) :
  forallb in_int64 shape = true ->
  create_globale_extent (GArgShape shape)
    = Ok (mkHaloIndexingExtent
            (mkIndexingExtent ((fun _ : Z => 0) <$> shape) shape)
            (replicate (length shape) (0, 0))).
Proof.
  intros Hshape. rewrite create_globale_extent_stop.
  rewrite ndarray_int64_of_int64 by exact Hshape. reflexivity.
Qed.

Lemma create_all_default_type (UNDEFINED : Z) (cls : DistributionClass)
    (m : option (list Z)) (i : nat) (x : LocaleArg) (les : list LocaleArg)
    (G : GlobaleExtent) (halo : HaloSpec) :
  exists e,
    create_all UNDEFINED (mkDistributionConfig cls GlobaleExtentT m) i
      (x :: les) G halo = Raise e.
Proof.
  cbn [create_all].
  destruct (create_locale_extent UNDEFINED _ i x G halo) as [v|e] eqn:E.
  - exfalso. exact (create_locale_extent_default_type _ _ _ _ _ _ _ _ E).
  - exists e. reflexivity.
Qed.

Lemma arg_of_list_cons (l : list HaloIndexingExtent) :
  (0 < length l)%nat ->
  exists y rest,
    Partitions.arg_of_extent <$> l
      = ArgStartStop (start_n y) (stop_n y) :: rest.
Proof.
  destruct l as [|y l]; simpl; [lia|]. intros _. exists y. eauto.
Qed.

Lemma collect_length {X A : Type} (f : X -> result A) (xs : list X)
    (ys : list A) :
  collect f xs = Ok ys -> length ys = length xs.
Proof.
  revert ys. induction xs as [|x xs IH]; intros ys; simpl.
  - intros H. injection H as <-. reflexivity.
  - destruct (f x); [|discriminate]. cbn [mbind result_bind].
    destruct (collect f xs) as [r|]; [|discriminate].
    cbn [mbind result_bind mret result_ret]. intros H. injection H as <-.
    simpl. rewrite (IH r); reflexivity.
Qed.

(** X20: the default [locale_extent_type] of [Distribution.__init__] cannot
    be used.  With [GlobaleExtent] as the type, constructing a distribution
    over a non-empty [locale_extents] always raises; so does
    [SingleLocaleDistribution], which relies on that default, for any
    positive [num_locales]; and for a valid shape, halo and rank the
    exception is the [TypeError] of the constructor call. *)
Theorem default_locale_extent_type_unusable (UNDEFINED : Z) :
  (forall cls g x les halo m,
     exists e, Distribution_init UNDEFINED cls g (x :: les) halo
                 GlobaleExtentT m = Raise e) /\
  (forall g n inter_locale_rank halo,
     exists e, Partitions.SingleLocaleDistribution_init UNDEFINED g (S n)
                 inter_locale_rank halo = Raise e) /\
  (forall shape n inter_locale_rank h,
     forallb in_int64 shape = true -> in_int64 h = true ->
     (inter_locale_rank < S n)%nat ->
     Partitions.SingleLocaleDistribution_init UNDEFINED (GArgShape shape)
       (S n) inter_locale_rank (HaloInt h) = Raise TypeError).
Proof.
  assert (Hinit : forall cls g x les halo m,
            exists e, Distribution_init UNDEFINED cls g (x :: les) halo
                        GlobaleExtentT m = Raise e).
  { intros cls g x les halo m. unfold Distribution_init.
    destruct (create_globale_extent g) as [G|e]; [|eexists; reflexivity].
    cbn [mbind result_bind].
    destruct (convert_halo_to_array_form halo (ndim (extent G))) as [h|e];
      [|eexists; reflexivity].
    cbn [mbind result_bind].
    destruct (create_all_default_type UNDEFINED cls m 0 x les G halo)
      as [e ->]. eexists. reflexivity. }
  split; [exact Hinit|]. split.
  - intros g n ilr halo. unfold Partitions.SingleLocaleDistribution_init.
    destruct (create_globale_extent g) as [G|e]; [|eexists; reflexivity].
    cbn [mbind result_bind].
    destruct (collect _ (seq 0 (S n))) as [les|e] eqn:Hles;
      [|eexists; reflexivity].
    cbn [mbind result_bind].
    destruct (getitem les ilr) as [le|e] eqn:Hle; [|eexists; reflexivity].
    cbn [mbind result_bind].
    destruct (np_array_int64 (start_n G)) as [b|e]; [|eexists; reflexivity].
    cbn [mbind result_bind].
    destruct (np_array_int64 (stop_n G)) as [t|e]; [|eexists; reflexivity].
    cbn [mbind result_bind].
    apply collect_length in Hles. rewrite length_seq in Hles.
    destruct (arg_of_list_cons
                (<[ilr:={| extent := {| _beg := b; _end := t |};
                           Indexing._halo := Indexing._halo le |}]> les))
      as (x & rest & ->); [rewrite length_insert; lia|].
    apply Hinit.
  - intros shape n ilr h Hshape Hh Hilr.
    unfold Partitions.SingleLocaleDistribution_init.
    rewrite create_globale_extent_shape by exact Hshape.
    cbn [mbind result_bind]. unfold start_n, stop_n. cbn [extent _beg _end].
    set (z := (fun _ : Z => 0) <$> shape) in *.
    assert (Hz : forallb in_int64 z = true) by apply forallb_int64_zeros.
    rewrite (collect_ext _ (fun _ => mkHaloIndexingExtent
               (mkIndexingExtent z z) (replicate (length z) (0, 0)))).
    2:{ intros i _. unfold HaloIndexingExtent_init, IndexingExtent_init,
          np_array_int64. rewrite Hz. reflexivity. }
    cbn [mbind result_bind].
    rewrite (getitem_lookup _ ilr (mkHaloIndexingExtent
               (mkIndexingExtent z z) (replicate (length z) (0, 0)))).
    2:{ rewrite list_lookup_fmap, lookup_seq_lt by exact Hilr. reflexivity. }
    cbn [mbind result_bind]. unfold np_array_int64. rewrite Hz, Hshape.
    cbn [mbind result_bind Indexing._halo].
    set (les := <[ilr := _]> _).
    destruct (arg_of_list_cons les) as (x & rest & ->).
    { unfold les. rewrite length_insert, length_fmap, length_seq. lia. }
    unfold Distribution_init. cbn [create_globale_extent set_halo
      convert_halo_to_array_form extent].
    change (in_int64 0) with true. cbn [mbind result_bind mret result_ret].
    rewrite Hh. cbn [mbind result_bind create_all].
    unfold create_locale_extent, Distribution_create_locale_extent, get_rank.
    cbn [_class _inter_locale_rank_to_rank _locale_extent_type mret result_ret
         mbind result_bind].
    reflexivity.
Qed.

Lemma default_locale_extent_type_unusable_witness :
  Partitions.SingleLocaleDistribution_init Examples.mpi_undefined
    (GArgShape [12]) 2 0 (HaloInt 2) = Raise TypeError.
Proof.
  apply (proj2 (proj2 (default_locale_extent_type_unusable
                         Examples.mpi_undefined)) [12] 1%nat 0%nat 2).
  - reflexivity.
  - reflexivity.
  - lia.
Defined.

(** ** [distribution.py]: the halo of a sub-extent *)

(** [HaloSubExtent.__init__] in closed form: each row of the stored halo is
    the requested width cut down to the room on that side, and to zero. *)
Lemma HaloSubExtent_init_rows (G : GlobaleExtent)
    (slice : option (list (Z * Z))) (halo : HaloSpec)
    (start stop : option (list Z)) (e : IndexingExtent) (h : halo_matrix)
    (gs gt : list Z) :
  IndexingExtent_init slice start stop = Ok e ->
  convert_halo_to_array_form halo (ndim e) = Ok h ->
  well_formed e ->
  start_h G = Ok gs -> stop_h G = Ok gt ->
  length gs = ndim e -> length gt = ndim e ->
  exists H : halo_matrix,
    HaloSubExtent_init G slice halo start stop = Ok (mkHaloIndexingExtent e H) /\
    length H = ndim e /\
    forall i, (i < ndim e)%nat ->
      H !!! i =
        (Z.max 0 (Z.min (wrap64 (_beg e !!! i - gs !!! i)) (fst (h !!! i))),
         Z.max 0 (Z.min (wrap64 (gt !!! i - _end e !!! i)) (snd (h !!! i)))).
Proof.
  intros He Hh Hwf Hgs Hgt Hlgs Hlgt.
  pose proof (convert_halo_length _ _ _ Hh) as Hlh.
  unfold well_formed, ndim in *.
  set (n := length (_beg e)) in *.
  pose proof (eq_refl : length (_beg e) = n) as Hn.
  set (room_lo := zip_with (fun x y => wrap64 (x - y)) (_beg e) gs).
  set (lo := zip_with Z.min room_lo (h.*1)).
  set (room_hi := zip_with (fun x y => wrap64 (x - y)) gt (_end e)).
  set (hi := zip_with Z.min room_hi (h.*2)).
  assert (Hlo : length lo = n).
  { unfold lo, room_lo. rewrite !length_zip_with, length_fmap. lia. }
  assert (Hhi : length hi = n).
  { unfold hi, room_hi. rewrite !length_zip_with, length_fmap. lia. }
  exists (clamp_at_zero (zip lo hi)). split; [|split].
  - unfold HaloSubExtent_init, HaloIndexingExtent_init. rewrite He. simpl.
    unfold ndim. fold n. rewrite Hh. simpl. rewrite Hgs. simpl.
    unfold start_n, stop_n. simpl. unfold np_sub, np_minimum.
    rewrite (broadcast2_same _ (_beg e) gs) by lia. simpl. fold room_lo.
    rewrite (broadcast2_same Z.min room_lo)
      by (unfold room_lo; rewrite length_zip_with, length_fmap; lia).
    simpl. fold lo. rewrite Hgt. simpl.
    rewrite (broadcast2_same _ gt (_end e)) by lia. simpl. fold room_hi.
    rewrite (broadcast2_same Z.min room_hi)
      by (unfold room_hi; rewrite length_zip_with, length_fmap; lia).
    simpl. fold hi. unfold halo_of_cols. rewrite decide_True by lia.
    reflexivity.
  - unfold clamp_at_zero. rewrite length_fmap, length_zip. lia.
  - intros i Hi. unfold clamp_at_zero.
    rewrite fmap_lookup_total_row by (rewrite length_zip; lia).
    rewrite zip_lookup_total by lia. cbn [fst snd].
    unfold lo, hi, room_lo, room_hi.
    rewrite !zip_with_lookup_total_Z, !fmap_lookup_total_col;
      rewrite ?length_zip_with, ?length_fmap; try lia; reflexivity.
Qed.

(** X21: [HaloSubExtent.__init__] stores the requested halo cut down to the
    room.  For a sub-extent whose interior lies inside the with-halo box of
    the globale extent, at distances that are int64 values, and a requested
    halo that is not negative, the stored width on each side of each axis is
    the smaller of the requested width and the distance from the interior
    to the bound of the globale extent. *)
Theorem halo_is_requested_or_room (G : GlobaleExtent)
    (slice : option (list (Z * Z))) (halo : HaloSpec)
    (start stop : option (list Z)) (e : IndexingExtent) (h : halo_matrix)
    (gs gt : list Z) :
  IndexingExtent_init slice start stop = Ok e ->
  convert_halo_to_array_form halo (ndim e) = Ok h ->
  well_formed e ->
  start_h G = Ok gs -> stop_h G = Ok gt ->
  length gs = ndim e -> length gt = ndim e ->
  (forall i, (i < ndim e)%nat ->
     0 <= _beg e !!! i - gs !!! i < 2 ^ 63 /\
     0 <= gt !!! i - _end e !!! i < 2 ^ 63 /\
     0 <= fst (h !!! i) /\ 0 <= snd (h !!! i)) ->
  exists L,
    HaloSubExtent_init G slice halo start stop = Ok L /\ extent L = e /\
    length (Indexing._halo L) = ndim e /\
    forall i, (i < ndim e)%nat ->
      Indexing._halo L !!! i =
        (Z.min (_beg e !!! i - gs !!! i) (fst (h !!! i)),
         Z.min (gt !!! i - _end e !!! i) (snd (h !!! i))).
Proof.
  intros He Hh Hwf Hgs Hgt Hlgs Hlgt Hin.
  destruct (HaloSubExtent_init_rows G slice halo start stop e h gs gt
              He Hh Hwf Hgs Hgt Hlgs Hlgt) as (H & HL & HlenH & Hrows).
  pose proof (IndexingExtent_init_int64 _ _ _ _ He) as [Hrb Hre].
  exists (mkHaloIndexingExtent e H). split; [exact HL|].
  split; [reflexivity|]. split; [exact HlenH|].
  intros i Hi. cbn [Indexing._halo]. rewrite (Hrows i Hi).
  destruct (Hin i Hi) as (Hb & Het & Hhl & Hhh).
  unfold well_formed, ndim in *.
  pose proof (forallb_in_int64 _ i Hrb ltac:(lia)) as Rb.
  pose proof (forallb_in_int64 _ i Hre ltac:(lia)) as Re.
  pose proof (broadcast2_wrap_range Z.sub _ _ _ i Hgs ltac:(lia)) as Rgs.
  pose proof (broadcast2_wrap_range Z.add _ _ _ i Hgt ltac:(lia)) as Rgt.
  destruct (wrap64_cases (_beg e !!! i - gs !!! i)) as (k1 & E1 & R1).
  destruct (wrap64_cases (gt !!! i - _end e !!! i)) as (k2 & E2 & R2).
  f_equal; lia.
Qed.

Lemma halo_is_requested_or_room_witness :
  exists L,
    HaloSubExtent_init Examples.globale_12 (Some [(3, 6)]) (HaloInt 4)
      None None = Ok L /\
    extent L = mkIndexingExtent [3] [6] /\
    length (Indexing._halo L) = 1%nat /\
    forall i, (i < 1)%nat ->
      Indexing._halo L !!! i =
        (Z.min (_beg (mkIndexingExtent [3] [6]) !!! i - [0] !!! i)
               (fst ([(4, 4)] !!! i)),
         Z.min ([12] !!! i - _end (mkIndexingExtent [3] [6]) !!! i)
               (snd ([(4, 4)] !!! i))).
Proof.
  apply (halo_is_requested_or_room Examples.globale_12 (Some [(3, 6)])
           (HaloInt 4) None None (mkIndexingExtent [3] [6]) [(4, 4)]
           [0] [12]); try reflexivity.
  intros i Hi. destruct i as [|i]; [vm_compute; intuition discriminate|].
  unfold ndim in Hi. simpl in Hi. lia.
Defined.

(** ** [distribution.py]: [BlockPartition] *)

Lemma replicate_eq_total (l : list (Z * Z)) (n : nat) (x : Z * Z) :
  length l = n -> (forall i, (i < n)%nat -> l !!! i = x) ->
  l = replicate n x.
Proof.
  revert n. induction l as [|y l IH]; intros [|n] Hlen H; simpl in *;
    try reflexivity; try discriminate.
  f_equal.
  - apply (H 0%nat). lia.
  - apply IH; [lia|]. intros i Hi. apply (H (S i)). lia.
Qed.

Lemma zeros_same_length (l k : list Z) :
  length l = length k -> (fun _ : Z => 0) <$> l = (fun _ : Z => 0) <$> k.
Proof.
  revert k. induction l as [|x l IH]; intros [|y k] Hlen; simpl in *;
    try reflexivity; try discriminate.
  f_equal. apply IH. lia.
Qed.

Lemma zeros_lookup_total (l : list Z) (i : nat) :
  (i < length l)%nat -> ((fun _ : Z => 0) <$> l) !!! i = 0.
Proof. intros Hi. rewrite fmap_lookup_total_Z by exact Hi. reflexivity. Qed.

Lemma replicate_lookup_total_pair (n i : nat) (x : Z * Z) :
  (i < n)%nat -> replicate n x !!! i = x.
Proof. intros Hi. apply lookup_total_replicate_2. exact Hi. Qed.

(** The sub-extent that covers a whole globale extent without halo has no
    room for a halo. *)
Lemma HaloSubExtent_init_whole (shape : list Z) (halo : HaloSpec)
    (h : halo_matrix) :
  forallb in_int64 shape = true ->
  convert_halo_to_array_form halo (length shape) = Ok h ->
  HaloSubExtent_init
    (mkHaloIndexingExtent
       (mkIndexingExtent ((fun _ : Z => 0) <$> shape) shape)
       (replicate (length shape) (0, 0)))
    None halo (Some ((fun _ : Z => 0) <$> shape)) (Some shape)
  = Ok (mkHaloIndexingExtent
          (mkIndexingExtent ((fun _ : Z => 0) <$> shape) shape)
          (replicate (length shape) (0, 0))).
Proof.
  intros Hshape Hh.
  set (z := (fun _ : Z => 0) <$> shape).
  set (n := length shape).
  assert (Hlz : length z = n) by (unfold z; apply length_fmap).
  set (G := mkHaloIndexingExtent (mkIndexingExtent z shape)
              (replicate n (0, 0))).
  set (gs := zip_with (fun x y => wrap64 (x - y)) z ((replicate n (0, 0)).*1)).
  set (gt := zip_with (fun x y => wrap64 (x + y)) shape
               ((replicate n (0, 0)).*2)).
  assert (Hgs : start_h G = Ok gs).
  { unfold start_h, np_sub. apply broadcast2_same. cbn [halo_col G extent _beg
      Indexing._halo]. rewrite length_fmap, length_replicate. exact Hlz. }
  assert (Hgt : stop_h G = Ok gt).
  { unfold stop_h, np_add. apply broadcast2_same. cbn [halo_col G extent _end
      Indexing._halo]. rewrite length_fmap, length_replicate. reflexivity. }
  destruct (HaloSubExtent_init_rows G None halo (Some z) (Some shape)
              (mkIndexingExtent z shape) h gs gt)
    as (H & HL & HlenH & Hrows).
  - apply IndexingExtent_init_bounds; [apply forallb_int64_zeros|exact Hshape].
  - unfold ndim. cbn [_beg]. rewrite Hlz. exact Hh.
  - unfold well_formed. cbn [_beg _end]. exact Hlz.
  - exact Hgs.
  - exact Hgt.
  - unfold gs, ndim. cbn [_beg].
    rewrite length_zip_with, length_fmap, length_replicate. lia.
  - unfold gt, ndim. cbn [_beg].
    rewrite length_zip_with, length_fmap, length_replicate. lia.
  - rewrite HL. f_equal. f_equal. unfold ndim in *. cbn [_beg _end] in *.
    apply replicate_eq_total; [lia|]. intros i Hi.
    rewrite Hrows by lia. unfold gs, gt.
    rewrite !zip_with_lookup_total_Z, !fmap_lookup_total_col,
      !replicate_lookup_total_pair;
      rewrite ?length_fmap, ?length_replicate; try lia.
    unfold z. rewrite zeros_lookup_total by (fold n; lia). cbn [fst snd].
    pose proof (forallb_in_int64 _ i Hshape ltac:(fold n; lia)) as Rs.
    rewrite Z.add_0_r, (wrap64_id (shape !!! i)) by exact Rs.
    rewrite !Z.sub_diag. change (wrap64 0) with 0.
    f_equal; lia.
Qed.

(** X22: [BlockPartition] over at most one locale.  When the product of
    [dims] is at most one and no coordinate map is given, the partition
    holds exactly one cartesian locale extent: it covers the whole globale
    extent [[0, shape)], sits at the origin coordinate with cartesian rank
    0, carries the rank of position 0, and its halo is zero whatever halo
    was requested, because the globale extent has none. *)
Theorem block_partition_single_locale (UNDEFINED : Z)
    (calculate_split :
       list Z -> list Z -> list Z -> result (list (list Z * list (Z * Z))))
    (shape dims : list Z) (halo : HaloSpec) (h : halo_matrix)
    (m : option (list Z)) (r : Z) :
  forallb in_int64 shape = true -> forallb in_int64 dims = true ->
  convert_halo_to_array_form halo (length shape) = Ok h ->
  np_product dims <= 1 ->
  match m with Some l => l !! 0%nat | None => Some UNDEFINED end = Some r ->
  Partitions.BlockPartition_init UNDEFINED calculate_split (GArgShape shape)
    dims None halo m
  = Ok (mkDistribution
          (mkDistributionConfig
             (BlockPartitionClass [(0%nat, (fun _ : Z => 0) <$> shape)] dims)
             CartLocaleExtentT m)
          (mkHaloIndexingExtent
             (mkIndexingExtent ((fun _ : Z => 0) <$> shape) shape)
             (replicate (length shape) (0, 0)))
          h
          [IsCart
             (mkCartLocaleExtent
                (mkLocaleExtent
                   (mkHaloIndexingExtent
                      (mkIndexingExtent ((fun _ : Z => 0) <$> shape) shape)
                      (replicate (length shape) (0, 0)))
                   r 0)
                ((fun _ : Z => 0) <$> shape) dims)]).
Proof.
  intros Hshape Hdims Hh Hprod Hr.
  set (z := (fun _ : Z => 0) <$> shape).
  set (n := length shape) in *.
  assert (Hlz : length z = n) by (unfold z; apply length_fmap).
  unfold Partitions.BlockPartition_init.
  rewrite create_globale_extent_shape by exact Hshape.
  cbn [mbind result_bind]. fold z n.
  destruct (Z.ltb_spec 1 (np_product dims)) as [Hgt|_]; [lia|].
  unfold shape_n. cbn [extent _beg _end].
  rewrite np_sub_same by lia.
  cbn [mbind result_bind mret result_ret].
  rewrite (zeros_same_length (zip_with _ shape z) shape)
    by (rewrite length_zip_with; lia).
  fold z. unfold Partitions.cart_rank_to_cart_coord_map. cbn [foldl fst snd].
  unfold Distribution_init.
  rewrite create_globale_extent_copy.
  cbn [mbind result_bind extent]. unfold ndim. cbn [_beg].
  rewrite !Hlz. rewrite Hh. cbn [mbind result_bind].
  cbn [fmap list_fmap create_all Partitions.arg_of_extent].
  unfold create_locale_extent. cbn [_class coord_of_rank].
  rewrite decide_True by reflexivity. cbn [mbind result_bind].
  unfold Distribution_create_locale_extent, get_rank.
  cbn [_inter_locale_rank_to_rank _locale_extent_type].
  assert (Hrank : match m with
                  | Some m0 => getitem m0 0
                  | None => mret UNDEFINED
                  end = Ok r).
  { destruct m as [l|].
    - apply getitem_lookup. exact Hr.
    - injection Hr as <-. reflexivity. }
  rewrite Hrank. cbn [mbind result_bind construct].
  unfold Partitions.arg_of_extent, start_n, stop_n. cbn [extent _beg _end].
  cbn [mbind result_bind construct].
  unfold CartLocaleExtent_init, LocaleExtent_init.
  unfold z, n in *. rewrite (HaloSubExtent_init_whole shape halo h Hshape Hh).
  cbn [mbind result_bind mret result_ret]. unfold np_array_int64.
  rewrite forallb_int64_zeros, Hdims. reflexivity.
Qed.

Lemma block_partition_single_locale_witness :
  Partitions.BlockPartition_init Examples.mpi_undefined
    (fun _ _ _ => Raise ValueError) (GArgShape [100; 100]) [1; 1] None
    (HaloInt 2) None
  = Ok (mkDistribution
          (mkDistributionConfig
             (BlockPartitionClass [(0%nat, [0; 0])] [1; 1])
             CartLocaleExtentT None)
          (mkHaloIndexingExtent (mkIndexingExtent [0; 0] [100; 100])
             [(0, 0); (0, 0)])
          [(2, 2); (2, 2)]
          [IsCart
             (mkCartLocaleExtent
                (mkLocaleExtent
                   (mkHaloIndexingExtent (mkIndexingExtent [0; 0] [100; 100])
                      [(0, 0); (0, 0)])
                   Examples.mpi_undefined 0)
                [0; 0] [1; 1])]).
Proof.
  apply (block_partition_single_locale Examples.mpi_undefined
           (fun _ _ _ => Raise ValueError) [100; 100] [1; 1] (HaloInt 2)
           [(2, 2); (2, 2)] None Examples.mpi_undefined);
    reflexivity || (vm_compute; discriminate).
Defined.

(** ** [distribution.py]: locale extents *)

Lemma LocaleExtent_eq_value (A B : LocaleExtent) :
  ndim (extent (sub_extent A)) = ndim (extent (sub_extent B)) ->
  well_formed (extent (sub_extent A)) -> well_formed (extent (sub_extent B)) ->
  exists b, LocaleExtent_eq A B = Ok b /\
    (b = true <->
     extent (sub_extent A) = extent (sub_extent B) /\
     _rank A = _rank B /\ _inter_locale_rank A = _inter_locale_rank B).
Proof.
  intros Hn HA HB.
  destruct (IndexingExtent_eq_spec _ _ HA HB Hn) as (b & Hb & Hiff).
  unfold LocaleExtent_eq. rewrite Hb. cbn [mbind result_bind].
  destruct b.
  - pose proof (proj1 Hiff eq_refl) as He.
    destruct (bool_decide (_rank A = _rank B)) eqn:Er.
    + eexists. split; [reflexivity|].
      apply bool_decide_eq_true in Er. rewrite bool_decide_eq_true. tauto.
    + exists false. split; [reflexivity|].
      apply bool_decide_eq_false in Er. split; [discriminate|]. tauto.
  - exists false. split; [reflexivity|]. split; [discriminate|].
    intros (He & _). apply Hiff in He. discriminate.
Qed.

(** X23: two cartesian locale extents of one dimension and one grid
    dimension compare equal exactly when they have the same interior box,
    the same two ranks, the same cartesian coordinate and the same grid
    shape; as for [LocaleExtent], the halo takes no part in the
    comparison. *)
Theorem CartLocaleExtent_eq_spec (A B : CartLocaleExtent) :
  ndim (extent (sub_extent (locale A))) = ndim (extent (sub_extent (locale B))) ->
  well_formed (extent (sub_extent (locale A))) ->
  well_formed (extent (sub_extent (locale B))) ->
  length (Distribution._cart_coord A) = length (Distribution._cart_coord B) ->
  length (Distribution._cart_shape A) = length (Distribution._cart_shape B) ->
  exists b, Partitions.CartLocaleExtent_eq A B = Ok b /\
    (b = true <->
     extent (sub_extent (locale A)) = extent (sub_extent (locale B)) /\
     _rank (locale A) = _rank (locale B) /\
     _inter_locale_rank (locale A) = _inter_locale_rank (locale B) /\
     Distribution._cart_coord A = Distribution._cart_coord B /\
     Distribution._cart_shape A = Distribution._cart_shape B).
Proof.
  intros Hn HA HB Hc Hs. unfold Partitions.CartLocaleExtent_eq.
  destruct (LocaleExtent_eq_value (locale A) (locale B) Hn HA HB)
    as (b & -> & Hb).
  cbn [mbind result_bind]. destruct b.
  - pose proof (proj1 Hb eq_refl) as (E1 & E2 & E3).
    unfold np_eq. rewrite (broadcast2_same Z.eqb _ _ Hc).
    cbn [mbind result_bind].
    destruct (np_all (zip_with Z.eqb (Distribution._cart_coord A)
                        (Distribution._cart_coord B))) eqn:E4.
    + apply np_all_zip_eqb in E4; [|exact Hc].
      rewrite (broadcast2_same Z.eqb _ _ Hs).
      cbn [mbind result_bind mret result_ret].
      eexists. split; [reflexivity|].
      rewrite np_all_zip_eqb by exact Hs. tauto.
    + exists false. split; [reflexivity|]. split; [discriminate|].
      intros (_ & _ & _ & H4 & _).
      rewrite (proj2 (np_all_zip_eqb _ _ Hc) H4) in E4. discriminate.
  - exists false. split; [reflexivity|]. split; [discriminate|].
    intros (E1 & E2 & E3 & _). apply Hb. auto.
Qed.

Lemma CartLocaleExtent_eq_spec_witness :
  exists b,
    Partitions.CartLocaleExtent_eq
      (mkCartLocaleExtent Examples.locale_3_6_halo2 [1] [4])
      (mkCartLocaleExtent Examples.locale_3_6_halo0 [1] [4]) = Ok b /\
    (b = true <->
     extent (sub_extent Examples.locale_3_6_halo2)
       = extent (sub_extent Examples.locale_3_6_halo0) /\
     _rank Examples.locale_3_6_halo2 = _rank Examples.locale_3_6_halo0 /\
     _inter_locale_rank Examples.locale_3_6_halo2
       = _inter_locale_rank Examples.locale_3_6_halo0 /\
     [1] = [1] /\ [4] = [4]).
Proof.
  apply (CartLocaleExtent_eq_spec
           (mkCartLocaleExtent Examples.locale_3_6_halo2 [1] [4])
           (mkCartLocaleExtent Examples.locale_3_6_halo0 [1] [4]));
    reflexivity.
Defined.

Lemma clamp_lo_le (b gs req : Z) :
  - 2 ^ 63 <= b < 2 ^ 63 -> - 2 ^ 63 <= gs < 2 ^ 63 -> gs <= b ->
  wrap64 (b - Z.max 0 (Z.min (wrap64 (b - gs)) req)) <= b.
Proof.
  intros Rb Rgs Hle.
  destruct (wrap64_cases (b - gs)) as (k & E & R).
  destruct (wrap64_cases (b - Z.max 0 (Z.min (wrap64 (b - gs)) req)))
    as (k2 & E2 & R2).
  lia.
Qed.

Lemma clamp_hi_ge (e gt req : Z) :
  - 2 ^ 63 <= e < 2 ^ 63 -> - 2 ^ 63 <= gt < 2 ^ 63 -> e <= gt ->
  e <= wrap64 (e + Z.max 0 (Z.min (wrap64 (gt - e)) req)).
Proof.
  intros Re Rgt Hle.
  destruct (wrap64_cases (gt - e)) as (k & E & R).
  destruct (wrap64_cases (e + Z.max 0 (Z.min (wrap64 (gt - e)) req)))
    as (k2 & E2 & R2).
  lia.
Qed.

(** X24: the slabs of a locale extent.  A [LocaleExtent] constructed over a
    globale extent whose with-halo box contains its interior, with bounds
    that are ordered on every axis, has on every axis a low slab, a high
    slab and a trimmed extent that tile its with-halo box, and that box
    lies inside the with-halo box of the globale extent. *)
Theorem locale_slabs_tile_axis (rank inter_locale_rank : Z)
    (G : GlobaleExtent) (slice : option (list (Z * Z))) (halo : HaloSpec)
    (start stop : option (list Z)) (e : IndexingExtent) (h : halo_matrix)
    (gs gt : list Z) :
  IndexingExtent_init slice start stop = Ok e ->
  convert_halo_to_array_form halo (ndim e) = Ok h ->
  well_formed e ->
  start_h G = Ok gs -> stop_h G = Ok gt ->
  length gs = ndim e -> length gt = ndim e ->
  (forall i, (i < ndim e)%nat ->
     gs !!! i <= _beg e !!! i /\ _beg e !!! i <= _end e !!! i /\
     _end e !!! i <= gt !!! i) ->
  exists L,
    LocaleExtent_init rank inter_locale_rank G slice halo start stop = Ok L /\
    extent (sub_extent L) = e /\
    forall a, (a < ndim e)%nat ->
      exists lo hi inner wh,
        Partitions.halo_slab_extent L a LO = Ok lo /\
        Partitions.halo_slab_extent L a HI = Ok hi /\
        Partitions.no_halo_extent L (Some a) = Ok inner /\
        Partitions.no_halo_extent L None = Ok wh /\
        (forall p, contains wh p = true <->
           contains lo p = true \/ contains inner p = true \/
           contains hi p = true) /\
        disjoint lo inner /\ disjoint inner hi /\ disjoint lo hi /\
        (forall p, contains wh p = true ->
           contains (mkIndexingExtent gs gt) p = true).
Proof.
  intros He Hh Hwf Hgs Hgt Hlgs Hlgt Hin.
  destruct (HaloSubExtent_init_rows G slice halo start stop e h gs gt
              He Hh Hwf Hgs Hgt Hlgs Hlgt) as (H & HL & HlenH & Hrows).
  pose proof (IndexingExtent_init_int64 _ _ _ _ He) as [Hrb Hre].
  exists (mkLocaleExtent (mkHaloIndexingExtent e H) rank inter_locale_rank).
  split; [unfold LocaleExtent_init; rewrite HL; reflexivity|].
  split; [reflexivity|]. intros a Ha.
  set (x := mkDecompExtent (mkHaloIndexingExtent e H) 0 [] [] []).
  assert (Hok : tile_ok x).
  { unfold tile_ok, dbeg, dend, dhalo, x. cbn [halo_extent extent Indexing._halo].
    unfold well_formed, ndim in *. split; [lia|]. split; [lia|]. auto. }
  assert (Hbounds : forall i, (i < ndim e)%nat ->
            gs !!! i <= start_h_at x i /\ start_h_at x i <= _beg e !!! i /\
            _end e !!! i <= stop_h_at x i /\ stop_h_at x i <= gt !!! i).
  { intros i Hi. destruct (Hin i Hi) as (Hb & Hbe & Het).
    unfold start_h_at, stop_h_at, dbeg, dend, dhalo, x.
    cbn [halo_extent extent Indexing._halo]. rewrite (Hrows i Hi).
    cbn [fst snd]. unfold well_formed, ndim in *.
    pose proof (forallb_in_int64 _ i Hrb ltac:(lia)) as Rb.
    pose proof (forallb_in_int64 _ i Hre ltac:(lia)) as Re.
    pose proof (broadcast2_wrap_range Z.sub _ _ _ i Hgs ltac:(lia)) as Rgs.
    pose proof (broadcast2_wrap_range Z.add _ _ _ i Hgt ltac:(lia)) as Rgt.
    pose proof (clamp_lo (_beg e !!! i) (gs !!! i) (fst (h !!! i)) Rb Rgs Hb)
      as [_ Hsl].
    pose proof (clamp_hi (_end e !!! i) (gt !!! i) (snd (h !!! i)) Re Rgt Het)
      as [_ Hsh].
    pose proof (clamp_lo_le (_beg e !!! i) (gs !!! i) (fst (h !!! i))
                  Rb Rgs Hb).
    pose proof (clamp_hi_ge (_end e !!! i) (gt !!! i) (snd (h !!! i))
                  Re Rgt Het).
    lia. }
  assert (Haround : halo_around x a).
  { unfold halo_around. destruct (Hbounds a Ha) as (_ & H1 & H2 & _).
    destruct (Hin a Ha) as (_ & Hbe & _).
    unfold dbeg, dend. subst x. cbn [halo_extent extent] in *. lia. }
  destruct (slabs_tile_axis x a Hok Ha Haround)
    as (lo & hi & inner & wh & Hlo & Hhi & Hinner & Hwh & Hcov & D1 & D2 & D3).
  exists lo, hi, inner, wh.
  split; [exact Hlo|]. split; [exact Hhi|]. split; [exact Hinner|].
  split; [exact Hwh|]. split; [exact Hcov|]. split; [exact D1|].
  split; [exact D2|]. split; [exact D3|].
  destruct (with_halo_extent_spec x Hok) as (wh' & Hwh' & Wlb & Wle & Wat).
  assert (wh' = wh) as -> by congruence.
  intros p. subst x. unfold dbeg in Wlb, Wle, Wat.
  cbn [halo_extent extent] in *.
  rewrite (contains_bounds wh (ndim e)) by assumption.
  rewrite (contains_bounds (mkIndexingExtent gs gt) (ndim e)) by assumption.
  intros [Hlen Hp]. split; [exact Hlen|]. intros i Hi.
  specialize (Hp i Hi). pose proof (Wat i Hi) as E. inversion E as [[E1 E2]].
  rewrite E1, E2 in Hp. cbn [_beg _end]. destruct (Hbounds i Hi). lia.
Qed.

Lemma locale_slabs_tile_axis_witness :
  exists L,
    LocaleExtent_init 5 1 Examples.globale_12 (Some [(3, 6)]) (HaloInt 2)
      None None = Ok L /\
    extent (sub_extent L) = mkIndexingExtent [3] [6] /\
    forall a, (a < 1)%nat ->
      exists lo hi inner wh,
        Partitions.halo_slab_extent L a LO = Ok lo /\
        Partitions.halo_slab_extent L a HI = Ok hi /\
        Partitions.no_halo_extent L (Some a) = Ok inner /\
        Partitions.no_halo_extent L None = Ok wh /\
        (forall p, contains wh p = true <->
           contains lo p = true \/ contains inner p = true \/
           contains hi p = true) /\
        disjoint lo inner /\ disjoint inner hi /\ disjoint lo hi /\
        (forall p, contains wh p = true ->
           contains (mkIndexingExtent [0] [12]) p = true).
Proof.
  apply (locale_slabs_tile_axis 5 1 Examples.globale_12 (Some [(3, 6)])
           (HaloInt 2) None None (mkIndexingExtent [3] [6]) [(2, 2)]
           [0] [12]); try reflexivity.
  intros i Hi. destruct i as [|i]; [vm_compute; intuition discriminate|].
  unfold ndim in Hi. simpl in Hi. lia.
Defined.

(** *** [BlockPartition] over several locales *)

Lemma for_each_app {S X : Type} (body : X -> S -> result S)
    (xs ys : list X) (st : S) :
  for_each body (xs ++ ys) st =
    (st' ← for_each body xs st; for_each body ys st').
Proof.
  revert st. induction xs as [|x xs IH]; intros st; simpl; [reflexivity|].
  destruct (body x st); simpl; [apply IH|reflexivity].
Qed.

Lemma rank_of_coord_In (m : list (list Z * nat)) (c : list Z) (r : nat) :
  Partitions.rank_of_coord m c = Ok r -> In (c, r) m.
Proof.
  induction m as [|[k v] m IH]; simpl; [discriminate|].
  destruct (decide (k = c)) as [->|Hne].
  - intros H. injection H as ->. left. reflexivity.
  - intros H. right. apply IH. exact H.
Qed.

Lemma coord_of_rank_In (l : list (nat * list Z)) (r : nat) (c : list Z) :
  coord_of_rank l r = Ok c -> In (r, c) l.
Proof.
  induction l as [|[k v] l IH]; simpl; [discriminate|].
  destruct (decide (k = r)) as [->|Hne].
  - intros H. injection H as ->. left. reflexivity.
  - intros H. right. apply IH. exact H.
Qed.

Lemma cart_rank_to_cart_coord_map_In (m : list (list Z * nat)) (r : nat)
    (c : list Z) :
  In (r, c) (Partitions.cart_rank_to_cart_coord_map m) -> In (c, r) m.
Proof.
  unfold Partitions.cart_rank_to_cart_coord_map.
  assert (Hgen : forall acc : list (nat * list Z),
            In (r, c) (foldl (fun acc kv => (snd kv, fst kv) :: acc) acc m) ->
            In (r, c) acc \/ In (c, r) m).
  { induction m as [|[k v] m IH]; intros acc; simpl; [auto|].
    intros H. destruct (IH _ H) as [[Heq|Hacc]|Hm]; auto.
    injection Heq as -> ->. auto. }
  intros H. destruct (Hgen [] H) as [[]|Hm]. exact Hm.
Qed.

Lemma NoDup_fst_functional (l : list (list Z * list (Z * Z))) (c : list Z)
    (x y : list (Z * Z)) :
  NoDup (l.*1) -> In (c, x) l -> In (c, y) l -> x = y.
Proof.
  induction l as [|[k v] l IH]; simpl; [tauto|].
  intros Hnd. apply NoDup_cons in Hnd as [Hk Hnd].
  assert (Hnot : forall z, In (k, z) l -> False).
  { intros z Hz. apply Hk. apply list_elem_of_fmap. exists (k, z).
    split; [reflexivity|]. apply list_elem_of_In. exact Hz. }
  intros [Hx|Hx] [Hy|Hy].
  - congruence.
  - injection Hx as -> ->. destruct (Hnot _ Hy).
  - injection Hy as -> ->. destruct (Hnot _ Hx).
  - apply IH; assumption.
Qed.

(** The assignment loop of [BlockPartition.__init__]: every coordinate of
    the split has a rank inside the array, and the slot of a rank holds the
    slices of the coordinate with that rank. *)
Lemma assign_loop (m : list (list Z * nat)) (splt : list (list Z * list (Z * Z))) :
  forall st slots : list (option (list (Z * Z))),
  for_each (fun (cs : list Z * list (Z * Z)) locale_extents =>
              d ← match Some m with
                  | Some d => Ok d
                  | None => Raise TypeError
                  end;
              r ← Partitions.rank_of_coord d (fst cs);
              setitem locale_extents r (Some (snd cs)))
           splt st = Ok slots ->
  length slots = length st /\
  forall c sl, In (c, sl) splt ->
    exists r, Partitions.rank_of_coord m c = Ok r /\ (r < length st)%nat /\
      ((forall c' sl', In (c', sl') splt ->
          Partitions.rank_of_coord m c' = Ok r -> sl' = sl) ->
       slots !! r = Some (Some sl)).
Proof.
  induction splt as [|[c0 sl0] l IH] using rev_ind; intros st slots.
  - simpl. intros H. injection H as <-. split; [reflexivity|].
    intros c sl [].
  - rewrite for_each_app.
    destruct (for_each _ l st) as [st1|] eqn:Hl; [|discriminate].
    cbn [mbind result_bind for_each fst snd].
    destruct (Partitions.rank_of_coord m c0) as [r0|] eqn:Hr0; [|discriminate].
    cbn [mbind result_bind].
    destruct (setitem st1 r0 (Some sl0)) as [st2|] eqn:Hset; [|discriminate].
    cbn [mbind result_bind]. intros H. injection H as <-.
    apply setitem_Ok in Hset as [-> Hlt].
    destruct (IH st st1 Hl) as [Hlen Hall].
    split; [rewrite length_insert; exact Hlen|].
    intros c sl Hin. apply List.in_app_or in Hin.
    assert (Hcase : exists r, Partitions.rank_of_coord m c = Ok r /\
                      (r < length st)%nat /\
                      (r <> r0 -> In (c, sl) l)).
    { destruct Hin as [Hin|[Heq|[]]].
      - destruct (Hall c sl Hin) as (r & Hr & Hrl & _). eauto.
      - injection Heq as <- <-. exists r0. split; [exact Hr0|].
        split; [lia|]. intros Hne. destruct (Hne eq_refl). }
    destruct Hcase as (r & Hr & Hrl & Hcase).
    exists r. split; [exact Hr|]. split; [exact Hrl|]. intros Huniq.
    destruct (decide (r = r0)) as [->|Hne].
    + assert (sl0 = sl) as ->.
      { apply (Huniq c0 sl0); [|exact Hr0].
        apply List.in_or_app. right. left. reflexivity. }
      apply list_lookup_insert_eq. exact Hlt.
    + rewrite list_lookup_insert_ne by auto.
      destruct (Hall c sl (Hcase Hne)) as (r' & Hr' & _ & Hslot).
      assert (r' = r) as -> by congruence.
      apply Hslot. intros c' sl' Hin' Hr''.
      apply (Huniq c' sl'); [|exact Hr''].
      apply List.in_or_app. left. exact Hin'.
Qed.

Lemma create_all_lookup (UNDEFINED : Z) (self : DistributionConfig)
    (G : GlobaleExtent) (halo : HaloSpec) (les : list LocaleArg) :
  forall (i : nat) (es : list CreatedExtent),
  create_all UNDEFINED self i les G halo = Ok es ->
  length es = length les /\
  forall j a, les !! j = Some a ->
    exists x, es !! j = Some x /\
      create_locale_extent UNDEFINED self (i + j) a G halo = Ok x.
Proof.
  induction les as [|a0 les IH]; intros i es; simpl.
  - intros H. injection H as <-. split; [reflexivity|].
    intros j a Hj. discriminate.
  - destruct (create_locale_extent UNDEFINED self i a0 G halo) as [e|] eqn:Ee;
      simpl; [|discriminate].
    destruct (create_all UNDEFINED self (S i) les G halo) as [es'|] eqn:Es;
      simpl; [|discriminate].
    intros H. injection H as <-.
    destruct (IH (S i) es' Es) as [Hlen Hall].
    split; [simpl; congruence|].
    intros [|j] a Hj; simpl in Hj.
    + injection Hj as <-. exists e. rewrite Nat.add_0_r. auto.
    + replace (i + S j)%nat with (S i + j)%nat by lia. apply Hall. exact Hj.
Qed.

Lemma HaloSubExtent_init_extent (G : GlobaleExtent)
    (slice : option (list (Z * Z))) (halo : HaloSpec)
    (start stop : option (list Z)) (s : HaloIndexingExtent) :
  HaloSubExtent_init G slice halo start stop = Ok s ->
  IndexingExtent_init slice start stop = Ok (extent s).
Proof.
  unfold HaloSubExtent_init, HaloIndexingExtent_init.
  destruct (IndexingExtent_init slice start stop) as [e|]; [|discriminate].
  cbn [mbind result_bind mret result_ret extent].
  repeat (match goal with
          | |- (match ?t with Ok _ => _ | Raise _ => _ end) = _ -> _ =>
              destruct t; [|discriminate]
          | |- mbind _ ?t = _ -> _ => destruct t; [|discriminate]
          end; cbn [mbind result_bind mret result_ret extent]).
  intros H. injection H as <-. reflexivity.
Qed.

(** X25: [BlockPartition] over several locales.  When the external split
    lists each coordinate once and no two coordinates share a rank, a
    partition that is constructed has one locale extent per element of the
    split; the extent of a coordinate sits at the position of its rank, its
    interior is the piece of the split for the coordinate, and it carries
    the coordinate, the grid shape [dims] and that rank as its cartesian
    rank. *)
Theorem block_partition_assigns (UNDEFINED : Z)
    (calculate_split :
       list Z -> list Z -> list Z -> result (list (list Z * list (Z * Z))))
    (g : GlobaleArg) (dims : list Z) (c2r : list (list Z * nat))
    (halo : HaloSpec) (m : option (list Z)) (d : Distribution)
    (G : GlobaleExtent) (sh : list Z) (splt : list (list Z * list (Z * Z))) :
  create_globale_extent g = Ok G ->
  1 < np_product dims ->
  shape_n G = Ok sh -> calculate_split sh (start_n G) dims = Ok splt ->
  NoDup (splt.*1) ->
  (forall c c' r, In (c, r) c2r -> In (c', r) c2r -> c = c') ->
  Partitions.BlockPartition_init UNDEFINED calculate_split g dims (Some c2r)
    halo m = Ok d ->
  Partitions.num_locales d = length splt /\
  forall c sl, In (c, sl) splt ->
    exists r x,
      Partitions.rank_of_coord c2r c = Ok r /\
      Partitions.get_extent_for_rank d r = Ok (IsCart x) /\
      _beg (extent (sub_extent (locale x))) = sl.*1 /\
      _end (extent (sub_extent (locale x))) = sl.*2 /\
      Distribution._cart_coord x = c /\
      Distribution._cart_shape x = dims /\
      Partitions.cart_rank x = Z.of_nat r.
Proof.
  intros HG Hprod Hsh Hsplt Hnd Hinj.
  unfold Partitions.BlockPartition_init. rewrite HG. cbn [mbind result_bind].
  destruct (Z.ltb_spec 1 (np_product dims)) as [_|Hle]; [|lia].
  rewrite Hsh. cbn [mbind result_bind]. rewrite Hsplt. cbn [mbind result_bind].
  unfold Partitions.assign_locale_extents.
  destruct (for_each _ splt (replicate (length splt) None)) as [slots|] eqn:Hloop;
    [|discriminate].
  cbn [mbind result_bind mret result_ret].
  destruct (assign_loop c2r splt _ slots Hloop) as [Hlen Hslots].
  rewrite length_replicate in Hlen, Hslots.
  unfold Distribution_init.
  destruct (create_globale_extent (GArgGlobale G)) as [G'|]; [|discriminate].
  cbn [mbind result_bind].
  destruct (convert_halo_to_array_form halo (ndim (extent G'))) as [h|];
    [|discriminate].
  cbn [mbind result_bind].
  destruct (create_all UNDEFINED _ 0 _ G' halo) as [es|] eqn:Hes;
    [|discriminate].
  cbn [mbind result_bind mret result_ret]. intros H. injection H as <-.
  unfold Partitions.num_locales, Partitions.get_extent_for_rank,
    Partitions.cart_rank.
  cbn [_locale_extents].
  destruct (create_all_lookup _ _ _ _ _ _ _ Hes) as [Hlen' Hlook].
  rewrite length_fmap in Hlen'.
  split; [lia|]. intros c sl Hin.
  destruct (Hslots c sl Hin) as (r & Hr & Hrl & Hslot).
  assert (Hs : slots !! r = Some (Some sl)).
  { apply Hslot. intros c' sl' Hin' Hr'.
    assert (c' = c) as ->.
    { apply (Hinj c' c r); apply rank_of_coord_In; assumption. }
    apply (NoDup_fst_functional splt c); assumption. }
  destruct (Hlook r (ArgSlices sl)) as (x & Hx & Hcreate).
  { rewrite list_lookup_fmap, Hs. reflexivity. }
  cbn [Nat.add] in Hcreate.
  unfold create_locale_extent in Hcreate. cbn [_class] in Hcreate.
  destruct (coord_of_rank _ r) as [cc|] eqn:Hcc; [|discriminate].
  cbn [mbind result_bind] in Hcreate.
  unfold Distribution_create_locale_extent in Hcreate.
  destruct (get_rank UNDEFINED _ r) as [rk|]; [|discriminate].
  cbn [mbind result_bind _locale_extent_type construct] in Hcreate.
  unfold CartLocaleExtent_init, LocaleExtent_init in Hcreate.
  destruct (HaloSubExtent_init G' (Some sl) halo None None) as [s|] eqn:Hsub;
    [|discriminate].
  cbn [mbind result_bind mret result_ret] in Hcreate.
  destruct (np_array_int64 cc) as [cc'|] eqn:Ecc; [|discriminate].
  cbn [mbind result_bind] in Hcreate.
  destruct (np_array_int64 dims) as [cs|] eqn:Ecs; [|discriminate].
  cbn [mbind result_bind mret result_ret] in Hcreate.
  injection Hcreate as <-.
  apply np_array_int64_Ok in Ecc as [-> _], Ecs as [-> _].
  apply HaloSubExtent_init_extent in Hsub.
  unfold IndexingExtent_init in Hsub.
  destruct (np_array_int64 (sl.*1)) as [b|] eqn:Eb; [|discriminate].
  cbn [mbind result_bind] in Hsub.
  destruct (np_array_int64 (sl.*2)) as [e|] eqn:Ee; [|discriminate].
  cbn [mbind result_bind mret result_ret] in Hsub.
  apply np_array_int64_Ok in Eb as [-> _], Ee as [-> _].
  exists r. eexists. split; [exact Hr|].
  split; [apply getitem_lookup; exact Hx|].
  cbn [locale sub_extent Distribution._cart_coord Distribution._cart_shape
       _inter_locale_rank].
  injection Hsub as <-. cbn [_beg _end].
  repeat (split; [reflexivity|]). split; [|split; reflexivity].
  apply coord_of_rank_In, cart_rank_to_cart_coord_map_In in Hcc.
  apply (Hinj cc c r); [exact Hcc|]. apply rank_of_coord_In. exact Hr.
Qed.

Lemma block_partition_assigns_witness :
  Partitions.num_locales MoreExamples.partition_12
    = length MoreExamples.split_12 /\
  forall c sl, In (c, sl) MoreExamples.split_12 ->
    exists r x,
      Partitions.rank_of_coord MoreExamples.coord_to_rank_2 c = Ok r /\
      Partitions.get_extent_for_rank MoreExamples.partition_12 r
        = Ok (IsCart x) /\
      _beg (extent (sub_extent (locale x))) = sl.*1 /\
      _end (extent (sub_extent (locale x))) = sl.*2 /\
      Distribution._cart_coord x = c /\
      Distribution._cart_shape x = [2] /\
      Partitions.cart_rank x = Z.of_nat r.
Proof.
  apply (block_partition_assigns Examples.mpi_undefined
           (fun _ _ _ => Ok MoreExamples.split_12) (GArgShape [12]) [2]
           MoreExamples.coord_to_rank_2 (HaloInt 2) None
           MoreExamples.partition_12 Examples.globale_12 [12]
           MoreExamples.split_12).
  - reflexivity.
  - vm_compute. reflexivity.
  - reflexivity.
  - reflexivity.
  - apply NoDup_ListNoDup. repeat constructor; simpl; intuition discriminate.
  - intros c c' r [H|[H|[]]] [H'|[H'|[]]]; congruence.
  - vm_compute. reflexivity.
Defined.

(** ** [decomposition.py]: the walk along an axis *)

(** X26: the walk of [initialise] along an axis stays on the grid.  For a
    destination at coordinate [c] of a grid axis of [n] tiles, the offsets
    [i_range] yields on side [LO] lead to exactly the coordinates below [c]
    and those on side [HI] to exactly the coordinates above [c] and below
    [n]; each offset occurs once and they are ordered by distance from the
    destination. *)
Theorem i_range_covers_line (dst : DecompExtent) (a : nat) (dir : Side)
    (c n : Z) :
  _cart_coord dst !! a = Some c -> _cart_shape dst !! a = Some n ->
  0 <= c < n -> n < 2 ^ 63 ->
  exists steps,
    i_range dst a dir = Ok steps /\ NoDup steps /\
    StronglySorted (farther dir) steps /\
    forall i, In i steps <->
      match dir with
      | LO => 0 <= c + i < c
      | HI => c < c + i < n
      end.
Proof.
  intros Hc Hn Hcn Hn63.
  assert (Hr : exists steps, i_range dst a dir = Ok steps /\
            forall i, In i steps <->
              match dir with
              | LO => 0 <= c + i < c
              | HI => c < c + i < n
              end).
  { unfold i_range. rewrite (getitem_lookup _ _ _ Hc), (getitem_lookup _ _ _ Hn).
    destruct dir; cbn [mbind result_bind mret result_ret];
      eexists; (split; [reflexivity|]); intros i.
    - rewrite py_range_down. rewrite (wrap64_id (- c)) by lia.
      rewrite (wrap64_id (- c - 1)) by lia. lia.
    - rewrite py_range_up. rewrite (wrap64_id (n - c)) by lia. lia. }
  destruct Hr as (steps & Hr & Hin). exists steps.
  split; [exact Hr|]. split; [exact (i_range_NoDup _ _ _ _ Hr)|].
  split; [exact (i_range_sorted _ _ _ _ Hr)|exact Hin].
Qed.

Lemma i_range_covers_line_witness :
  exists steps,
    i_range (Examples.third 1 2 4 1 1) 0 HI = Ok steps /\ NoDup steps /\
    StronglySorted (farther HI) steps /\
    forall i, In i steps <-> 1 < 1 + i < 3.
Proof.
  apply (i_range_covers_line (Examples.third 1 2 4 1 1) 0 HI 1 3);
    try reflexivity; lia.
Defined.

Lemma py_range_down_cons (c : Z) :
  1 <= c -> exists rest, py_range (-1) (- c - 1) (-1) = -1 :: rest.
Proof.
  intros Hc. unfold py_range.
  change (0 <? -1) with false. cbv iota.
  change (- -1) with 1. rewrite Z.div_1_r.
  replace (-1 - (- c - 1) - -1 - 1) with c by lia.
  destruct (Z.to_nat c) as [|k] eqn:Hk; [lia|].
  cbn [seq fmap list_fmap]. eexists. f_equal.
Qed.

(** X27: [initialise] needs every neighbour on the grid, also where there
    is nothing to update.  If the destination is not at coordinate 0 of axis
    0 and the tile just below it along that axis is missing from the dict,
    [initialise] raises [KeyError], whatever the halo of the destination
    is. *)
Theorem missing_neighbour_raises (dst_rank : Z) (d : list (Z * DecompExtent))
    (dst : DecompExtent) (c : Z) :
  dict_get d dst_rank = Ok dst ->
  (0 < ndim (extent (halo_extent dst)))%nat ->
  _cart_coord dst !! 0%nat = Some c -> 1 <= c < 2 ^ 63 ->
  cart_coord_to_extents d !! (<[0%nat := c - 1]> (_cart_coord dst)) = None ->
  initialise dst_rank d = Raise KeyError.
Proof.
  intros Hdst Hnd Hc Hrange Hmiss.
  rewrite initialise_shared, Hdst. cbn [mbind result_bind].
  destruct (ndim (extent (halo_extent dst))) as [|k]; [lia|].
  cbn [seq side_records].
  assert (Haxis : axis_records dst (cart_coord_to_extents d) LO 0
                  = Raise KeyError).
  { unfold axis_records, i_range.
    rewrite (getitem_lookup _ _ _ Hc). cbn [mbind result_bind mret result_ret].
    rewrite (wrap64_id (- c)) by lia. rewrite (wrap64_id (- c - 1)) by lia.
    destruct (py_range_down_cons c ltac:(lia)) as [rest ->].
    cbn [walk_records]. rewrite (getitem_lookup _ _ _ Hc).
    cbn [mbind result_bind].
    rewrite setitem_lt by (apply lookup_lt_Some in Hc; exact Hc).
    cbn [mbind result_bind]. rewrite (wrap64_id (c + -1)) by lia.
    replace (c + -1) with (c - 1) by lia. rewrite Hmiss. reflexivity. }
  rewrite Haxis. reflexivity.
Qed.

Lemma missing_neighbour_raises_witness :
  initialise 1 [(1, Examples.third 1 2 4 0 0)] = Raise KeyError.
Proof.
  apply (missing_neighbour_raises 1 [(1, Examples.third 1 2 4 0 0)]
           (Examples.third 1 2 4 0 0) 1).
  - reflexivity.
  - vm_compute. lia.
  - reflexivity.
  - lia.
  - vm_compute. reflexivity.
Defined.

(** ** [indexing.py]: slices against indices *)

Lemma wrap64_slice_vs_index (x b h : Z) :
  wrap64 (wrap64 (x - b) + h) = wrap64 (wrap64 (- wrap64 (b - h)) + x) /\
  wrap64 (wrap64 (x + b) - h) = wrap64 (wrap64 (b - h) + x).
Proof.
  destruct (wrap64_cases (x - b)) as (k1 & E1 & _).
  destruct (wrap64_cases (wrap64 (x - b) + h)) as (k2 & E2 & R2).
  destruct (wrap64_cases (b - h)) as (k3 & E3 & _).
  destruct (wrap64_cases (- wrap64 (b - h))) as (k4 & E4 & _).
  destruct (wrap64_cases (wrap64 (- wrap64 (b - h)) + x)) as (k5 & E5 & R5).
  destruct (wrap64_cases (x + b)) as (k6 & E6 & _).
  destruct (wrap64_cases (wrap64 (x + b) - h)) as (k7 & E7 & R7).
  destruct (wrap64_cases (wrap64 (b - h) + x)) as (k8 & E8 & R8).
  lia.
Qed.

Lemma list_eq_total_pair (l k : list (Z * Z)) :
  length l = length k ->
  (forall i, (i < length l)%nat -> l !!! i = k !!! i) -> l = k.
Proof.
  revert k. induction l as [|x l IH]; intros [|y k] Hlen H; simpl in *;
    try reflexivity; try discriminate.
  f_equal.
  - apply (H 0%nat). lia.
  - apply IH; [lia|]. intros i Hi. apply (H (S i)). lia.
Qed.

(** X28: the slice conversions agree with the index conversions.  Although
    the two are written with different formulas, converting a tuple of
    slices between the frames gives the slices whose starts and stops are
    the converted start and stop index vectors, in both directions. *)
Theorem slice_conversion_is_index_conversion (self : HaloIndexingExtent)
    (a b : list Z) :
  length (Indexing._halo self) = ndim (extent self) ->
  length a = ndim (extent self) -> length b = ndim (extent self) ->
  exists la lb ga gb,
    globale_to_locale_h self a = Ok la /\ globale_to_locale_h self b = Ok lb /\
    globale_to_locale_slice_h self (zip a b) = Ok (zip la lb) /\
    locale_to_globale_h self a = Ok ga /\ locale_to_globale_h self b = Ok gb /\
    locale_to_globale_slice_h self (zip a b) = Ok (zip ga gb).
Proof.
  unfold ndim. intros Hh Ha Hb.
  set (bs := _beg (extent self)) in *. set (hm := Indexing._halo self) in *.
  set (s := zip_with (fun x y => wrap64 (x - y)) bs (hm.*1)).
  assert (Hs : start_h self = Ok s).
  { unfold start_h, np_sub. apply broadcast2_same. cbn [halo_col].
    rewrite length_fmap. fold bs hm. lia. }
  assert (Hls : length s = length bs)
    by (unfold s; rewrite length_zip_with, length_fmap; lia).
  unfold globale_to_locale_h, locale_to_globale_h. rewrite Hs.
  cbn [mbind result_bind]. unfold np_negative.
  rewrite !np_add_same by (rewrite ?length_fmap; lia).
  do 4 eexists. split; [reflexivity|]. split; [reflexivity|].
  assert (Hsi : forall i, (i < length bs)%nat ->
            s !!! i = wrap64 (bs !!! i - fst (hm !!! i))).
  { intros i Hi. unfold s.
    rewrite zip_with_lookup_total_Z, fmap_lookup_total_col;
      rewrite ?length_fmap; try lia; reflexivity. }
  split; [|split; [reflexivity|split; [reflexivity|]]].
  - unfold globale_to_locale_slice_h. fold bs hm.
    rewrite (collect_ext _ (fun i : nat =>
               (wrap64 (wrap64 (fst (zip a b !!! i) - bs !!! i) + fst (hm !!! i)),
                wrap64 (wrap64 (snd (zip a b !!! i) - bs !!! i) + fst (hm !!! i))))).
    2:{ intros i Hi. apply seq_In_lt in Hi. rewrite length_zip in Hi.
        rewrite getitem_total_pair by (rewrite length_zip; lia).
        cbn [mbind result_bind].
        rewrite (getitem_total bs) by lia. cbn [mbind result_bind].
        rewrite (halo_at_total hm i LO) by lia. reflexivity. }
    f_equal. apply list_eq_total_pair.
    + rewrite length_fmap, length_seq, !length_zip, !length_zip_with,
        !length_fmap. lia.
    + intros i Hi. rewrite length_fmap, length_seq, length_zip in Hi.
      rewrite fmap_lookup_total_seq by (rewrite length_zip; lia).
      rewrite !zip_lookup_total
        by (rewrite ?length_zip_with, ?length_fmap; lia).
      cbn [fst snd].
      rewrite !zip_with_lookup_total_Z, !fmap_lookup_total_Z
        by (rewrite ?length_fmap; lia).
      rewrite Hsi by lia.
      f_equal; apply wrap64_slice_vs_index.
  - unfold locale_to_globale_slice_h. fold bs hm.
    rewrite (collect_ext _ (fun i : nat =>
               (wrap64 (wrap64 (fst (zip a b !!! i) + bs !!! i) - fst (hm !!! i)),
                wrap64 (wrap64 (snd (zip a b !!! i) + bs !!! i) - fst (hm !!! i))))).
    2:{ intros i Hi. apply seq_In_lt in Hi. rewrite length_zip in Hi.
        rewrite getitem_total_pair by (rewrite length_zip; lia).
        cbn [mbind result_bind].
        rewrite (getitem_total bs) by lia. cbn [mbind result_bind].
        rewrite (halo_at_total hm i LO) by lia. reflexivity. }
    f_equal. apply list_eq_total_pair.
    + rewrite length_fmap, length_seq, !length_zip, !length_zip_with. lia.
    + intros i Hi. rewrite length_fmap, length_seq, length_zip in Hi.
      rewrite fmap_lookup_total_seq by (rewrite length_zip; lia).
      rewrite !zip_lookup_total by (rewrite ?length_zip_with; lia).
      cbn [fst snd].
      rewrite !zip_with_lookup_total_Z by lia.
      rewrite Hsi by lia.
      f_equal; apply wrap64_slice_vs_index.
Qed.

Lemma slice_conversion_is_index_conversion_witness :
  exists la lb ga gb,
    globale_to_locale_h MoreExamples.hie_4_8 [5; 1] = Ok la /\
    globale_to_locale_h MoreExamples.hie_4_8 [7; 4] = Ok lb /\
    globale_to_locale_slice_h MoreExamples.hie_4_8 (zip [5; 1] [7; 4])
      = Ok (zip la lb) /\
    locale_to_globale_h MoreExamples.hie_4_8 [5; 1] = Ok ga /\
    locale_to_globale_h MoreExamples.hie_4_8 [7; 4] = Ok gb /\
    locale_to_globale_slice_h MoreExamples.hie_4_8 (zip [5; 1] [7; 4])
      = Ok (zip ga gb).
Proof.
  apply (slice_conversion_is_index_conversion MoreExamples.hie_4_8
           [5; 1] [7; 4]); reflexivity.
Defined.

(** X29: the slice forms of an extent are its bounds.  For a well-formed
    extent with a halo row per axis, [to_slice_n] pairs the bounds without
    halo, [to_slice_h] pairs [start_h] with [stop_h], and an
    [IndexingExtent] constructed from the slices of [to_slice_h] is the
    with-halo box. *)
Theorem to_slice_h_is_halo_box (self : HaloIndexingExtent) :
  well_formed (extent self) ->
  length (Indexing._halo self) = ndim (extent self) ->
  exists s t,
    start_h self = Ok s /\ stop_h self = Ok t /\
    to_slice_n self = Ok (zip (start_n self) (stop_n self)) /\
    to_slice_h self = Ok (zip s t) /\
    IndexingExtent_init (Some (zip s t)) None None = Ok (mkIndexingExtent s t).
Proof.
  unfold well_formed, ndim. intros Hwf Hh.
  set (bs := _beg (extent self)) in *. set (es := _end (extent self)) in *.
  set (hm := Indexing._halo self) in *.
  set (s := zip_with (fun x y => wrap64 (x - y)) bs (hm.*1)).
  set (t := zip_with (fun x y => wrap64 (x + y)) es (hm.*2)).
  assert (Hs : start_h self = Ok s).
  { unfold start_h, np_sub. apply broadcast2_same. cbn [halo_col].
    rewrite length_fmap. fold bs hm. lia. }
  assert (Ht : stop_h self = Ok t).
  { unfold stop_h, np_add. apply broadcast2_same. cbn [halo_col].
    rewrite length_fmap. fold es hm. lia. }
  assert (Hls : length s = length bs)
    by (unfold s; rewrite length_zip_with, length_fmap; lia).
  assert (Hlt : length t = length bs)
    by (unfold t; rewrite length_zip_with, length_fmap; lia).
  exists s, t. split; [exact Hs|]. split; [exact Ht|]. split; [|split].
  - unfold to_slice_n, to_slice, start_n, stop_n. fold bs es.
    rewrite <- zip_as_fmap_seq by lia.
    apply collect_ext. intros i Hi. apply seq_In_lt in Hi.
    rewrite !getitem_total by lia. reflexivity.
  - unfold to_slice_h. fold bs es hm.
    rewrite <- (zip_as_fmap_seq s t) by lia. rewrite Hls.
    apply collect_ext. intros i Hi. apply seq_In_lt in Hi.
    rewrite (getitem_total bs) by lia. cbn [mbind result_bind].
    rewrite (halo_at_total hm i LO) by lia. cbn [mbind result_bind].
    rewrite (getitem_total es) by lia. cbn [mbind result_bind].
    rewrite (halo_at_total hm i HI) by lia.
    cbn [mbind result_bind mret result_ret]. unfold s, t.
    rewrite !zip_with_lookup_total_Z, !fmap_lookup_total_col;
      rewrite ?length_fmap; try lia; reflexivity.
  - unfold IndexingExtent_init, np_array_int64.
    rewrite fst_zip, snd_zip by lia.
    rewrite (broadcast2_wrap_forallb Z.sub _ _ _ Hs),
      (broadcast2_wrap_forallb Z.add _ _ _ Ht). reflexivity.
Qed.

Lemma to_slice_h_is_halo_box_witness :
  exists s t,
    start_h MoreExamples.hie_10_20 = Ok s /\
    stop_h MoreExamples.hie_10_20 = Ok t /\
    to_slice_n MoreExamples.hie_10_20
      = Ok (zip (start_n MoreExamples.hie_10_20)
                (stop_n MoreExamples.hie_10_20)) /\
    to_slice_h MoreExamples.hie_10_20 = Ok (zip s t) /\
    IndexingExtent_init (Some (zip s t)) None None = Ok (mkIndexingExtent s t).
Proof.
  apply (to_slice_h_is_halo_box MoreExamples.hie_10_20); reflexivity.
Defined.
